(** * PhotoDupFinder: the duplicate detection engine of [dupfinder.py]

    A shallow embedding of the scan thread ([ScanThread]), of the catalog
    it keeps in SQLite and of the two manager operations that read and
    update that catalog ([load_existing_results], [delete_image]),
    followed by the properties of the engine.

    Conventions.  Python integers are [Z], Python strings are [string]
    (the UTF-8 bytes of the text), [None] is [option].  The SQLite file is a record of two tables, each a
    list of rows in rowid order.  Everything the engine gets from outside
    (the directory tree, what decoding a file gives, which store
    operation raises, when the stop flag is seen) is an explicit
    argument, so that every function below can be evaluated. *)

From Stdlib Require Import List String Ascii ZArith Bool Arith Lia.
From Stdlib Require Import Permutation Sorted DecimalString OrdersEx RelationClasses.
From Stdlib Require Floats Uint63.
Import ListNotations.

Local Open Scope string_scope.
Local Open Scope list_scope.

(* ================================================================= *)
(** ** Strings *)

(** [f"{n}"] for a Python integer. *)
Definition str_of_Z (z : Z) : string := NilZero.string_of_int (Z.to_int z).
Definition str_of_nat (n : nat) : string := NilZero.string_of_uint (Nat.to_uint n).

(** [str.upper] and [str.lower] on the ASCII letters (the extensions of
    [IMAGE_EXTENSIONS] are ASCII). *)
Definition upper_ascii (c : ascii) : ascii :=
  let n := nat_of_ascii c in
  if andb (97 <=? n)%nat (n <=? 122)%nat then ascii_of_nat (n - 32) else c.

Definition lower_ascii (c : ascii) : ascii :=
  let n := nat_of_ascii c in
  if andb (65 <=? n)%nat (n <=? 90)%nat then ascii_of_nat (n + 32) else c.

Fixpoint str_map (f : ascii -> ascii) (s : string) : string :=
  match s with
  | EmptyString => EmptyString
  | String c r => String (f c) (str_map f r)
  end.

Definition upper : string -> string := str_map upper_ascii.
Definition lower : string -> string := str_map lower_ascii.

(** [s.endswith(suf)]. *)
Definition ends_with (suf s : string) : bool :=
  let n := String.length s in
  let k := String.length suf in
  andb (k <=? n)%nat (String.eqb (substring (n - k) k s) suf).

(** [os.path.basename] with the POSIX separator. *)
Fixpoint basename_from (cur s : string) : string :=
  match s with
  | EmptyString => cur
  | String c r =>
      if Ascii.eqb c "/"%char then basename_from EmptyString r
      else basename_from (cur ++ String c EmptyString)%string r
  end.

Definition basename (p : string) : string := basename_from EmptyString p.

(** The line feed of ["Scan voltooid!\n..."]. *)
Definition newline : string := String (ascii_of_nat 10) EmptyString.

(** [list(set(l))]: the distinct elements of [l].  Python gives them in
    an order of its own; the scan is therefore stated for every
    permutation of this list. *)
Definition list_set (l : list string) : list string := nodup string_dec l.

(* ================================================================= *)
(** ** Stable descending sort

    [list.sort(key=..., reverse=True)] and SQL's [ORDER BY ... DESC] are
    both modelled by one insertion sort: an element is placed in front
    of the first element whose key is not greater, so elements with
    equal keys keep their order, as Python's sort guarantees. *)

Section SortDesc.
Context {A K : Type}.
Variable klt : K -> K -> bool.
Variable key : A -> K.

Fixpoint insert_desc (x : A) (l : list A) : list A :=
  match l with
  | [] => [x]
  | y :: l' =>
      if klt (key x) (key y) then y :: insert_desc x l'
      else x :: y :: l'
  end.

Definition sort_desc (l : list A) : list A := fold_right insert_desc [] l.

(** [a] may stand before [b] in a descending list. *)
Definition desc (a b : A) : Prop := klt (key a) (key b) = false.
End SortDesc.

(* ================================================================= *)
(** ** The catalog: tables [images] and [duplicate_groups] *)

(** The dictionary returned by [get_metadata]. *)
Record Metadata := {
  resolution : string;
  width : Z;
  height : Z;
  file_size : Z;
  date_taken : option string;
  date_modified : option string
}.

(** The dictionary [image_data] built per file by the scan:
    [{"path", "hash", "filename", **metadata}]. *)
Record ImageData := {
  path : string;
  hash : string;
  filename : string;
  meta : Metadata
}.

(** A row of [images]. *)
Record ImageRow := {
  row_id : Z;
  row_path : string;
  row_filename : string;
  row_hash : string;
  row_meta : Metadata;
  is_original : bool;
  group_id : option Z;
  is_deleted : bool
}.

(** A row of [duplicate_groups]; [created_at] is the wall clock
    ([CURRENT_TIMESTAMP]) and is not read by the program. *)
Record GroupRow := {
  g_id : Z;
  g_hash : string;
  image_count : Z
}.

(** The database file: both tables and their AUTOINCREMENT counters. *)
Record DB := {
  images : list ImageRow;
  images_seq : Z;
  duplicate_groups : list GroupRow;
  groups_seq : Z
}.

(** [setup_database]: drop and recreate both tables. *)
Definition setup_database : DB :=
  {| images := []; images_seq := 0; duplicate_groups := []; groups_seq := 0 |}.

(** [save_image_to_db]: [INSERT OR REPLACE INTO images (...)]; [path] is
    UNIQUE, so a row with the same path is deleted first; the new row
    has the defaults [is_original = FALSE], [group_id = NULL],
    [is_deleted = FALSE]. *)
Definition save_image_to_db (d : ImageData) (db : DB) : DB :=
  let i := (images_seq db + 1)%Z in
  {| images :=
       filter (fun r => negb (String.eqb (row_path r) (path d))) (images db)
       ++ [ {| row_id := i; row_path := path d; row_filename := filename d;
               row_hash := hash d; row_meta := meta d;
               is_original := false; group_id := None; is_deleted := false |} ];
     images_seq := i;
     duplicate_groups := duplicate_groups db;
     groups_seq := groups_seq db |}.

(** [create_duplicate_group]: insert a group row, return [lastrowid]. *)
Definition create_duplicate_group (img_hash : string) (imgs : list ImageData)
    (db : DB) : DB * Z :=
  let i := (groups_seq db + 1)%Z in
  ({| images := images db;
      images_seq := images_seq db;
      duplicate_groups :=
        duplicate_groups db
        ++ [ {| g_id := i; g_hash := img_hash;
                image_count := Z.of_nat (List.length imgs) |} ];
      groups_seq := i |}, i).

Definition set_group (gid : Z) (orig : bool) (r : ImageRow) : ImageRow :=
  {| row_id := row_id r; row_path := row_path r; row_filename := row_filename r;
     row_hash := row_hash r; row_meta := row_meta r;
     is_original := orig; group_id := Some gid; is_deleted := is_deleted r |}.

(** [update_image_group]:
    [UPDATE images SET group_id = ?, is_original = ? WHERE path = ?]. *)
Definition update_image_group (p : string) (gid : Z) (orig : bool) (db : DB) : DB :=
  {| images :=
       map (fun r => if String.eqb (row_path r) p then set_group gid orig r else r)
           (images db);
     images_seq := images_seq db;
     duplicate_groups := duplicate_groups db;
     groups_seq := groups_seq db |}.

Definition set_deleted (r : ImageRow) : ImageRow :=
  {| row_id := row_id r; row_path := row_path r; row_filename := row_filename r;
     row_hash := row_hash r; row_meta := row_meta r;
     is_original := is_original r; group_id := group_id r; is_deleted := true |}.

(** The statement of [delete_image]:
    [UPDATE images SET is_deleted = TRUE WHERE path = ?]. *)
Definition mark_deleted (p : string) (db : DB) : DB :=
  {| images :=
       map (fun r => if String.eqb (row_path r) p then set_deleted r else r)
           (images db);
     images_seq := images_seq db;
     duplicate_groups := duplicate_groups db;
     groups_seq := groups_seq db |}.

(** [width * height] of a row. *)
Definition row_area (r : ImageRow) : Z := (width (row_meta r) * height (row_meta r))%Z.

(* ================================================================= *)
(** ** What the engine observes of the outside world *)

(** An entry the recursive walk of [Path(source_folder).glob("**/...")]
    meets: its path as [str(f)] gives it, and [f.is_file()]. *)
Record Entry := {
  e_path : string;
  e_is_file : bool
}.

(** The tree under the source folder; [case_sensitive] is the path
    flavour of [pathlib] (true on POSIX, false on Windows). *)
Record Tree := {
  case_sensitive : bool;
  entries : list Entry
}.

(** A value of the EXIF dictionary: a string, or anything else. *)
Inductive ExifValue :=
| ExifStr (s : string)
| ExifOther.

(** What [img._getexif()] gives. *)
Inductive ExifObs :=
| ExifAbsent                               (* no [_getexif], [None] or [{}] *)
| ExifRaises                               (* [_getexif] raises *)
| ExifItems (items : list (Z * ExifValue)). (* a non-empty dictionary *)

(** What [Image.open(path)] gives when it succeeds: [img.size], the EXIF
    data, and the outcome of [imagehash.phash(img.convert('RGB'), 16)]
    printed by [str] (the 64 hex digits), [None] when that raises. *)
Record ImageObs := {
  img_size : Z * Z;
  img_exif : ExifObs;
  img_phash : option string
}.

(** [os.stat(path)]: [st_size], and
    [datetime.fromtimestamp(st_mtime).isoformat()], [None] when the
    conversion raises. *)
Record StatObs := {
  st_size : Z;
  mtime_iso : option string
}.

(** A file as the scan sees it; [None] stands for the call raising. *)
Record FileObs := {
  obs_stat : option StatObs;
  obs_image : option ImageObs
}.

(** The signals of [ScanThread], and the line [print]ed for a file whose
    processing raised. *)
Inductive Event :=
| progress_text (message : string)
| progress_value (percent : Z)
| finished_scan (success : bool) (message : string)
| printed (line : string).

(** One run of the scan thread: the tree, the files, the date parser
    [datetime.strptime(value, '%Y:%m:%d %H:%M:%S').isoformat()] of the
    standard library ([None] when it raises), the store operations that
    raise (with the text of the exception), and the value of
    [should_stop] read at the top of iteration [i]. *)
Record ScanEnv := {
  source_tree : Tree;
  observe : string -> FileObs;
  strptime_iso : string -> option string;
  setup_error : option string;
  save_error : string -> option string;      (* by path *)
  create_error : string -> option string;    (* by fingerprint *)
  update_error : string -> option string;    (* by path *)
  should_stop : nat -> bool
}.

(* ================================================================= *)
(** ** File discovery: [find_image_files] *)

Definition IMAGE_EXTENSIONS : list string :=
  [".jpg"; ".jpeg"; ".png"; ".heic"; ".heif"; ".bmp"; ".gif"; ".webp";
   ".tiff"; ".tif"].

(** Names are held as the UTF-8 bytes of the Python string.  On the
    case-insensitive flavour [pathlib] compiles a pattern with
    [re.IGNORECASE], under which an ASCII letter of the pattern matches
    its two cases and, besides, [i] matches U+0130 and U+0131, [s]
    matches U+017F and [k] matches U+212A; no other character matches
    an ASCII letter.  [ignorecase] rewrites a name accordingly: each
    character that matches an ASCII letter becomes that letter in lower
    case, every other byte stays. *)
Definition byte (n : nat) : ascii := ascii_of_nat n.

Fixpoint ignorecase (name : string) : string :=
  match name with
  | EmptyString => EmptyString
  | String c r =>
      match r with
      | EmptyString => String (lower_ascii c) EmptyString
      | String c2 r2 =>
          if andb (Ascii.eqb c (byte 196))
                  (orb (Ascii.eqb c2 (byte 176)) (Ascii.eqb c2 (byte 177)))
          then String "i" (ignorecase r2)
          else if andb (Ascii.eqb c (byte 197)) (Ascii.eqb c2 (byte 191))
          then String "s" (ignorecase r2)
          else
            match r2 with
            | EmptyString => String (lower_ascii c) (ignorecase r)
            | String c3 r3 =>
                if andb (Ascii.eqb c (byte 226))
                        (andb (Ascii.eqb c2 (byte 132)) (Ascii.eqb c3 (byte 170)))
                then String "k" (ignorecase r3)
                else String (lower_ascii c) (ignorecase r)
            end
      end
  end.

(** A name matches the pattern [*ext] when it ends with [ext]: as it
    is written on the case-sensitive flavour, and with case ignored as
    [re.IGNORECASE] does on the other.  The patterns of the scan are
    the extensions of [IMAGE_EXTENSIONS], which are ASCII. *)
Definition glob_match (cs : bool) (ext name : string) : bool :=
  if cs then ends_with ext name else ends_with (lower ext) (ignorecase name).

(** [folder_path.glob("**/*" + ext)]: the entries at any depth whose
    last component matches. *)
Definition glob (t : Tree) (ext : string) : list Entry :=
  filter (fun e => glob_match (case_sensitive t) ext (basename (e_path e)))
         (entries t).

Definition files_of (es : list Entry) : list string :=
  map e_path (filter e_is_file es).

(** The list [image_files] before [list(set(...))]. *)
Definition glob_all (t : Tree) : list string :=
  flat_map (fun ext => files_of (glob t ext) ++ files_of (glob t (upper ext)))
           IMAGE_EXTENSIONS.

Definition find_image_files (t : Tree) : list string := list_set (glob_all t).

(* ================================================================= *)
(** ** Fingerprint and metadata *)

(** [get_image_hash]: any failure of opening, converting or hashing
    gives [None].  An [ImageHash] of 256 bits is truthy, so the test
    [if img_hash:] of the scan succeeds exactly when a hash came back. *)
Definition get_image_hash (o : FileObs) : option string :=
  match obs_image o with
  | Some im => img_phash im
  | None => None
  end.

(** The dictionary of the outer [except:] of [get_metadata]. *)
Definition fallback_metadata : Metadata :=
  {| resolution := "unknown"; width := 0; height := 0; file_size := 0;
     date_taken := None; date_modified := None |}.

(** The number of the tag that [ExifTags.TAGS] names ['DateTime']. *)
Definition DateTime_tag : Z := 306.

(** The inner [try] of [get_metadata]: the first item tagged
    ['DateTime'] is parsed by [strptime], then the loop breaks; every
    exception leaves [date_taken = None]. *)
Definition exif_date_taken (strptime : string -> option string) (x : ExifObs)
    : option string :=
  match x with
  | ExifAbsent => None
  | ExifRaises => None
  | ExifItems items =>
      match find (fun tv => Z.eqb (fst tv) DateTime_tag) items with
      | Some (_, ExifStr s) => strptime s
      | Some (_, ExifOther) => None
      | None => None
      end
  end.

(** [get_metadata]: [os.stat], the modification time, then the image;
    whichever raises, the outer [except:] returns the fallback. *)
Definition get_metadata (strptime : string -> option string) (o : FileObs)
    : Metadata :=
  match obs_stat o with
  | None => fallback_metadata
  | Some st =>
      match mtime_iso st with
      | None => fallback_metadata
      | Some modified =>
          match obs_image o with
          | None => fallback_metadata
          | Some im =>
              let (w, h) := img_size im in
              {| resolution := (str_of_Z w ++ "x" ++ str_of_Z h)%string;
                 width := w; height := h;
                 file_size := st_size st;
                 date_taken := exif_date_taken strptime (img_exif im);
                 date_modified := Some modified |}
          end
      end
  end.

(* ================================================================= *)
(** ** The scan: [ScanThread.scan_for_duplicates] and [run] *)

(** [x['width'] * x['height']] and [x['date_taken'] or '']. *)
Definition pixel_area (x : ImageData) : Z := (width (meta x) * height (meta x))%Z.

Definition date_or_empty (x : ImageData) : string :=
  match date_taken (meta x) with
  | Some d => d
  | None => EmptyString
  end.

(** The key of the sort: the tuple of the two. *)
Definition sort_key (x : ImageData) : Z * string := (pixel_area x, date_or_empty x).

(** Python's [<] on such tuples: the areas first, then the strings,
    character by character. *)
Definition key_ltb (a b : Z * string) : bool :=
  orb (Z.ltb (fst a) (fst b))
      (andb (Z.eqb (fst a) (fst b)) (String.ltb (snd a) (snd b))).

(** [images.sort(key=..., reverse=True)]. *)
Definition sort_bucket (imgs : list ImageData) : list ImageData :=
  sort_desc key_ltb sort_key imgs.

(** [hash_to_images[h].append(d)] on a [defaultdict(list)]; the
    dictionary keeps its keys in the order of their insertion. *)
Fixpoint append_image (h : string) (d : ImageData)
    (m : list (string * list ImageData)) : list (string * list ImageData) :=
  match m with
  | [] => [(h, [d])]
  | (k, l) :: m' =>
      if String.eqb k h then (k, l ++ [d]) :: m'
      else (k, l) :: append_image h d m'
  end.

(** [int((processed / len(image_files)) * 80)].  The source computes
    this in double precision ([progress_float] below); the quotient of
    two file counts is correctly rounded and 80 = 5 * 2^4, for which
    multiplying back is exact, so the truncation is the integer
    quotient.  The scan is stated with the integer form; the two are
    checked to agree for every count up to 200 files
    ([progress_is_progress_float]). *)
Definition progress (processed total : nat) : Z :=
  (Z.of_nat processed * 80 / Z.of_nat total)%Z.

(** The same number as the source computes it, in double precision:
    the quotient of the two counts correctly rounded, its product with
    [80.0] rounded again, and [int] truncating toward zero. *)
Definition float_of_nat (n : nat) : PrimFloat.float :=
  PrimFloat.of_uint63 (Uint63.of_Z (Z.of_nat n)).

Definition int_of_float (x : PrimFloat.float) : Z :=
  match FloatOps.Prim2SF x with
  | SpecFloat.S754_finite negative m e =>
      let v := if (0 <=? e)%Z then (Z.pos m * 2 ^ e)%Z
               else (Z.pos m / 2 ^ (- e))%Z in
      if negative then (- v)%Z else v
  | _ => 0%Z
  end.

Definition progress_float (processed total : nat) : Z :=
  int_of_float
    (PrimFloat.mul (PrimFloat.div (float_of_nat processed) (float_of_nat total))
                   (float_of_nat 80)).

(** The variables of the processing loop. *)
Record Loop := {
  l_db : DB;
  l_processed : nat;
  l_hash_to_images : list (string * list ImageData)
}.

Definition image_data_of (env : ScanEnv) (filepath img_hash : string) : ImageData :=
  {| path := filepath; hash := img_hash; filename := basename filepath;
     meta := get_metadata (strptime_iso env) (observe env filepath) |}.

(** The [try] block of the loop for one file, with its [except]. *)
Definition process_file (env : ScanEnv) (total : nat) (filepath : string)
    (st : Loop) : Loop * list Event :=
  match get_image_hash (observe env filepath) with
  | Some img_hash =>
      let image_data := image_data_of env filepath img_hash in
      match save_error env filepath with
      | Some e =>
          (st, [printed ("Fout bij " ++ filepath ++ ": " ++ e)%string])
      | None =>
          let p := S (l_processed st) in
          ({| l_db := save_image_to_db image_data (l_db st);
              l_processed := p;
              l_hash_to_images :=
                append_image img_hash image_data (l_hash_to_images st) |},
           [progress_value (progress p total)])
      end
  | None =>
      let p := S (l_processed st) in
      ({| l_db := l_db st; l_processed := p;
          l_hash_to_images := l_hash_to_images st |},
       [progress_value (progress p total)])
  end.

(** [for filepath in image_files]: iteration [i] first reads
    [should_stop]; the boolean tells whether the loop left by [return]. *)
Fixpoint process_files (env : ScanEnv) (total : nat) (files : list string)
    (i : nat) (st : Loop) : Loop * list Event * bool :=
  match files with
  | [] => (st, [], false)
  | filepath :: rest =>
      if should_stop env i then (st, [], true)
      else
        let (st1, ev1) := process_file env total filepath st in
        let '(st2, ev2, stopped) := process_files env total rest (S i) st1 in
        (st2, ev1 ++ ev2, stopped)
  end.

(** [for img in images: self.update_image_group(img['path'], group_id, False)];
    a raising update leaves the earlier ones committed. *)
Fixpoint update_members (env : ScanEnv) (imgs : list ImageData) (gid : Z)
    (db : DB) : DB * option string :=
  match imgs with
  | [] => (db, None)
  | img :: rest =>
      match update_error env (path img) with
      | Some e => (db, Some e)
      | None =>
          update_members env rest gid (update_image_group (path img) gid false db)
      end
  end.

(** [for img_hash, images in hash_to_images.items()]: the grouping
    phase; [inl e] when a store operation raised [e]. *)
Fixpoint group_buckets (env : ScanEnv) (buckets : list (string * list ImageData))
    (db : DB) (duplicate_count : nat) : DB * (string + nat) :=
  match buckets with
  | [] => (db, inr duplicate_count)
  | (img_hash, imgs) :: rest =>
      if (1 <? List.length imgs)%nat then
        let sorted := sort_bucket imgs in
        match create_error env img_hash with
        | Some e => (db, inl e)
        | None =>
            let (db1, gid) := create_duplicate_group img_hash sorted db in
            match update_members env sorted gid db1 with
            | (db2, Some e) => (db2, inl e)
            | (db2, None) => group_buckets env rest db2 (S duplicate_count)
            end
        end
      else group_buckets env rest db duplicate_count
  end.

(** [sum(len(images) - 1 for images in hash_to_images.values()
         if len(images) > 1)]. *)
Definition total_duplicates (buckets : list (string * list ImageData)) : nat :=
  list_sum (map (fun b => List.length (snd b) - 1)
                (filter (fun b => (1 <? List.length (snd b))%nat) buckets)).

(** The way [scan_for_duplicates] is left. *)
Inductive Exit :=
| Completed                (* the end of the function *)
| NoImages                 (* [return] after "Geen afbeeldingen gevonden!" *)
| Cancelled                (* [return] on [should_stop] *)
| Raised (msg : string).   (* an exception leaves the function *)

Definition start_loop : Loop :=
  {| l_db := setup_database; l_processed := 0; l_hash_to_images := [] |}.

(** The body of [scan_for_duplicates], given the list that
    [find_image_files] returned; [db0] is the catalog before the scan. *)
Definition scan_with (env : ScanEnv) (image_files : list string) (db0 : DB)
    : DB * list Event * Exit :=
  let ev0 := [progress_text "Database voorbereiden..."] in
  match setup_error env with
  | Some e => (db0, ev0, Raised e)
  | None =>
      let ev1 := ev0 ++ [progress_text "Bestanden zoeken..."] in
      match image_files with
      | [] =>
          (setup_database,
           ev1 ++ [finished_scan false "Geen afbeeldingen gevonden!"],
           NoImages)
      | _ :: _ =>
          let total := List.length image_files in
          let ev2 :=
            ev1 ++ [progress_text
                      ("Verwerken van " ++ str_of_nat total ++ " afbeeldingen...")%string] in
          let '(st, evs, stopped) :=
            process_files env total image_files 0 start_loop in
          if stopped then (l_db st, ev2 ++ evs, Cancelled)
          else
            let ev3 := ev2 ++ evs ++ [progress_text "Duplicaten zoeken..."] in
            match group_buckets env (l_hash_to_images st) (l_db st) 0 with
            | (db, inl e) => (db, ev3, Raised e)
            | (db, inr duplicate_count) =>
                let ev4 := ev3 ++ [progress_value 100] in
                if (duplicate_count =? 0)%nat then
                  (db,
                   ev4 ++ [finished_scan true
                     "Geen duplicaten gevonden! Alle afbeeldingen zijn uniek."],
                   Completed)
                else
                  (db,
                   ev4 ++ [finished_scan true
                     ("Scan voltooid!" ++ newline ++ str_of_nat duplicate_count
                      ++ " groepen met "
                      ++ str_of_nat (total_duplicates (l_hash_to_images st))
                      ++ " duplicaten gevonden.")%string],
                   Completed)
            end
      end
  end.

(** [scan_for_duplicates]: the files are those of [find_image_files]. *)
Definition scan_for_duplicates (env : ScanEnv) (db0 : DB) : DB * list Event * Exit :=
  scan_with env (find_image_files (source_tree env)) db0.

(** [run]: an exception that leaves the scan becomes a failure signal. *)
Definition run_with (env : ScanEnv) (image_files : list string) (db0 : DB)
    : DB * list Event :=
  match scan_with env image_files db0 with
  | (db, evs, Raised e) =>
      (db, evs ++ [finished_scan false ("Fout tijdens scannen: " ++ e)%string])
  | (db, evs, _) => (db, evs)
  end.

Definition run (env : ScanEnv) (db0 : DB) : DB * list Event :=
  run_with env (find_image_files (source_tree env)) db0.

(* ================================================================= *)
(** ** The manager: [load_existing_results] and [delete_image] *)

Definition in_group (gid : Z) (r : ImageRow) : bool :=
  match group_id r with
  | Some g => Z.eqb g gid
  | None => false
  end.

(** The rows selected by [group_id = ? AND is_deleted = FALSE]; the
    same rows are the ones the join of the first query counts. *)
Definition live_members (gid : Z) (db : DB) : list ImageRow :=
  filter (fun r => andb (in_group gid r) (negb (is_deleted r))) (images db).

(** The first query: one line per group joined to its rows that are not
    deleted, [HAVING COUNT(i.id) > 1], [ORDER BY COUNT(i.id) DESC]. *)
Definition groups_query (db : DB) : list (GroupRow * nat) :=
  sort_desc Nat.ltb snd
    (filter (fun gc => (1 <? snd gc)%nat)
       (map (fun g => (g, List.length (live_members (g_id g) db)))
            (duplicate_groups db))).

(** [ORDER BY is_original DESC, width * height DESC]. *)
Definition member_key (r : ImageRow) : bool * Z := (is_original r, row_area r).

Definition member_ltb (a b : bool * Z) : bool :=
  orb (andb (negb (fst a)) (fst b))
      (andb (Bool.eqb (fst a) (fst b)) (Z.ltb (snd a) (snd b))).

(** The second query, run for one group. *)
Definition images_query (gid : Z) (db : DB) : list ImageRow :=
  sort_desc member_ltb member_key (live_members gid db).

(** The list [self.duplicates] built from the first [k] groups:
    [if len(images) > 1: self.duplicates.append(...)]. *)
Definition duplicates_of (groups : list (GroupRow * nat)) (db : DB)
    : list (list ImageRow) :=
  filter (fun imgs => (1 <? List.length imgs)%nat)
         (map (fun gc => images_query (g_id (fst gc)) db) groups).

(** What [load_existing_results] computes when nothing raises: the
    duplicate groups with their members. *)
Definition list_duplicate_groups (db : DB) : list (list ImageRow) :=
  duplicates_of (groups_query db) db.

(** The main window, as far as the two operations touch it: the
    catalog, the paths that exist on disk, the groups on display, the
    label above them and the scan thread with its [should_stop]. *)
Record Manager := {
  m_db : DB;
  m_disk : list string;
  duplicates : list (list ImageRow);
  current_group : nat;
  results_label : string;
  scan_thread : option bool
}.

(** How loading goes wrong: the database file is missing, the first
    query raises, or the query of the [k]-th group raises. *)
Inductive LoadFault :=
| LoadOk
| NoDatabaseFile
| GroupsQueryRaises (msg : string)
| ImagesQueryRaises (k : nat) (msg : string).

Definition with_results (m : Manager) (d : list (list ImageRow)) (cur : nat)
    (label : string) : Manager :=
  {| m_db := m_db m; m_disk := m_disk m; duplicates := d;
     current_group := cur; results_label := label;
     scan_thread := scan_thread m |}.

Definition loaded (m : Manager) : Manager :=
  let d := list_duplicate_groups (m_db m) in
  with_results m d 0
    (match d with
     | [] => "Geen duplicaten gevonden"
     | _ :: _ => (str_of_nat (List.length d) ++ " duplicate groepen gevonden")%string
     end).

Definition load_existing_results (f : LoadFault) (m : Manager) : Manager :=
  match f with
  | LoadOk => loaded m
  | NoDatabaseFile =>
      with_results m (duplicates m) (current_group m)
        "Geen database gevonden - voer eerst een scan uit"
  | GroupsQueryRaises e =>
      with_results m (duplicates m) (current_group m)
        ("Fout bij laden: " ++ e)%string
  | ImagesQueryRaises k e =>
      let groups := groups_query (m_db m) in
      if (k <? List.length groups)%nat then
        with_results m (duplicates_of (firstn k groups) (m_db m))
          (current_group m) ("Fout bij laden: " ++ e)%string
      else loaded m
  end.

(** The message boxes of [delete_image]. *)
Inductive Dialog :=
| Information (title text : string)
| Critical (title text : string).

(** One call of [delete_image]: the answer to the question box, and
    what [os.remove], the UPDATE and the reload do. *)
Record DeleteEnv := {
  reply_yes : bool;
  remove_error : option string;
  mark_error : option string;
  load_fault : LoadFault
}.

Definition with_disk_db (m : Manager) (disk : list string) (db : DB) : Manager :=
  {| m_db := db; m_disk := disk; duplicates := duplicates m;
     current_group := current_group m; results_label := results_label m;
     scan_thread := scan_thread m |}.

(** [os.path.exists]. *)
Definition path_exists (p : string) (disk : list string) : bool :=
  existsb (String.eqb p) disk.

(** [os.remove] when it does not raise. *)
Definition os_remove (p : string) (disk : list string) : list string :=
  filter (fun q => negb (String.eqb p q)) disk.

Definition delete_image (env : DeleteEnv) (file_path : string) (m : Manager)
    : Manager * option Dialog :=
  if reply_yes env then
    let failed e :=
      Some (Critical "Fout" ("Kon bestand niet verwijderen: " ++ e)%string) in
    let present := path_exists file_path (m_disk m) in
    match (if present then remove_error env else None) with
    | Some e => (m, failed e)
    | None =>
        let disk :=
          if present then os_remove file_path (m_disk m) else m_disk m in
        match mark_error env with
        | Some e => (with_disk_db m disk (m_db m), failed e)
        | None =>
            (load_existing_results (load_fault env)
               (with_disk_db m disk (mark_deleted file_path (m_db m))),
             Some (Information "Verwijderd"
                     ("Bestand verwijderd: " ++ basename file_path)%string))
        end
    end
  else (m, None).

(* ================================================================= *)
(** ** The results tab: navigation and the grid of cards *)

(** What [update_navigation] sets: the text of [group_label] and
    whether the two buttons are enabled. *)
Record Navigation := {
  group_label : string;
  prev_enabled : bool;
  next_enabled : bool
}.

Definition update_navigation (m : Manager) : Navigation :=
  match duplicates m with
  | [] =>
      {| group_label := "Groep 0 van 0";
         prev_enabled := false; next_enabled := false |}
  | _ :: _ =>
      {| group_label :=
           ("Groep " ++ str_of_nat (current_group m + 1) ++ " van "
            ++ str_of_nat (List.length (duplicates m)))%string;
         prev_enabled := (0 <? current_group m)%nat;
         next_enabled :=
           (current_group m <? List.length (duplicates m) - 1)%nat |}
  end.

Definition with_current (m : Manager) (cur : nat) : Manager :=
  with_results m (duplicates m) cur (results_label m).

(** [prev_group] and [next_group]; both then redraw the grid and the
    navigation from the new state.  In [next_group] the bound
    [len(self.duplicates) - 1] is -1 for an empty list, which no index
    is below; the truncated subtraction gives 0, with the same effect. *)
Definition prev_group (m : Manager) : Manager :=
  if (0 <? current_group m)%nat then with_current m (current_group m - 1)
  else m.

Definition next_group (m : Manager) : Manager :=
  if (current_group m <? List.length (duplicates m) - 1)%nat
  then with_current m (current_group m + 1)
  else m.

(** The cards of a group with their cells: [row, col = divmod(i, 4)]. *)
Definition place_cards (imgs : list ImageRow) : list (nat * nat * ImageRow) :=
  map (fun ic => (fst ic / 4, fst ic mod 4, snd ic))
      (combine (seq 0 (List.length imgs)) imgs).

(** [show_current_group]: the grid is cleared, then filled with the
    cards of the current group, unless there is none. *)
Definition show_current_group (m : Manager) : list (nat * nat * ImageRow) :=
  match duplicates m with
  | [] => []
  | _ :: _ =>
      if (List.length (duplicates m) <=? current_group m)%nat then []
      else place_cards (nth (current_group m) (duplicates m) [])
  end.

(* ================================================================= *)
(** ** The scan tab: starting, stopping and finishing a scan *)

(** The widgets of the scan tab that the handlers change. *)
Record ScanTab := {
  scan_btn_visible : bool;
  stop_btn_visible : bool;
  progress_bar_visible : bool;
  progress_bar_value : Z;
  progress_label : string
}.

(** The tab as [create_scan_tab] builds it. *)
Definition create_scan_tab : ScanTab :=
  {| scan_btn_visible := true; stop_btn_visible := false;
     progress_bar_visible := false; progress_bar_value := 0;
     progress_label := "Klaar om te scannen" |}.

Definition with_thread (m : Manager) (t : option bool) : Manager :=
  {| m_db := m_db m; m_disk := m_disk m; duplicates := duplicates m;
     current_group := current_group m; results_label := results_label m;
     scan_thread := t |}.

Definition with_label (tab : ScanTab) (s : string) : ScanTab :=
  {| scan_btn_visible := scan_btn_visible tab;
     stop_btn_visible := stop_btn_visible tab;
     progress_bar_visible := progress_bar_visible tab;
     progress_bar_value := progress_bar_value tab;
     progress_label := s |}.

(** [QProgressBar.setValue]: a value outside the range 0..100 of the
    bar is ignored. *)
Definition set_value (tab : ScanTab) (v : Z) : ScanTab :=
  if andb (0 <=? v)%Z (v <=? 100)%Z then
    {| scan_btn_visible := scan_btn_visible tab;
       stop_btn_visible := stop_btn_visible tab;
       progress_bar_visible := progress_bar_visible tab;
       progress_bar_value := v;
       progress_label := progress_label tab |}
  else tab.

(** The warning box of [start_scan]. *)
Inductive Warning :=
| WarningBox (title text : string).

(** [start_scan], given [folder], the text of the input field after
    [strip()]: an empty text or a folder that does not exist gives a
    warning and nothing else; otherwise the tab switches to scanning
    and a thread is created with [should_stop = False]. *)
Definition start_scan (folder : string) (m : Manager) (tab : ScanTab)
    : Manager * ScanTab * option Warning :=
  if String.eqb folder EmptyString then
    (m, tab, Some (WarningBox "Fout" "Selecteer eerst een map!"))
  else if negb (path_exists folder (m_disk m)) then
    (m, tab, Some (WarningBox "Fout" "Map bestaat niet!"))
  else
    (with_thread m (Some false),
     {| scan_btn_visible := false; stop_btn_visible := true;
        progress_bar_visible := true; progress_bar_value := 0;
        progress_label := "Scannen gestart..." |},
     None).

(** [reset_scan_ui]: the buttons and the bar go back, and a thread, if
    there is one, is waited for and dropped. *)
Definition reset_scan_ui (m : Manager) (tab : ScanTab) : Manager * ScanTab :=
  (match scan_thread m with
   | Some _ => with_thread m None
   | None => m
   end,
   {| scan_btn_visible := true; stop_btn_visible := false;
      progress_bar_visible := false;
      progress_bar_value := progress_bar_value tab;
      progress_label := progress_label tab |}).

(** [stop_scan]: the flag of the thread is set and the thread waited
    for, then the tab is reset. *)
Definition stop_scan (m : Manager) (tab : ScanTab) : Manager * ScanTab :=
  let m1 := match scan_thread m with
            | Some _ => with_thread m (Some true)
            | None => m
            end in
  let (m2, tab2) := reset_scan_ui m1 tab in
  (m2, with_label tab2 "Scan gestopt").

(** [scan_finished], the slot of [finished_scan]; only a success
    reloads the results. *)
Definition scan_finished (f : LoadFault) (success : bool) (message : string)
    (m : Manager) (tab : ScanTab) : Manager * ScanTab * Dialog :=
  let (m1, tab1) := reset_scan_ui m tab in
  if success then
    (load_existing_results f m1, with_label tab1 "Scan voltooid!",
     Information "Scan Voltooid" message)
  else
    (m1, with_label tab1 "Scan gefaald", Critical "Scan Fout" message).

(** The three connections made by [start_scan]: a signal of the thread
    runs its slot in the window; a printed line reaches no slot. *)
Definition deliver (f : LoadFault) (e : Event) (m : Manager) (tab : ScanTab)
    : Manager * ScanTab * list Dialog :=
  match e with
  | progress_text s => (m, with_label tab s, [])
  | progress_value v => (m, set_value tab v, [])
  | finished_scan success message =>
      let '(m1, tab1, box) := scan_finished f success message m tab in
      (m1, tab1, [box])
  | printed _ => (m, tab, [])
  end.

Fixpoint deliver_all (f : LoadFault) (evs : list Event) (m : Manager)
    (tab : ScanTab) : Manager * ScanTab * list Dialog :=
  match evs with
  | [] => (m, tab, [])
  | e :: rest =>
      let '(m1, tab1, boxes1) := deliver f e m tab in
      let '(m2, tab2, boxes2) := deliver_all f rest m1 tab1 in
      (m2, tab2, boxes1 ++ boxes2)
  end.

Definition with_db (m : Manager) (db : DB) : Manager :=
  with_disk_db m (m_disk m) db.

(** A scan from the button to the last signal: [start_scan], the run
    of the thread on the database file of the window, and the slots
    for the signals in the order of their emission.  The thread has
    written the catalog by the time its last signal is handled. *)
Definition scan_session (env : ScanEnv) (f : LoadFault) (folder : string)
    (m : Manager) (tab : ScanTab)
    : Manager * ScanTab * option Warning * list Dialog :=
  match start_scan folder m tab with
  | (m1, tab1, Some w) => (m1, tab1, Some w, [])
  | (m1, tab1, None) =>
      let (db, evs) := run env (m_db m1) in
      let '(m2, tab2, boxes) := deliver_all f evs (with_db m1 db) tab1 in
      (m2, tab2, None, boxes)
  end.

(** The same with the stop button pressed when the window has handled
    [k] signals of the thread: [stop_scan] sets the flag and waits for
    the thread, which blocks the window until [run] has returned; the
    signals that were still queued reach their slots after it. *)
Definition stop_during (env : ScanEnv) (f : LoadFault) (folder : string)
    (m : Manager) (tab : ScanTab) (k : nat)
    : Manager * ScanTab * option Warning * list Dialog :=
  match start_scan folder m tab with
  | (m1, tab1, Some w) => (m1, tab1, Some w, [])
  | (m1, tab1, None) =>
      let (db, evs) := run env (m_db m1) in
      let '(m2, tab2, boxes) :=
        deliver_all f (firstn k evs) (with_db m1 db) tab1 in
      let (m3, tab3) := stop_scan m2 tab2 in
      let '(m4, tab4, late) := deliver_all f (skipn k evs) m3 tab3 in
      (m4, tab4, None, boxes ++ late)
  end.

(* ================================================================= *)
(** ** Notions used in the statements and in the proofs *)

(** Two sort keys are the same tuple. *)
Definition key_eqb (a b : Z * string) : bool :=
  andb (Z.eqb (fst a) (fst b)) (String.eqb (snd a) (snd b)).

(** [x] may stand before [y] after the sort: a larger area, or the same
    area and a capture time that is not smaller as a string. *)
Definition before_desc (x y : ImageData) : Prop :=
  (pixel_area y < pixel_area x)%Z \/
  (pixel_area x = pixel_area y /\
   String.compare (date_or_empty x) (date_or_empty y) <> Lt).

(** Rows of a path are "gone" when each of them is flagged deleted. *)
Definition gone (p : string) (db : DB) : Prop :=
  forall r, In r (images db) -> row_path r = p -> is_deleted r = true.

(** The error box and the information box of [delete_image]. *)
Definition delete_failed (e : string) : option Dialog :=
  Some (Critical "Fout" ("Kon bestand niet verwijderen: " ++ e)%string).

Definition delete_done (p : string) : option Dialog :=
  Some (Information "Verwijderd" ("Bestand verwijderd: " ++ basename p)%string).

(** The loop without the test of [should_stop]. *)
Fixpoint process_all (env : ScanEnv) (total : nat) (files : list string)
    (st : Loop) : Loop * list Event :=
  match files with
  | [] => (st, [])
  | filepath :: rest =>
      let (st1, ev1) := process_file env total filepath st in
      let (st2, ev2) := process_all env total rest st1 in
      (st2, ev1 ++ ev2)
  end.

(** The record that a file leaves in the catalog and in its bucket:
    none when no fingerprint came back or when saving raised. *)
Definition recorded (env : ScanEnv) (f : string) : option ImageData :=
  match get_image_hash (observe env f) with
  | Some h =>
      match save_error env f with
      | None => Some (image_data_of env f h)
      | Some _ => None
      end
  | None => None
  end.

(** The records of a list of files, in the order of the files. *)
Definition records (env : ScanEnv) (files : list string) : list ImageData :=
  flat_map (fun f => match recorded env f with Some d => [d] | None => [] end)
           files.

(** Saving, and appending to the buckets, one record after the other. *)
Definition save_all (ds : list ImageData) (db : DB) : DB :=
  fold_left (fun db d => save_image_to_db d db) ds db.

Definition append_all (ds : list ImageData) (m : list (string * list ImageData))
    : list (string * list ImageData) :=
  fold_left (fun m d => append_image (hash d) d m) ds m.

(** A row of the catalog is fresh when it is as [save_image_to_db]
    wrote it: in no group, not original, not deleted. *)
Definition fresh_row (r : ImageRow) : Prop :=
  group_id r = None /\ is_original r = false /\ is_deleted r = false.

(** The percentages among some events, in the order of emission. *)
Definition progress_values (evs : list Event) : list Z :=
  flat_map (fun e => match e with progress_value v => [v] | _ => [] end) evs.

(** The three status lines that precede the loop. *)
Definition preamble (total : nat) : list Event :=
  [progress_text "Database voorbereiden...";
   progress_text "Bestanden zoeken...";
   progress_text ("Verwerken van " ++ str_of_nat total ++ " afbeeldingen...")%string].

(** [hash_to_images.get(h, [])]. *)
Definition bucket_of (h : string) (m : list (string * list ImageData))
    : list ImageData :=
  match find (fun b => String.eqb (fst b) h) m with
  | Some b => snd b
  | None => []
  end.

(** The paths of a bucket; whether [len(images) > 1]; whether a row
    has one of some paths; the group row inserted for a bucket when the
    counter stands at [s]. *)
Definition bucket_paths (b : string * list ImageData) : list string :=
  map path (snd b).

Definition big (b : string * list ImageData) : bool :=
  (1 <? List.length (snd b))%nat.

Definition has_path (ps : list string) (r : ImageRow) : bool :=
  existsb (String.eqb (row_path r)) ps.

Definition new_group (s : Z) (b : string * list ImageData) : GroupRow :=
  {| g_id := s + 1; g_hash := fst b;
     image_count := Z.of_nat (List.length (snd b)) |}.

(** A row after the buckets [bs] were grouped, the counter of
    [duplicate_groups] standing at [s] before. *)
Fixpoint row_after (bs : list (string * list ImageData)) (s : Z) (r : ImageRow)
    : ImageRow :=
  match bs with
  | [] => r
  | b :: rest =>
      if big b then
        row_after rest (s + 1)
          (if has_path (bucket_paths b) r then set_group (s + 1) false r else r)
      else row_after rest s r
  end.

(** The group rows that grouping the buckets [bs] inserts. *)
Fixpoint groups_after (bs : list (string * list ImageData)) (s : Z)
    : list GroupRow :=
  match bs with
  | [] => []
  | b :: rest =>
      if big b then new_group s b :: groups_after rest (s + 1)
      else groups_after rest s
  end.

(** The files of the scan whose record carries the fingerprint [h]:
    the bucket of [h], by path. *)
Definition bucket_files (env : ScanEnv) (files : list string) (h : string)
    : list string :=
  filter (fun f => match recorded env f with
                   | Some d => String.eqb (hash d) h
                   | None => false
                   end) files.

(** The text of the last signal of a scan that ran to its end. *)
Definition summary (duplicate_count : nat)
    (buckets : list (string * list ImageData)) : string :=
  if (duplicate_count =? 0)%nat then
    "Geen duplicaten gevonden! Alle afbeeldingen zijn uniek."
  else
    ("Scan voltooid!" ++ newline ++ str_of_nat duplicate_count
     ++ " groepen met " ++ str_of_nat (total_duplicates buckets)
     ++ " duplicaten gevonden.")%string.


(** Every group id on a row is the id of a group row, and that group
    row has the fingerprint of the row. *)
Definition linked (db : DB) : Prop :=
  forall r, In r (images db) ->
  forall x, group_id r = Some x ->
  exists g, In g (duplicate_groups db) /\ g_id g = x /\ g_hash g = row_hash r.

(** Each row, and each member of a bucket, is the record of its path. *)
Definition rows_recorded (env : ScanEnv) (db : DB) : Prop :=
  forall r, In r (images db) ->
  exists d, recorded env (row_path r) = Some d /\ row_hash r = hash d.

Definition buckets_recorded (env : ScanEnv)
    (bs : list (string * list ImageData)) : Prop :=
  forall b, In b bs -> forall d, In d (snd b) ->
  hash d = fst b /\ recorded env (path d) = Some d.

(** The ids of the group rows are distinct and none is above the
    counter of the table. *)
Definition groups_numbered (db : DB) : Prop :=
  NoDup (map g_id (duplicate_groups db)) /\
  forall g, In g (duplicate_groups db) -> (g_id g <= groups_seq db)%Z.

(** What the grouping phase never changes in a row: everything but
    [group_id] and [is_original]. *)
Definition row_core (r : ImageRow)
    : Z * string * string * string * Metadata * bool :=
  (row_id r, row_path r, row_filename r, row_hash r, row_meta r, is_deleted r).

(** The rows that saving the records [ds] appends, the counter of
    [images] standing at [s] before. *)
Fixpoint rows_of (s : Z) (ds : list ImageData) : list ImageRow :=
  match ds with
  | [] => []
  | d :: rest =>
      {| row_id := s + 1; row_path := path d; row_filename := filename d;
         row_hash := hash d; row_meta := meta d;
         is_original := false; group_id := None; is_deleted := false |}
      :: rows_of (s + 1) rest
  end.

(** Whether a path lies in a bucket of two or more records. *)
Definition in_big (bs : list (string * list ImageData)) (p : string) : bool :=
  existsb (fun b => andb (big b) (existsb (String.eqb p) (bucket_paths b))) bs.

(** Whether a row carries a group id. *)
Definition grouped (r : ImageRow) : bool :=
  match group_id r with
  | Some _ => true
  | None => false
  end.

(** The row of path [p] is filed under a group of fingerprint [h]. *)
Definition filed (db : DB) (p h : string) : Prop :=
  exists r g,
    In r (images db) /\ row_path r = p /\
    In g (duplicate_groups db) /\ group_id r = Some (g_id g) /\ g_hash g = h.

(** The summary that the catalog itself gives: the number of group
    rows, and the number of rows in a group less one per group. *)
Definition catalog_summary (db : DB) : string :=
  let groups := List.length (duplicate_groups db) in
  if (groups =? 0)%nat then
    "Geen duplicaten gevonden! Alle afbeeldingen zijn uniek."
  else
    ("Scan voltooid!" ++ newline ++ str_of_nat groups ++ " groepen met "
     ++ str_of_nat (List.length (filter grouped (images db)) - groups)
     ++ " duplicaten gevonden.")%string.

(** Events among which there is no [finished_scan]. *)
Definition quiet (evs : list Event) : Prop :=
  forall ok msg, ~ In (finished_scan ok msg) evs.

(** Two states of the scan tab with the same buttons and bar shown. *)
Definition same_buttons (tab tab' : ScanTab) : Prop :=
  scan_btn_visible tab' = scan_btn_visible tab /\
  stop_btn_visible tab' = stop_btn_visible tab /\
  progress_bar_visible tab' = progress_bar_visible tab.

(** The scan tab while a scan runs, and after it was reset. *)
Definition scanning (tab : ScanTab) : Prop :=
  scan_btn_visible tab = false /\ stop_btn_visible tab = true /\
  progress_bar_visible tab = true.

Definition idle (tab : ScanTab) : Prop :=
  scan_btn_visible tab = true /\ stop_btn_visible tab = false /\
  progress_bar_visible tab = false.

(** A name written with ASCII characters only. *)
Fixpoint plain_ascii (s : string) : bool :=
  match s with
  | EmptyString => true
  | String c r => andb (nat_of_ascii c <? 128)%nat (plain_ascii r)
  end.


(** The catalog after [update_image_group(path, gid, False)] was run
    for the records [ds], one after the other. *)
Definition updated (gid : Z) (ds : list ImageData) (db : DB) : DB :=
  fold_left (fun db d => update_image_group (path d) gid false db) ds db.


(* ================================================================= *)
(** ** A folder of photos, used for the concrete runs *)

(** The only capture time that occurs in the examples. *)
Definition example_strptime (s : string) : option string :=
  if String.eqb s "2021:07:04 12:30:00" then Some "2021-07-04T12:30:00"
  else None.

Definition photo (w h : Z) (exif : ExifObs) (fingerprint : string) (size : Z)
    : FileObs :=
  {| obs_stat := Some {| st_size := size;
                         mtime_iso := Some "2022-01-15T09:00:00" |};
     obs_image := Some {| img_size := (w, h); img_exif := exif;
                          img_phash := Some fingerprint |} |}.

(** A file that [os.stat] can examine and [Image.open] cannot decode. *)
Definition undecodable : FileObs :=
  {| obs_stat := Some {| st_size := 2048;
                         mtime_iso := Some "2022-01-15T09:00:00" |};
     obs_image := None |}.

(** Two copies of one picture, one other picture, one broken file and a
    picture whose extension is written [.Jpg]. *)
Definition example_tree : Tree :=
  {| case_sensitive := true;
     entries :=
       [ {| e_path := "/photos/a.jpg"; e_is_file := true |};
         {| e_path := "/photos/copy"; e_is_file := false |};
         {| e_path := "/photos/copy/b.png"; e_is_file := true |};
         {| e_path := "/photos/c.JPG"; e_is_file := true |};
         {| e_path := "/photos/broken.jpg"; e_is_file := true |};
         {| e_path := "/photos/notes.txt"; e_is_file := true |} ] |}.

Definition example_observe (p : string) : FileObs :=
  if String.eqb p "/photos/a.jpg" then
    photo 4000 3000
      (ExifItems [(271%Z, ExifStr "Canon");
                  (DateTime_tag, ExifStr "2021:07:04 12:30:00")])
      "c3c3f0f0" 3500000
  else if String.eqb p "/photos/copy/b.png" then
    photo 4000 3000 ExifAbsent "c3c3f0f0" 9100000
  else if String.eqb p "/photos/c.JPG" then
    photo 1024 768 ExifAbsent "0f0f3c3c" 200000
  else undecodable.

Definition never_raises : string -> option string := fun _ => None.

(** A run in which nothing raises and nobody presses stop. *)
Definition example_env : ScanEnv :=
  {| source_tree := example_tree;
     observe := example_observe;
     strptime_iso := example_strptime;
     setup_error := None;
     save_error := never_raises;
     create_error := never_raises;
     update_error := never_raises;
     should_stop := fun _ => false |}.

(** The same run with stop pressed while the second file is processed. *)
Definition stopped_env : ScanEnv :=
  {| source_tree := example_tree;
     observe := example_observe;
     strptime_iso := example_strptime;
     setup_error := None;
     save_error := never_raises;
     create_error := never_raises;
     update_error := never_raises;
     should_stop := fun i => (2 <=? i)%nat |}.


Definition example_files : list string := find_image_files example_tree.

(** A tree with one picture, its extension in mixed case. *)
Definition mixed_case_tree : Tree :=
  {| case_sensitive := true;
     entries := [ {| e_path := "/photos/holiday.Jpg"; e_is_file := true |} ] |}.

(** The catalog and the events of the run in which nothing raises. *)
Definition example_db : DB :=
  fst (fst (scan_with example_env example_files setup_database)).

Definition example_events : list Event :=
  snd (fst (scan_with example_env example_files setup_database)).

(** The window after that run, with every file still on disk. *)
Definition example_manager : Manager :=
  {| m_db := example_db;
     m_disk := map e_path (entries example_tree);
     duplicates := list_duplicate_groups example_db;
     current_group := 0;
     results_label := "1 duplicate groepen gevonden";
     scan_thread := None |}.

(** The same window after somebody else removed [a.jpg] from the disk. *)
Definition manager_file_gone : Manager :=
  {| m_db := example_db;
     m_disk := os_remove "/photos/a.jpg" (map e_path (entries example_tree));
     duplicates := list_duplicate_groups example_db;
     current_group := 0;
     results_label := "1 duplicate groepen gevonden";
     scan_thread := None |}.

(** The user confirms and nothing raises. *)
Definition confirmed : DeleteEnv :=
  {| reply_yes := true; remove_error := None; mark_error := None;
     load_fault := LoadOk |}.

(** The user confirms and [os.remove], if called, raises. *)
Definition confirmed_remove_raises (e : string) : DeleteEnv :=
  {| reply_yes := true; remove_error := Some e; mark_error := None;
     load_fault := LoadOk |}.

(** A bucket of three records of one fingerprint. *)
Definition example_bucket : list ImageData :=
  [ {| path := "/photos/small.jpg"; hash := "c3c3f0f0"; filename := "small.jpg";
       meta := {| resolution := "800x600"; width := 800; height := 600;
                  file_size := 90000; date_taken := Some "2023-02-01T08:00:00";
                  date_modified := None |} |};
    image_data_of example_env "/photos/copy/b.png" "c3c3f0f0";
    image_data_of example_env "/photos/a.jpg" "c3c3f0f0" ].

(** The same run with the database failing when [b.png] is put into
    its group. *)
Definition grouping_fails_env : ScanEnv :=
  {| source_tree := example_tree;
     observe := example_observe;
     strptime_iso := example_strptime;
     setup_error := None;
     save_error := never_raises;
     create_error := never_raises;
     update_error := fun p => if String.eqb p "/photos/copy/b.png"
                              then Some "disk I/O error" else None;
     should_stop := fun _ => false |}.

(** A run over a folder that holds no picture. *)
Definition no_images_env : ScanEnv :=
  {| source_tree :=
       {| case_sensitive := true;
          entries := [ {| e_path := "/photos/notes.txt"; e_is_file := true |} ] |};
     observe := example_observe;
     strptime_iso := example_strptime;
     setup_error := None;
     save_error := never_raises;
     create_error := never_raises;
     update_error := never_raises;
     should_stop := fun _ => false |}.

(** The window before its first scan, on a disk that has the folder. *)
Definition fresh_manager : Manager :=
  {| m_db := setup_database;
     m_disk := "/photos" :: map e_path (entries example_tree);
     duplicates := [];
     current_group := 0;
     results_label := "Geen duplicaten gevonden";
     scan_thread := None |}.

(** The catalog of the run in which nothing raises, over the same
    files in the opposite order. *)
Definition reversed_db : DB :=
  fst (fst (scan_with example_env (rev example_files) setup_database)).

(** The catalog of the run in which the grouping fails. *)
Definition half_grouped_db : DB :=
  fst (fst (scan_with grouping_fails_env example_files setup_database)).

(** The window after the run in which nothing raises, on that disk. *)
Definition scanned_manager : Manager :=
  {| m_db := example_db;
     m_disk := m_disk fresh_manager;
     duplicates := list_duplicate_groups example_db;
     current_group := 0;
     results_label := "1 duplicate groepen gevonden";
     scan_thread := None |}.

(** The names [foto.gif] with a dotless i (U+0131) and [FOTO.GIF] with
    a dotted capital I (U+0130), in UTF-8. *)
Definition dotless_name : string :=
  ("foto.g" ++ String (byte 196) (String (byte 177) "f"))%string.

Definition dotted_name : string :=
  ("FOTO.G" ++ String (byte 196) (String (byte 176) "F"))%string.

(** The catalog with the three records of [example_bucket] saved in
    their order of arrival. *)
Definition example_bucket_db : DB := save_all example_bucket setup_database.

(* ================================================================= *)
(** ** Facts about the descending sort *)

Lemma StronglySorted_impl {A : Type} (R S : A -> A -> Prop) (l : list A) :
  (forall x y, R x y -> S x y) -> StronglySorted R l -> StronglySorted S l.
Proof.
  intros HRS. induction 1 as [|a l _ IH Ha]; constructor; [exact IH|].
  eapply Forall_impl; [|exact Ha]. intros y. apply HRS.
Qed.

Section SortDescFacts.
Context {A K : Type}.
Variable klt : K -> K -> bool.
Variable key : A -> K.

Hypothesis klt_asym : forall a b, klt a b = true -> klt b a = false.
Hypothesis nlt_trans :
  forall a b c, klt a b = false -> klt b c = false -> klt a c = false.

Lemma insert_desc_perm (x : A) (l : list A) :
  Permutation (insert_desc klt key x l) (x :: l).
Proof.
  induction l as [|y l IH]; simpl; [reflexivity|].
  destruct (klt (key x) (key y)); [|reflexivity].
  rewrite IH. apply perm_swap.
Qed.

Lemma sort_desc_perm (l : list A) : Permutation (sort_desc klt key l) l.
Proof.
  induction l as [|x l IH]; simpl; [constructor|].
  rewrite insert_desc_perm. now constructor.
Qed.

Lemma sort_desc_In (l : list A) (x : A) : In x (sort_desc klt key l) <-> In x l.
Proof.
  split; apply Permutation_in;
    [apply sort_desc_perm | apply Permutation_sym, sort_desc_perm].
Qed.

Lemma sort_desc_length (l : list A) :
  List.length (sort_desc klt key l) = List.length l.
Proof. apply Permutation_length, sort_desc_perm. Qed.

Lemma insert_desc_sorted (x : A) (l : list A) :
  StronglySorted (desc klt key) l ->
  StronglySorted (desc klt key) (insert_desc klt key x l).
Proof.
  induction 1 as [|y l Hs IH Hy]; simpl.
  - repeat constructor.
  - destruct (klt (key x) (key y)) eqn:E.
    + constructor; [exact IH|].
      rewrite Forall_forall in *. intros z Hz.
      apply (Permutation_in _ (insert_desc_perm x l)) in Hz.
      destruct Hz as [<-|Hz]; [now apply klt_asym | now apply Hy].
    + constructor; [now constructor|].
      constructor; [exact E|].
      rewrite Forall_forall in *. intros z Hz.
      unfold desc in *. eapply nlt_trans; [exact E | now apply Hy].
Qed.

Lemma sort_desc_sorted (l : list A) :
  StronglySorted (desc klt key) (sort_desc klt key l).
Proof.
  induction l as [|x l IH]; simpl; [constructor | now apply insert_desc_sorted].
Qed.

(** Stability: the elements that satisfy a predicate closed under
    "not smaller" ties keep their order.  It is used with the
    predicate "has key [k]". *)
Lemma insert_desc_filter (p : A -> bool) (x : A) (l : list A) :
  (forall y, p x = true -> p y = true -> klt (key x) (key y) = false) ->
  filter p (insert_desc klt key x l) = filter p (x :: l).
Proof.
  intros Hp. induction l as [|y l IH]; simpl; [reflexivity|].
  destruct (klt (key x) (key y)) eqn:E; [|reflexivity].
  simpl in *. rewrite IH.
  destruct (p x) eqn:Px; [|reflexivity].
  destruct (p y) eqn:Py; [|reflexivity].
  rewrite (Hp y eq_refl Py) in E. discriminate.
Qed.

Lemma sort_desc_stable (p : A -> bool) (l : list A) :
  (forall x y, p x = true -> p y = true -> klt (key x) (key y) = false) ->
  filter p (sort_desc klt key l) = filter p l.
Proof.
  intros Hp. induction l as [|x l IH]; simpl; [reflexivity|].
  rewrite insert_desc_filter by (intros; now apply Hp).
  simpl. now rewrite IH.
Qed.

Hypothesis klt_antisym :
  forall a b, klt a b = false -> klt b a = false -> a = b.

(** Two descending lists of keys with the same elements are equal. *)
Lemma desc_keys_unique (l1 l2 : list K) :
  StronglySorted (fun a b => klt a b = false) l1 ->
  StronglySorted (fun a b => klt a b = false) l2 ->
  Permutation l1 l2 -> l1 = l2.
Proof.
  intros H1. revert l2.
  induction H1 as [|a l1 Hs1 IH Ha]; intros l2 H2 HP.
  - apply Permutation_nil in HP. now subst.
  - destruct H2 as [|b l2 Hs2 Hb].
    + apply Permutation_sym, Permutation_nil in HP. discriminate.
    + assert (a = b) as ->.
      { rewrite Forall_forall in Ha, Hb.
        assert (Ia : In a (b :: l2))
          by (eapply Permutation_in; [exact HP | now left]).
        assert (Ib : In b (a :: l1))
          by (eapply Permutation_in; [apply Permutation_sym, HP | now left]).
        destruct Ia as [->|Ia]; [reflexivity|].
        destruct Ib as [->|Ib]; [reflexivity|].
        apply klt_antisym; [now apply Ha | now apply Hb]. }
      f_equal. apply IH; [exact Hs2|].
      eapply Permutation_cons_inv, HP.
Qed.

Lemma sorted_map_key (l : list A) :
  StronglySorted (desc klt key) l ->
  StronglySorted (fun a b => klt a b = false) (map key l).
Proof.
  induction 1 as [|x l Hs IH Hx]; simpl; constructor; [exact IH|].
  rewrite Forall_forall in *. intros k Hk.
  apply in_map_iff in Hk as (y & <- & Hy). now apply Hx.
Qed.

(** The keys of the sorted list depend on the elements only, not on
    the order in which they came. *)
Lemma sort_desc_keys_perm (l1 l2 : list A) :
  Permutation l1 l2 ->
  map key (sort_desc klt key l1) = map key (sort_desc klt key l2).
Proof.
  intros HP. apply desc_keys_unique.
  - apply sorted_map_key, sort_desc_sorted.
  - apply sorted_map_key, sort_desc_sorted.
  - apply Permutation_map.
    rewrite (sort_desc_perm l1), (sort_desc_perm l2). exact HP.
Qed.
End SortDescFacts.

(* ================================================================= *)
(** ** The order of the sort keys *)

Lemma compare_as_OT (a b : string) : String.compare a b = String_as_OT.compare a b.
Proof.
  revert b. induction a as [|c a IH]; intros [|d b]; reflexivity.
Qed.

Lemma str_ltb_lt (a b : string) : String.ltb a b = true <-> String_as_OT.lt a b.
Proof.
  unfold String.ltb, String_as_OT.lt. rewrite compare_as_OT.
  destruct (String_as_OT.compare a b); split; congruence.
Qed.

Lemma str_ltb_ge (a b : string) :
  String.ltb a b = false <-> a = b \/ String_as_OT.lt b a.
Proof.
  unfold String.ltb. rewrite compare_as_OT.
  destruct (String_as_OT.compare_spec a b) as [E|L|G]; split; intros H;
    auto; try discriminate.
  - exfalso. destruct H as [->|H].
    + now apply (StrictOrder_Irreflexive b).
    + apply (StrictOrder_Irreflexive a). now transitivity b.
Qed.

Lemma str_ltb_asym (a b : string) : String.ltb a b = true -> String.ltb b a = false.
Proof. rewrite str_ltb_lt, str_ltb_ge. auto. Qed.

Lemma str_nlt_trans (a b c : string) :
  String.ltb a b = false -> String.ltb b c = false -> String.ltb a c = false.
Proof.
  rewrite !str_ltb_ge. intros [->|H1] [->|H2]; auto.
  right. now transitivity b.
Qed.

Lemma str_nlt_antisym (a b : string) :
  String.ltb a b = false -> String.ltb b a = false -> a = b.
Proof.
  rewrite !str_ltb_ge. intros [->|H1] [E|H2]; auto.
  exfalso. apply (StrictOrder_Irreflexive a). now transitivity b.
Qed.

(** [key_ltb] read as a proposition on the two components. *)
Lemma key_ltb_false (a b : Z * string) :
  key_ltb a b = false <->
  (fst b < fst a)%Z \/ (fst a = fst b /\ String.ltb (snd a) (snd b) = false).
Proof.
  unfold key_ltb.
  rewrite orb_false_iff, andb_false_iff, Z.ltb_ge, Z.eqb_neq.
  destruct (String.ltb (snd a) (snd b)); intuition (try lia; try congruence).
Qed.

Lemma key_ltb_true (a b : Z * string) :
  key_ltb a b = true <->
  (fst a < fst b)%Z \/ (fst a = fst b /\ String.ltb (snd a) (snd b) = true).
Proof.
  unfold key_ltb.
  rewrite orb_true_iff, andb_true_iff, Z.ltb_lt, Z.eqb_eq. reflexivity.
Qed.

Lemma key_ltb_asym (a b : Z * string) : key_ltb a b = true -> key_ltb b a = false.
Proof.
  rewrite key_ltb_true, key_ltb_false. intros [H|[H1 H2]]; [now left|].
  right. split; [now symmetry | now apply str_ltb_asym].
Qed.

Lemma key_nlt_trans (a b c : Z * string) :
  key_ltb a b = false -> key_ltb b c = false -> key_ltb a c = false.
Proof.
  rewrite !key_ltb_false. intros [H1|[H1 S1]] [H2|[H2 S2]]; try (left; lia).
  right. split; [congruence | eapply str_nlt_trans; eassumption].
Qed.

Lemma key_nlt_antisym (a b : Z * string) :
  key_ltb a b = false -> key_ltb b a = false -> a = b.
Proof.
  rewrite !key_ltb_false. destruct a as [x s], b as [y t]; simpl.
  intros [H1|[H1 S1]] [H2|[H2 S2]]; try lia.
  f_equal; [exact H1 | now apply str_nlt_antisym].
Qed.

Lemma key_ltb_irrefl (a : Z * string) : key_ltb a a = false.
Proof.
  destruct (key_ltb a a) eqn:E; [|reflexivity].
  now rewrite (key_ltb_asym _ _ E) in E.
Qed.

Lemma key_eqb_eq (a b : Z * string) : key_eqb a b = true <-> a = b.
Proof.
  destruct a, b. unfold key_eqb. simpl.
  rewrite andb_true_iff, Z.eqb_eq, String.eqb_eq.
  split; [intros []; congruence | intros [= -> ->]; auto].
Qed.

Lemma desc_before_desc (x y : ImageData) :
  desc key_ltb sort_key x y <-> before_desc x y.
Proof.
  unfold desc, before_desc. rewrite key_ltb_false. simpl.
  unfold String.ltb.
  destruct (String.compare (date_or_empty x) (date_or_empty y));
    intuition congruence.
Qed.

(** The sort of a bucket: the result is in descending order of the
    key (width * height, date_taken), a missing date_taken counting as
    the empty string and strings being compared character by character;
    it holds the same records; records with the same key keep their
    order of arrival, and the sequence of keys is the same for every
    order in which the same records arrive. *)
Lemma sort_bucket_order (bucket : list ImageData) :
  StronglySorted before_desc (sort_bucket bucket) /\
  Permutation (sort_bucket bucket) bucket /\
  (forall k, filter (fun x => key_eqb (sort_key x) k) (sort_bucket bucket)
             = filter (fun x => key_eqb (sort_key x) k) bucket) /\
  (forall bucket', Permutation bucket bucket' ->
     map sort_key (sort_bucket bucket') = map sort_key (sort_bucket bucket)).
Proof.
  unfold sort_bucket. split; [|split; [|split]].
  - eapply StronglySorted_impl; [intros x y; apply desc_before_desc|].
    apply sort_desc_sorted; [apply key_ltb_asym | apply key_nlt_trans].
  - apply sort_desc_perm.
  - intros k. apply sort_desc_stable.
    intros x y Hx Hy. apply key_eqb_eq in Hx, Hy. rewrite Hx, Hy.
    apply key_ltb_irrefl.
  - intros bucket' HP. symmetry.
    apply sort_desc_keys_perm;
      [apply key_ltb_asym | apply key_nlt_trans | apply key_nlt_antisym
      | exact HP].
Qed.

(* ================================================================= *)
(** ** File discovery *)

Lemma find_image_files_NoDup (t : Tree) : NoDup (find_image_files t).
Proof. apply NoDup_nodup. Qed.

(** What is found: the regular files whose name matches the pattern of
    an extension of the list, as written or in upper case. *)
Lemma find_image_files_In (t : Tree) (p : string) :
  In p (find_image_files t) <->
  exists e ext,
    In e (entries t) /\ e_path e = p /\ e_is_file e = true /\
    In ext IMAGE_EXTENSIONS /\
    (glob_match (case_sensitive t) ext (basename p) = true \/
     glob_match (case_sensitive t) (upper ext) (basename p) = true).
Proof.
  unfold find_image_files, list_set, glob_all, files_of, glob.
  rewrite nodup_In, in_flat_map. split.
  - intros (ext & Hext & H). apply in_app_or in H.
    destruct H as [H|H]; apply in_map_iff in H as (e & <- & H);
      apply filter_In in H as (H & Hf); apply filter_In in H as (He & Hm);
      exists e, ext; auto 8.
  - intros (e & ext & He & <- & Hf & Hext & Hm).
    exists ext. split; [exact Hext|]. apply in_or_app.
    destruct Hm as [Hm|Hm]; [left|right];
      apply in_map, filter_In; (split; [|exact Hf]);
      apply filter_In; auto.
Qed.

(* ================================================================= *)
(** ** Metadata *)

(** **** C5 (as amended).  When decoding the image fails, the extractor
    returns the placeholder for all six fields, whether or not the file
    could be examined with stat: next to width 0, height 0, resolution
    "unknown" and no date_taken, also file_size is 0 and date_modified
    is absent.  The function is total: it never raises. *)
Theorem get_metadata_decode_failure (strptime : string -> option string)
    (o : FileObs) :
  obs_image o = None -> get_metadata strptime o = fallback_metadata.
Proof.
  intros H. unfold get_metadata. rewrite H.
  destruct (obs_stat o) as [st|]; [|reflexivity].
  now destruct (mtime_iso st).
Qed.

(** With stat, the time conversion and the decoding all succeeding, the
    size and the modification time are those of stat. *)
Lemma get_metadata_success (strptime : string -> option string) (o : FileObs)
    (st : StatObs) (modified : string) (im : ImageObs) :
  obs_stat o = Some st -> mtime_iso st = Some modified -> obs_image o = Some im ->
  let m := get_metadata strptime o in
  file_size m = st_size st /\ date_modified m = Some modified /\
  width m = fst (img_size im) /\ height m = snd (img_size im) /\
  date_taken m = exif_date_taken strptime (img_exif im).
Proof.
  intros H1 H2 H3. unfold get_metadata. rewrite H1, H2, H3.
  destruct (img_size im). simpl. auto.
Qed.

(* ================================================================= *)
(** ** Sorted lists under [filter] and [map] *)

Lemma StronglySorted_impl_In {A : Type} (R S : A -> A -> Prop) (l : list A) :
  (forall x y, In x l -> In y l -> R x y -> S x y) ->
  StronglySorted R l -> StronglySorted S l.
Proof.
  intros HRS Hs. induction Hs as [|a l Hs IH Ha]; constructor.
  - apply IH. intros x y Hx Hy. apply HRS; now right.
  - rewrite Forall_forall in *. intros y Hy.
    apply HRS; [now left | now right | now apply Ha].
Qed.

Lemma StronglySorted_filter {A : Type} (R : A -> A -> Prop) (f : A -> bool)
    (l : list A) :
  StronglySorted R l -> StronglySorted R (filter f l).
Proof.
  induction 1 as [|a l Hs IH Ha]; simpl; [constructor|].
  destruct (f a); [|exact IH]. constructor; [exact IH|].
  rewrite Forall_forall in *. intros y Hy.
  apply filter_In in Hy as [Hy _]. now apply Ha.
Qed.

Lemma StronglySorted_map {A B : Type} (R : B -> B -> Prop) (f : A -> B)
    (l : list A) :
  StronglySorted (fun a b => R (f a) (f b)) l -> StronglySorted R (map f l).
Proof.
  induction 1 as [|a l Hs IH Ha]; simpl; constructor; [exact IH|].
  rewrite Forall_forall in *. intros y Hy.
  apply in_map_iff in Hy as (x & <- & Hx). now apply Ha.
Qed.

(* ================================================================= *)
(** ** The queries of [load_existing_results] *)

Lemma nat_ltb_asym (a b : nat) : Nat.ltb a b = true -> Nat.ltb b a = false.
Proof. rewrite Nat.ltb_lt, Nat.ltb_ge. lia. Qed.

Lemma nat_nlt_trans (a b c : nat) :
  Nat.ltb a b = false -> Nat.ltb b c = false -> Nat.ltb a c = false.
Proof. rewrite !Nat.ltb_ge. lia. Qed.

Lemma member_ltb_false (a b : bool * Z) :
  member_ltb a b = false <->
  (fst a = true /\ fst b = false) \/ (fst a = fst b /\ (snd b <= snd a)%Z).
Proof.
  unfold member_ltb. destruct a as [[|] x], b as [[|] y]; simpl;
    rewrite ?Z.ltb_ge; intuition (try lia; try congruence).
Qed.

Lemma member_ltb_asym (a b : bool * Z) :
  member_ltb a b = true -> member_ltb b a = false.
Proof.
  unfold member_ltb. destruct a as [[|] x], b as [[|] y]; simpl; auto.
  - rewrite Z.ltb_lt, Z.ltb_ge. lia.
  - rewrite Z.ltb_lt, Z.ltb_ge. lia.
Qed.

Lemma member_nlt_trans (a b c : bool * Z) :
  member_ltb a b = false -> member_ltb b c = false -> member_ltb a c = false.
Proof.
  rewrite !member_ltb_false.
  intros [[E1 E2]|[E1 L1]] [[F1 F2]|[F1 L2]]; try congruence.
  - left. split; congruence.
  - left. split; congruence.
  - right. split; [congruence | lia].
Qed.

Lemma images_query_In (gid : Z) (db : DB) (r : ImageRow) :
  In r (images_query gid db) <->
  In r (images db) /\ group_id r = Some gid /\ is_deleted r = false.
Proof.
  unfold images_query, live_members, in_group.
  rewrite sort_desc_In, filter_In, andb_true_iff, negb_true_iff.
  destruct (group_id r) as [g|].
  - rewrite Z.eqb_eq. intuition congruence.
  - intuition congruence.
Qed.

Lemma images_query_length (gid : Z) (db : DB) :
  List.length (images_query gid db) = List.length (live_members gid db).
Proof. apply sort_desc_length. Qed.

Lemma images_query_sorted (gid : Z) (db : DB) :
  StronglySorted (desc member_ltb member_key) (images_query gid db).
Proof. apply sort_desc_sorted; [apply member_ltb_asym | apply member_nlt_trans]. Qed.

Lemma groups_query_In (db : DB) (gc : GroupRow * nat) :
  In gc (groups_query db) ->
  In (fst gc) (duplicate_groups db) /\
  snd gc = List.length (live_members (g_id (fst gc)) db) /\ 2 <= snd gc.
Proof.
  unfold groups_query. rewrite sort_desc_In, filter_In, in_map_iff.
  intros [(g & <- & Hg) H]. simpl in *. apply Nat.ltb_lt in H. auto.
Qed.

Lemma groups_query_sorted (db : DB) :
  StronglySorted (fun a b => snd b <= snd a) (groups_query db).
Proof.
  eapply StronglySorted_impl;
    [|apply sort_desc_sorted; [apply nat_ltb_asym | apply nat_nlt_trans]].
  intros x y. unfold desc. now rewrite Nat.ltb_ge.
Qed.

(** A group on display: the live rows of one group row, two at least. *)
Lemma list_duplicate_groups_In (db : DB) (imgs : list ImageRow) :
  In imgs (list_duplicate_groups db) ->
  exists g, In g (duplicate_groups db) /\ imgs = images_query (g_id g) db /\
            2 <= List.length imgs.
Proof.
  unfold list_duplicate_groups, duplicates_of.
  rewrite filter_In, in_map_iff. intros [(gc & <- & Hgc) H].
  apply Nat.ltb_lt in H. apply groups_query_In in Hgc as (Hg & _ & _).
  exists (fst gc). auto.
Qed.

Lemma list_duplicate_groups_sorted (db : DB) :
  StronglySorted (fun a b => List.length b <= List.length a)
                 (list_duplicate_groups db).
Proof.
  unfold list_duplicate_groups, duplicates_of.
  apply StronglySorted_filter, StronglySorted_map.
  eapply StronglySorted_impl_In; [|apply groups_query_sorted].
  intros x y Hx Hy. simpl.
  apply groups_query_In in Hx as (_ & Ex & _).
  apply groups_query_In in Hy as (_ & Ey & _).
  rewrite !images_query_length. lia.
Qed.

(** With no row flagged as original, the first sort key of the members
    is constant and the order is that of the areas. *)
Lemma images_query_area_sorted (gid : Z) (db : DB) :
  (forall r, In r (images db) -> is_original r = false) ->
  StronglySorted (fun a b => (row_area b <= row_area a)%Z) (images_query gid db).
Proof.
  intros Hno. eapply StronglySorted_impl_In; [|apply images_query_sorted].
  intros x y Hx Hy. unfold desc. rewrite member_ltb_false. simpl.
  apply images_query_In in Hx as (Hx & _). apply images_query_In in Hy as (Hy & _).
  rewrite (Hno x Hx), (Hno y Hy). intros [[? _]|[_ H]]; [discriminate | exact H].
Qed.

(* ================================================================= *)
(** ** Marking rows as deleted *)

Lemma mark_deleted_In (p : string) (db : DB) (r' : ImageRow) :
  In r' (images (mark_deleted p db)) <->
  exists r, In r (images db) /\
            r' = if String.eqb (row_path r) p then set_deleted r else r.
Proof.
  unfold mark_deleted. simpl. rewrite in_map_iff.
  split; intros (r & H1 & H2); exists r; auto.
Qed.

Lemma mark_deleted_length (p : string) (db : DB) :
  List.length (images (mark_deleted p db)) = List.length (images db).
Proof. unfold mark_deleted. simpl. apply length_map. Qed.

Lemma mark_deleted_groups (p : string) (db : DB) :
  duplicate_groups (mark_deleted p db) = duplicate_groups db.
Proof. reflexivity. Qed.

Lemma mark_deleted_absent (p : string) (db : DB) :
  (forall r, In r (images db) -> row_path r <> p) -> mark_deleted p db = db.
Proof.
  intros H. destruct db as [imgs s gs t]. unfold mark_deleted. simpl in *.
  f_equal. rewrite <- (map_id imgs) at 2. apply map_ext_in.
  intros r Hr. apply H in Hr. apply String.eqb_neq in Hr. now rewrite Hr.
Qed.

Lemma mark_deleted_gone (p : string) (db : DB) : gone p (mark_deleted p db).
Proof.
  intros r' Hr' Hp. apply mark_deleted_In in Hr' as (r & _ & ->).
  destruct (String.eqb_spec (row_path r) p) as [E|N]; [reflexivity|].
  now elim N.
Qed.

Lemma mark_deleted_keeps_gone (p q : string) (db : DB) :
  gone p db -> gone p (mark_deleted q db).
Proof.
  intros H r' Hr' Hp. apply mark_deleted_In in Hr' as (r & Hr & ->).
  destruct (String.eqb (row_path r) q); [reflexivity | now apply H].
Qed.

Lemma deletions_keep_gone (p : string) (qs : list string) (db : DB) :
  gone p db -> gone p (fold_left (fun d q => mark_deleted q d) qs db).
Proof.
  revert db. induction qs as [|q qs IH]; intros db H; simpl; [exact H|].
  apply IH, mark_deleted_keeps_gone, H.
Qed.

Lemma gone_not_listed (p : string) (db : DB) :
  gone p db ->
  forall imgs r, In imgs (list_duplicate_groups db) -> In r imgs -> row_path r <> p.
Proof.
  intros H imgs r Hi Hr Hp.
  apply list_duplicate_groups_In in Hi as (g & _ & -> & _).
  apply images_query_In in Hr as (Hr & _ & Hd).
  rewrite (H r Hr Hp) in Hd. discriminate.
Qed.

Lemma mark_deleted_original (p : string) (db : DB) :
  (forall r, In r (images db) -> is_original r = false) ->
  forall r, In r (images (mark_deleted p db)) -> is_original r = false.
Proof.
  intros H r' Hr'. apply mark_deleted_In in Hr' as (r & Hr & ->).
  destruct (String.eqb (row_path r) p); simpl; now apply H.
Qed.

(* ================================================================= *)
(** ** [delete_image] *)

Lemma load_existing_results_keeps (f : LoadFault) (m : Manager) :
  m_db (load_existing_results f m) = m_db m /\
  m_disk (load_existing_results f m) = m_disk m /\
  scan_thread (load_existing_results f m) = scan_thread m.
Proof.
  destruct f as [| |e|k e]; simpl; auto.
  destruct (k <? _)%nat; simpl; auto.
Qed.

Lemma path_exists_remove (p q : string) (disk : list string) :
  path_exists q (os_remove p disk) =
  if String.eqb p q then false else path_exists q disk.
Proof.
  unfold path_exists, os_remove. induction disk as [|x disk IH]; simpl.
  - now destruct (String.eqb p q).
  - destruct (String.eqb_spec p x) as [E|N]; simpl; rewrite IH;
      destruct (String.eqb_spec p q) as [E'|N'];
      destruct (String.eqb_spec q x) as [E''|N'']; simpl;
      congruence.
Qed.

(** A call that ends with the information box has marked the rows. *)
Lemma delete_image_succeeded (env : DeleteEnv) (p : string) (m : Manager)
    (title text : string) :
  snd (delete_image env p m) = Some (Information title text) ->
  m_db (fst (delete_image env p m)) = mark_deleted p (m_db m).
Proof.
  unfold delete_image. destruct (reply_yes env); [|discriminate].
  destruct (if path_exists p (m_disk m) then remove_error env else None);
    [discriminate|].
  destruct (mark_error env); [discriminate|]. simpl. intros _.
  now rewrite (proj1 (load_existing_results_keeps _ _)).
Qed.

(** **** C6.  After a delete of [p] that succeeded, [p] is in no group
    that the listing returns, now and after any further deletes, while
    each of its rows is still in the table, flagged deleted; the
    listing returns only groups with two or more rows that are not
    deleted, the groups by falling number of members and the members of
    a group by falling pixel area.  (The catalog is one in which no row
    is flagged as original, as every catalog written by the scan is.) *)
Theorem soft_delete_visibility (env : DeleteEnv) (p : string) (m : Manager)
    (title text : string) :
  (forall r, In r (images (m_db m)) -> is_original r = false) ->
  snd (delete_image env p m) = Some (Information title text) ->
  let db' := m_db (fst (delete_image env p m)) in
  (forall qs imgs r,
     In imgs (list_duplicate_groups
                (fold_left (fun d q => mark_deleted q d) qs db')) ->
     In r imgs -> row_path r <> p) /\
  (forall r, In r (images (m_db m)) -> row_path r = p ->
             In (set_deleted r) (images db')) /\
  List.length (images db') = List.length (images (m_db m)) /\
  (forall imgs, In imgs (list_duplicate_groups db') ->
     2 <= List.length imgs /\
     (exists g, In g (duplicate_groups db') /\
        forall r, In r imgs <->
                  In r (images db') /\ group_id r = Some (g_id g) /\
                  is_deleted r = false) /\
     StronglySorted (fun a b => (row_area b <= row_area a)%Z) imgs) /\
  StronglySorted (fun a b => List.length b <= List.length a)
                 (list_duplicate_groups db').
Proof.
  intros Hno Hok db'. subst db'.
  rewrite (delete_image_succeeded _ _ _ _ _ Hok).
  split; [|split; [|split; [|split]]].
  - intros qs. apply gone_not_listed, deletions_keep_gone, mark_deleted_gone.
  - intros r Hr Hp. apply mark_deleted_In. exists r. split; [exact Hr|].
    apply String.eqb_eq in Hp. now rewrite Hp.
  - apply mark_deleted_length.
  - intros imgs Hi.
    apply list_duplicate_groups_In in Hi as (g & Hg & -> & Hlen).
    split; [exact Hlen|]. split.
    + exists g. split; [exact Hg|]. intros r. apply images_query_In.
    + apply images_query_area_sorted, mark_deleted_original, Hno.
  - apply list_duplicate_groups_sorted.
Qed.

(** **** C9 (as amended).  In a confirmed delete, an [os.remove] that
    raises on a file that exists, or a store update that raises, is
    shown to the caller as the error box with the text of the
    exception, and the scan thread is not touched.  A file that is
    already gone is not an error: [os.remove] is not called for it, and
    with the update succeeding the call ends with the information box
    and the rows of the path flagged deleted. *)
Theorem delete_failure_surfaced (env : DeleteEnv) (p : string) (m : Manager) :
  reply_yes env = true ->
  let m' := fst (delete_image env p m) in
  let shown := snd (delete_image env p m) in
  scan_thread m' = scan_thread m /\
  (forall e, path_exists p (m_disk m) = true -> remove_error env = Some e ->
             shown = delete_failed e /\ m' = m) /\
  (forall e, path_exists p (m_disk m) = false \/ remove_error env = None ->
             mark_error env = Some e ->
             shown = delete_failed e /\ m_db m' = m_db m) /\
  (path_exists p (m_disk m) = false -> mark_error env = None ->
   shown = delete_done p /\ m_disk m' = m_disk m /\
   m_db m' = mark_deleted p (m_db m)).
Proof.
  intros Hy. unfold delete_image, delete_failed, delete_done. rewrite Hy.
  destruct (path_exists p (m_disk m)) eqn:Ex;
    destruct (remove_error env) as [e1|] eqn:Er;
    destruct (mark_error env) as [e2|] eqn:Em; simpl;
    repeat match goal with
      | |- context [load_existing_results ?f ?x] =>
          destruct (load_existing_results_keeps f x) as (-> & -> & ->)
      end; simpl;
    (split; [reflexivity|]);
    (split; [intros e H1 H2; try discriminate; injection H2 as <-; auto|]);
    (split; [intros e H1 H2; try discriminate;
             try (destruct H1; discriminate);
             injection H2 as <-; auto|]);
    intros H1 H2; try discriminate; auto.
Qed.

(** **** C10.  A confirmed delete of a path that has no row in [images],
    with neither [os.remove] nor the UPDATE raising, ends with the
    information box: the UPDATE matches no row and leaves the catalog
    as it was, and the path does not exist on disk afterwards, whether
    or not it did before; no other path is touched. *)
Theorem delete_unknown_path (env : DeleteEnv) (p : string) (m : Manager) :
  reply_yes env = true ->
  (forall r, In r (images (m_db m)) -> row_path r <> p) ->
  (path_exists p (m_disk m) = true -> remove_error env = None) ->
  mark_error env = None ->
  let m' := fst (delete_image env p m) in
  snd (delete_image env p m) = delete_done p /\
  m_db m' = m_db m /\
  path_exists p (m_disk m') = false /\
  (forall q, q <> p -> path_exists q (m_disk m') = path_exists q (m_disk m)).
Proof.
  intros Hy Hrow Hrm Hmark. unfold delete_image, delete_done.
  rewrite Hy, Hmark.
  destruct (path_exists p (m_disk m)) eqn:Ex.
  - rewrite (Hrm eq_refl). simpl.
    destruct (load_existing_results_keeps (load_fault env)
                (with_disk_db m (os_remove p (m_disk m))
                   (mark_deleted p (m_db m)))) as (-> & -> & _).
    simpl. rewrite (mark_deleted_absent _ _ Hrow).
    repeat split.
    + rewrite path_exists_remove. now rewrite String.eqb_refl.
    + intros q Hq. rewrite path_exists_remove.
      apply not_eq_sym, String.eqb_neq in Hq. now rewrite Hq.
  - simpl.
    destruct (load_existing_results_keeps (load_fault env)
                (with_disk_db m (m_disk m) (mark_deleted p (m_db m))))
      as (-> & -> & _).
    simpl. rewrite (mark_deleted_absent _ _ Hrow). auto.
Qed.

(* ================================================================= *)
(** ** The processing loop *)

(** The loop runs the first [n] files, where [n] is the first iteration
    at which the flag is seen. *)
Lemma process_files_prefix (env : ScanEnv) (total : nat) (files : list string) :
  forall i st,
  exists n, n <= List.length files /\
    (forall j, j < n -> should_stop env (i + j) = false) /\
    ((n = List.length files /\
      process_files env total files i st =
        (process_all env total files st, false)) \/
     (n < List.length files /\ should_stop env (i + n) = true /\
      process_files env total files i st =
        (process_all env total (firstn n files) st, true))).
Proof.
  induction files as [|f rest IH]; intros i st.
  - exists 0. simpl. split; [lia|]. split; [intros; lia|]. left. auto.
  - simpl. destruct (should_stop env i) eqn:Hs.
    + exists 0. split; [lia|]. split; [intros; lia|]. right.
      rewrite Nat.add_0_r. simpl. split; [lia|]. auto.
    + destruct (process_file env total f st) as [st1 ev1] eqn:Ef.
      destruct (IH (S i) st1) as (n & Hn & Hbefore & Hcase).
      exists (S n). split; [lia|]. split.
      * intros [|j] Hj; [now rewrite Nat.add_0_r|].
        replace (i + S j) with (S i + j) by lia. apply Hbefore. lia.
      * replace (i + S n) with (S i + n) by lia.
        destruct Hcase as [(-> & E)|(Hlt & Hstop & E)]; [left|right]; rewrite E.
        -- split; [reflexivity|].
           now destruct (process_all env total rest st1).
        -- split; [lia|]. split; [exact Hstop|]. simpl. rewrite Ef.
           now destruct (process_all env total (firstn n rest) st1).
Qed.

Lemma process_files_stopped_at (env : ScanEnv) (total : nat)
    (files : list string) (n : nat) (st : Loop) :
  n < List.length files ->
  (forall j, j < n -> should_stop env j = false) ->
  should_stop env n = true ->
  process_files env total files 0 st =
    (process_all env total (firstn n files) st, true).
Proof.
  intros Hn Hbefore Hstop.
  destruct (process_files_prefix env total files 0 st)
    as (k & Hk & Hk_before & Hcase). simpl in *.
  assert (k = n) as ->.
  { destruct (Nat.lt_trichotomy k n) as [L|[E|G]]; [|exact E|].
    - destruct Hcase as [(-> & _)|(_ & Hs & _)]; [lia|].
      rewrite Hbefore in Hs by exact L. discriminate.
    - rewrite Hk_before in Hstop by exact G. discriminate. }
  destruct Hcase as [(-> & _)|(_ & _ & E)]; [lia | exact E].
Qed.

Lemma process_all_state (env : ScanEnv) (total : nat) (files : list string) :
  forall st,
  l_db (fst (process_all env total files st)) =
    save_all (records env files) (l_db st) /\
  l_hash_to_images (fst (process_all env total files st)) =
    append_all (records env files) (l_hash_to_images st).
Proof.
  induction files as [|f rest IH]; intros st; simpl; [auto|].
  destruct (process_file env total f st) as [st1 ev1] eqn:Ef.
  specialize (IH st1).
  destruct (process_all env total rest st1) as [st2 ev2]. simpl in *.
  unfold save_all, append_all, records in *. simpl.
  rewrite !fold_left_app.
  unfold process_file, recorded in *.
  destruct (get_image_hash (observe env f)) as [h|];
    [destruct (save_error env f)|];
    injection Ef as <- <-; simpl; exact IH.
Qed.

Lemma records_length (env : ScanEnv) (files : list string) :
  List.length (records env files) <= List.length files.
Proof.
  induction files as [|f rest IH]; simpl; [lia|].
  unfold records in *. simpl. rewrite length_app.
  destruct (recorded env f); simpl; lia.
Qed.

Lemma recorded_path (env : ScanEnv) (f : string) (d : ImageData) :
  recorded env f = Some d -> path d = f.
Proof.
  unfold recorded.
  destruct (get_image_hash _); [destruct (save_error _ _)|]; try discriminate.
  now intros [= <-].
Qed.

Lemma records_paths (env : ScanEnv) (files : list string) (d : ImageData) :
  In d (records env files) -> In (path d) files /\ recorded env (path d) = Some d.
Proof.
  unfold records. rewrite in_flat_map. intros (f & Hf & Hd).
  destruct (recorded env f) as [d'|] eqn:E; [|contradiction].
  destruct Hd as [<-|[]]. rewrite (recorded_path _ _ _ E). auto.
Qed.

Lemma records_NoDup (env : ScanEnv) (files : list string) :
  NoDup files -> NoDup (map path (records env files)).
Proof.
  induction 1 as [|f rest Hf Hnd IH]; simpl; [constructor|].
  unfold records in *. simpl. rewrite map_app.
  destruct (recorded env f) as [d|] eqn:E; simpl; [|exact IH].
  constructor; [|exact IH].
  rewrite (recorded_path _ _ _ E). intros Hin. apply Hf.
  apply in_map_iff in Hin as (d' & <- & Hd'). now apply records_paths in Hd'.
Qed.

(* ----------------------------------------------------------------- *)
(** *** The rows written by the loop *)

Lemma save_image_groups (d : ImageData) (db : DB) :
  duplicate_groups (save_image_to_db d db) = duplicate_groups db /\
  groups_seq (save_image_to_db d db) = groups_seq db.
Proof. auto. Qed.

Lemma save_all_groups (ds : list ImageData) :
  forall db,
  duplicate_groups (save_all ds db) = duplicate_groups db /\
  groups_seq (save_all ds db) = groups_seq db.
Proof.
  unfold save_all. induction ds as [|d ds IH]; intros db; simpl; [auto|].
  destruct (IH (save_image_to_db d db)) as [-> ->]. auto.
Qed.

Lemma save_all_length (ds : list ImageData) :
  forall db,
  List.length (images (save_all ds db)) <= List.length (images db) + List.length ds.
Proof.
  unfold save_all. induction ds as [|d ds IH]; intros db; simpl; [lia|].
  specialize (IH (save_image_to_db d db)). simpl in IH.
  rewrite length_app in IH. simpl in IH.
  pose proof (filter_length_le
                (fun r => negb (String.eqb (row_path r) (path d))) (images db)).
  lia.
Qed.

Lemma save_all_rows (ds : list ImageData) :
  forall db r,
  In r (images (save_all ds db)) ->
  In r (images db) \/ (fresh_row r /\ In (row_path r) (map path ds)).
Proof.
  unfold save_all. induction ds as [|d ds IH]; intros db r Hr; simpl in *; [auto|].
  apply IH in Hr. destruct Hr as [Hr|[Hf Hp]]; [|now auto].
  simpl in Hr. apply in_app_or in Hr. destruct Hr as [Hr|[<-|[]]].
  - apply filter_In in Hr. now left.
  - right. simpl. unfold fresh_row. simpl. auto.
Qed.

Lemma save_all_has_rows (ds : list ImageData) :
  forall db p,
  In p (map row_path (images db)) \/ In p (map path ds) ->
  In p (map row_path (images (save_all ds db))).
Proof.
  unfold save_all. induction ds as [|d ds IH]; intros db p H; simpl in *.
  - destruct H as [H|[]]. exact H.
  - apply IH. destruct (String.eqb_spec p (path d)) as [->|N].
    + left. simpl. rewrite map_app, in_app_iff. right. simpl. auto.
    + destruct H as [H|[H|H]]; [left|congruence|now right].
      simpl. rewrite map_app, in_app_iff. left.
      apply in_map_iff in H as (r & <- & Hr). apply in_map, filter_In.
      split; [exact Hr|]. apply negb_true_iff, String.eqb_neq. congruence.
Qed.

(* ----------------------------------------------------------------- *)
(** *** The events of the loop *)

(** The integer form of the percentage is the double precision one,
    for every scan of up to 200 files. *)
Lemma progress_is_progress_float (processed total : nat) :
  1 <= total <= 200 -> processed <= total ->
  progress processed total = progress_float processed total.
Proof.
  intros Ht Hp.
  assert (H : forallb (fun t =>
                forallb (fun p => Z.eqb (progress p t) (progress_float p t))
                        (seq 0 (S t)))
              (seq 1 200) = true) by (vm_compute; reflexivity).
  rewrite forallb_forall in H.
  specialize (H total). rewrite forallb_forall in H.
  apply Z.eqb_eq, H; apply in_seq; lia.
Qed.

Lemma progress_range (k total : nat) :
  k <= total -> 0 < total -> (0 <= progress k total <= 80)%Z.
Proof.
  intros Hk Ht. unfold progress. split.
  - apply Z.div_pos; lia.
  - apply Z.div_le_upper_bound; lia.
Qed.

(** One file gives one event: the next percentage, or the printed line
    of a save that raised. *)
Lemma process_file_event (env : ScanEnv) (total : nat) (f : string) (st : Loop) :
  let st' := fst (process_file env total f st) in
  let evs := snd (process_file env total f st) in
  (l_processed st' = S (l_processed st) /\
   evs = [progress_value (progress (S (l_processed st)) total)]) \/
  (st' = st /\ exists h e,
     get_image_hash (observe env f) = Some h /\ save_error env f = Some e /\
     evs = [printed ("Fout bij " ++ f ++ ": " ++ e)%string]).
Proof.
  unfold process_file.
  destruct (get_image_hash (observe env f)) as [h|];
    [destruct (save_error env f) as [e|] eqn:Es|]; simpl; auto.
  right. split; [reflexivity|]. exists h, e. auto.
Qed.

Lemma process_all_events (env : ScanEnv) (total : nat) (files : list string) :
  forall st,
  let st' := fst (process_all env total files st) in
  let evs := snd (process_all env total files st) in
  List.length evs = List.length files /\
  l_processed st <= l_processed st' <= l_processed st + List.length files /\
  progress_values evs =
    map (fun k => progress k total)
        (seq (S (l_processed st)) (l_processed st' - l_processed st)) /\
  Forall (fun e => (exists k, l_processed st < k <= l_processed st' /\
                              e = progress_value (progress k total)) \/
                   (exists line, e = printed line)) evs.
Proof.
  induction files as [|f rest IH]; intros st; simpl.
  - rewrite Nat.sub_diag. simpl. repeat split; auto; lia.
  - pose proof (process_file_event env total f st) as Hf.
    destruct (process_file env total f st) as [st1 ev1]. simpl in Hf.
    specialize (IH st1).
    destruct (process_all env total rest st1) as [st2 ev2]. simpl in *.
    destruct IH as (Hlen & Hproc & Hvals & Hall).
    unfold progress_values in *. rewrite flat_map_app, Hvals, length_app.
    destruct Hf as [(Hp & ->)|(-> & h & e & _ & _ & ->)]; simpl.
    + rewrite Hp in *. repeat split; try lia.
      * replace (l_processed st2 - l_processed st)
          with (S (l_processed st2 - S (l_processed st))) by lia.
        reflexivity.
      * constructor.
        -- left. exists (S (l_processed st)). split; [lia | reflexivity].
        -- eapply Forall_impl; [|exact Hall]. simpl.
           intros ev [(k & Hk & ->)|Hpr]; [left; exists k; split; [lia|auto] | now right].
    + repeat split; try lia; auto.
      constructor; [right; eauto | exact Hall].
Qed.



(* ================================================================= *)
(** ** The scan as a whole *)

Lemma update_members_no_error (env : ScanEnv) (imgs : list ImageData) (gid : Z) :
  (forall p, update_error env p = None) ->
  forall db, snd (update_members env imgs gid db) = None.
Proof.
  intros Hu. induction imgs as [|d imgs IH]; intros db; simpl; [reflexivity|].
  rewrite Hu. apply IH.
Qed.

Lemma group_buckets_no_error (env : ScanEnv)
    (buckets : list (string * list ImageData)) :
  (forall h, create_error env h = None) ->
  (forall p, update_error env p = None) ->
  forall db n, exists n', snd (group_buckets env buckets db n) = inr n'.
Proof.
  intros Hc Hu. induction buckets as [|[h imgs] rest IH]; intros db n; simpl.
  - now exists n.
  - destruct (1 <? List.length imgs)%nat; [|apply IH].
    rewrite Hc. simpl.
    pose proof (update_members_no_error env (sort_bucket imgs)
                  (groups_seq db + 1)%Z Hu) as Hn.
    match goal with |- context [update_members env ?l ?g ?d] =>
      specialize (Hn d); destruct (update_members env l g d) as [db2 o] end.
    simpl in Hn. subst o. apply IH.
Qed.

(** The grouping phase on a bucket of two or more records: the group
    row is inserted for the sorted bucket and the rows are updated in
    the sorted order. *)
Lemma group_buckets_sorts (env : ScanEnv) (h : string) (imgs : list ImageData)
    (rest : list (string * list ImageData)) (db : DB) (n : nat) :
  2 <= List.length imgs -> create_error env h = None ->
  group_buckets env ((h, imgs) :: rest) db n =
  match update_members env (sort_bucket imgs) (groups_seq db + 1)
          (fst (create_duplicate_group h (sort_bucket imgs) db)) with
  | (db2, Some e) => (db2, inl e)
  | (db2, None) => group_buckets env rest db2 (S n)
  end.
Proof.
  intros Hlen Hc. simpl.
  replace (1 <? List.length imgs)%nat with true
    by (symmetry; apply Nat.ltb_lt; lia).
  now rewrite Hc.
Qed.


(** **** C3 (as amended).  When the stop flag is seen at the top of
    iteration [n], that is after [n] of the files were processed, the
    scan returns at once: it emits no [finished_scan] signal at all,
    neither from the scan nor from [run]; the catalog is the one the
    first [n] files left, with at most [n] rows and no group. *)
Theorem cancellation (env : ScanEnv) (files : list string) (db0 : DB) (n : nat) :
  setup_error env = None ->
  n < List.length files ->
  (forall i, i < n -> should_stop env i = false) ->
  should_stop env n = true ->
  let written :=
    l_db (fst (process_all env (List.length files) (firstn n files) start_loop)) in
  exists evs,
    scan_with env files db0 = (written, evs, Cancelled) /\
    run_with env files db0 = (written, evs) /\
    (forall ok msg, ~ In (finished_scan ok msg) evs) /\
    List.length (images written) <= n /\
    duplicate_groups written = [].
Proof.
  intros Hs Hn Hbefore Hstop written.
  assert (E : exists evs, scan_with env files db0 = (written, evs, Cancelled) /\
                          forall ok msg, ~ In (finished_scan ok msg) evs).
  { unfold scan_with. rewrite Hs.
    destruct files as [|f files]; [simpl in Hn; lia|].
    rewrite (process_files_stopped_at _ _ _ n _ Hn Hbefore Hstop).
    subst written.
    pose proof (process_all_events env (List.length (f :: files))
                  (firstn n (f :: files)) start_loop) as (_ & _ & _ & Hall).
    destruct (process_all env (List.length (f :: files)) (firstn n (f :: files))
                start_loop) as [st evs]. simpl in *.
    eexists. split; [reflexivity|].
    intros ok msg Hin.
    destruct Hin as [Hin|[Hin|[Hin|Hin]]]; try discriminate.
    rewrite Forall_forall in Hall. apply Hall in Hin.
    destruct Hin as [(k & _ & Hk)|(line & Hl)]; discriminate. }
  destruct E as (evs & E & Hno). exists evs.
  split; [exact E|]. split; [unfold run_with; now rewrite E|].
  split; [exact Hno|]. subst written.
  destruct (process_all_state env (List.length files) (firstn n files) start_loop)
    as [-> _].
  split.
  - pose proof (save_all_length (records env (firstn n files)) (l_db start_loop)).
    pose proof (records_length env (firstn n files)).
    rewrite length_firstn in *. simpl in *. lia.
  - now rewrite (proj1 (save_all_groups _ _)).
Qed.


(* ================================================================= *)
(** ** The order in which the grouping phase works on a bucket *)

Lemma update_members_all (env : ScanEnv) (imgs : list ImageData) (gid : Z) :
  forall db,
  (forall d, In d imgs -> update_error env (path d) = None) ->
  update_members env imgs gid db = (updated gid imgs db, None).
Proof.
  induction imgs as [|d imgs IH]; intros db H; simpl; [reflexivity|].
  rewrite (H d) by now left. apply IH. intros d' Hd'. apply H. now right.
Qed.

Lemma update_members_until (env : ScanEnv) (imgs : list ImageData) (gid : Z) :
  forall db i d e,
  nth_error imgs i = Some d -> update_error env (path d) = Some e ->
  (forall d', In d' (firstn i imgs) -> update_error env (path d') = None) ->
  update_members env imgs gid db = (updated gid (firstn i imgs) db, Some e).
Proof.
  induction imgs as [|x imgs IH]; intros db i d e Hi He Hbefore;
    [now destruct i|].
  destruct i as [|i]; simpl in *.
  - injection Hi as ->. now rewrite He.
  - rewrite (Hbefore x) by now left.
    apply (IH _ i d e Hi He). intros d' Hd'. apply Hbefore. now right.
Qed.

(** **** C2.  For a bucket of two or more records the grouping phase
    works on the sorted bucket: the group row is inserted, then the
    rows of the members are updated one after the other in the sorted
    order, so that an update that raises leaves exactly the members
    sorted before it in the group.  The sorted bucket is in descending
    order of the key (width * height, date_taken), a missing date_taken
    counting as the empty string and strings being compared character
    by character; it holds the same records; records with the same key
    keep their order of arrival, and the sequence of keys is the same
    for every order in which the same records arrive, so grouping the
    same input again gives the same order. *)
Theorem grouping_sort_order (env : ScanEnv) (h : string)
    (bucket : list ImageData) (rest : list (string * list ImageData))
    (db : DB) (n : nat) :
  2 <= List.length bucket ->
  let sorted := sort_bucket bucket in
  let gid := (groups_seq db + 1)%Z in
  let db1 := fst (create_duplicate_group h sorted db) in
  StronglySorted before_desc sorted /\
  Permutation sorted bucket /\
  (forall k, filter (fun x => key_eqb (sort_key x) k) sorted
             = filter (fun x => key_eqb (sort_key x) k) bucket) /\
  (forall bucket', Permutation bucket bucket' ->
     map sort_key (sort_bucket bucket') = map sort_key sorted) /\
  (create_error env h = None ->
   (forall d, In d bucket -> update_error env (path d) = None) ->
   group_buckets env ((h, bucket) :: rest) db n
   = group_buckets env rest (updated gid sorted db1) (S n)) /\
  (forall i d e,
     create_error env h = None ->
     nth_error sorted i = Some d -> update_error env (path d) = Some e ->
     (forall d', In d' (firstn i sorted) -> update_error env (path d') = None) ->
     group_buckets env ((h, bucket) :: rest) db n
     = (updated gid (firstn i sorted) db1, inl e)).
Proof.
  intros Hlen sorted gid db1.
  destruct (sort_bucket_order bucket) as (H1 & H2 & H3 & H4).
  split; [exact H1|]. split; [exact H2|]. split; [exact H3|].
  split; [exact H4|]. split.
  - intros Hc Hu.
    rewrite (group_buckets_sorts env h bucket rest db n Hlen Hc).
    fold sorted gid db1.
    rewrite (update_members_all env sorted gid db1); [reflexivity|].
    intros d Hd. apply Hu. now apply (Permutation_in d H2).
  - intros i d e Hc Hi He Hbefore.
    rewrite (group_buckets_sorts env h bucket rest db n Hlen Hc).
    fold sorted gid db1.
    now rewrite (update_members_until env sorted gid db1 i d e Hi He Hbefore).
Qed.

(* ================================================================= *)
(** ** The buckets built by the loop *)

Lemma append_image_keys (h : string) (d : ImageData)
    (m : list (string * list ImageData)) (k : string) :
  In k (map fst (append_image h d m)) -> k = h \/ In k (map fst m).
Proof.
  induction m as [|[k0 l] m IH]; simpl.
  - intros [<-|[]]. now left.
  - destruct (String.eqb k0 h); simpl; intros [<-|H]; auto.
    apply IH in H. tauto.
Qed.

Lemma append_image_NoDup (h : string) (d : ImageData)
    (m : list (string * list ImageData)) :
  NoDup (map fst m) -> NoDup (map fst (append_image h d m)).
Proof.
  induction m as [|[k0 l] m IH]; simpl; intros Hnd.
  - constructor; [intros [] | constructor].
  - inversion Hnd as [|? ? Hk Hm]; subst.
    destruct (String.eqb_spec k0 h) as [E|N]; simpl.
    + now constructor.
    + constructor; [|now apply IH].
      intros Hin. apply append_image_keys in Hin as [Hin|Hin]; auto.
Qed.

Lemma append_image_bucket (h : string) (d : ImageData)
    (m : list (string * list ImageData)) (k : string) :
  bucket_of k (append_image h d m) =
  if String.eqb h k then bucket_of k m ++ [d] else bucket_of k m.
Proof.
  unfold bucket_of. induction m as [|[k0 l] m IH]; simpl.
  - now destruct (String.eqb h k).
  - destruct (String.eqb_spec k0 h) as [E|N]; simpl.
    + subst k0. now destruct (String.eqb h k).
    + destruct (String.eqb_spec k0 k) as [E'|N']; simpl.
      * subst k0. apply String.eqb_neq in N.
        rewrite String.eqb_sym in N. now rewrite N.
      * exact IH.
Qed.

Lemma append_all_NoDup (ds : list ImageData) :
  forall m, NoDup (map fst m) -> NoDup (map fst (append_all ds m)).
Proof.
  unfold append_all. induction ds as [|d ds IH]; intros m H; simpl; [exact H|].
  apply IH, append_image_NoDup, H.
Qed.

Lemma append_all_bucket (ds : list ImageData) (k : string) :
  forall m,
  bucket_of k (append_all ds m) =
  bucket_of k m ++ filter (fun d => String.eqb (hash d) k) ds.
Proof.
  unfold append_all. induction ds as [|d ds IH]; intros m; simpl.
  - now rewrite app_nil_r.
  - rewrite IH, append_image_bucket.
    destruct (String.eqb (hash d) k); [now rewrite <- app_assoc | reflexivity].
Qed.

Lemma bucket_of_In (h : string) (m : list (string * list ImageData)) :
  bucket_of h m <> [] -> In (h, bucket_of h m) m.
Proof.
  unfold bucket_of. destruct (find _ m) as [[k l]|] eqn:E; [|congruence].
  intros _. apply find_some in E as [Hin Hk]. simpl in *.
  apply String.eqb_eq in Hk. now subst.
Qed.

Lemma keys_unique {V : Type} (m : list (string * V)) (b b' : string * V) :
  NoDup (map fst m) -> In b m -> In b' m -> fst b = fst b' -> b = b'.
Proof.
  induction m as [|c m IH]; simpl; [tauto|].
  intros Hnd. inversion Hnd as [|? ? Hc Hm]; subst.
  intros [->|Hb] [->|Hb'] E; auto.
  - elim Hc. rewrite E. now apply in_map.
  - elim Hc. rewrite <- E. now apply in_map.
Qed.

Lemma bucket_of_unique (m : list (string * list ImageData))
    (b : string * list ImageData) :
  NoDup (map fst m) -> In b m -> bucket_of (fst b) m = snd b.
Proof.
  intros Hnd Hb. unfold bucket_of.
  destruct (find _ m) as [b'|] eqn:E.
  - apply find_some in E as [Hin Hk]. apply String.eqb_eq in Hk.
    now rewrite (keys_unique m b' b Hnd Hin Hb Hk).
  - apply (find_none _ _ E) in Hb. now rewrite String.eqb_refl in Hb.
Qed.

(** The buckets of a scan: one key per fingerprint, and under it the
    records with that fingerprint, in the order of their files. *)
Lemma scan_buckets (ds : list ImageData) (b : string * list ImageData) :
  In b (append_all ds []) ->
  snd b = filter (fun d => String.eqb (hash d) (fst b)) ds.
Proof.
  intros Hb.
  rewrite <- (bucket_of_unique _ b (append_all_NoDup ds [] (NoDup_nil _)) Hb).
  now rewrite append_all_bucket.
Qed.

Lemma NoDup_map_inj {A B : Type} (f : A -> B) (l : list A) (x y : A) :
  NoDup (map f l) -> In x l -> In y l -> f x = f y -> x = y.
Proof.
  induction l as [|a l IH]; simpl; [tauto|].
  intros Hnd. inversion Hnd as [|? ? Ha Hl]; subst.
  intros [->|Hx] [->|Hy] E; auto.
  - elim Ha. rewrite E. now apply in_map.
  - elim Ha. rewrite <- E. now apply in_map.
Qed.

(** Records with distinct paths: a path lies in one bucket only. *)
Lemma scan_buckets_disjoint (ds : list ImageData)
    (b1 b2 : string * list ImageData) (p : string) :
  NoDup (map path ds) ->
  In b1 (append_all ds []) -> In b2 (append_all ds []) ->
  In p (bucket_paths b1) -> In p (bucket_paths b2) -> b1 = b2.
Proof.
  intros Hnd H1 H2 P1 P2. unfold bucket_paths in *.
  rewrite (scan_buckets ds b1 H1) in P1. rewrite (scan_buckets ds b2 H2) in P2.
  apply in_map_iff in P1 as (d1 & E1 & D1). apply in_map_iff in P2 as (d2 & E2 & D2).
  apply filter_In in D1 as [D1 K1]. apply filter_In in D2 as [D2 K2].
  apply String.eqb_eq in K1, K2.
  assert (d1 = d2)
    by (apply (NoDup_map_inj path ds d1 d2 Hnd D1 D2); congruence).
  subst d2.
  apply (keys_unique (append_all ds []) b1 b2); auto.
  - apply append_all_NoDup. constructor.
  - congruence.
Qed.

(* ================================================================= *)
(** ** The grouping phase in closed form *)

Lemma has_path_In (ps : list string) (r : ImageRow) :
  has_path ps r = true <-> In (row_path r) ps.
Proof.
  unfold has_path. rewrite existsb_exists. split.
  - intros (p & Hp & E). apply String.eqb_eq in E. now subst.
  - intros H. exists (row_path r). split; [exact H | apply String.eqb_refl].
Qed.

Lemma has_path_ext (ps ps' : list string) (r : ImageRow) :
  (forall p, In p ps <-> In p ps') -> has_path ps r = has_path ps' r.
Proof.
  intros H. destruct (has_path ps r) eqn:E1, (has_path ps' r) eqn:E2; auto.
  - apply has_path_In, H, has_path_In in E1. congruence.
  - apply has_path_In, H, has_path_In in E2. congruence.
Qed.

Lemma update_members_closed (env : ScanEnv) (imgs : list ImageData) (gid : Z) :
  forall db db',
  update_members env imgs gid db = (db', None) ->
  images db' =
    map (fun r => if has_path (map path imgs) r then set_group gid false r else r)
        (images db) /\
  duplicate_groups db' = duplicate_groups db /\ groups_seq db' = groups_seq db.
Proof.
  induction imgs as [|d imgs IH]; intros db db' H; simpl in *.
  - injection H as <-. split; [|auto].
    rewrite <- (map_id (images db)) at 1. reflexivity.
  - destruct (update_error env (path d)); [discriminate|].
    apply IH in H as (Hi & Hg & Hs). simpl in *.
    split; [|auto]. rewrite Hi, map_map. apply map_ext. intros r.
    unfold has_path at 2. simpl. fold (has_path (map path imgs) r).
    destruct (String.eqb (row_path r) (path d)); simpl.
    + now destruct (has_path (map path imgs) _).
    + reflexivity.
Qed.

Lemma group_buckets_closed (env : ScanEnv) (bs : list (string * list ImageData)) :
  forall db n db' n',
  group_buckets env bs db n = (db', inr n') ->
  images db' = map (row_after bs (groups_seq db)) (images db) /\
  duplicate_groups db' = duplicate_groups db ++ groups_after bs (groups_seq db).
Proof.
  induction bs as [|[h imgs] rest IH]; intros db n db' n' H; simpl in *.
  - injection H as <- _. rewrite app_nil_r, map_id. auto.
  - unfold big. simpl.
    destruct (1 <? List.length imgs)%nat; [|now apply IH in H].
    destruct (create_error env h); [discriminate|]. simpl in H.
    destruct (update_members env (sort_bucket imgs) (groups_seq db + 1) _)
      as [db2 [e|]] eqn:Eu; [discriminate|].
    apply update_members_closed in Eu as (Hi & Hg & Hs). simpl in *.
    apply IH in H as (Hi' & Hg'). rewrite Hs in *.
    split.
    + rewrite Hi', Hi, map_map. apply map_ext. intros r. f_equal.
      unfold bucket_paths. simpl.
      rewrite (has_path_ext (map path (sort_bucket imgs)) (map path imgs)).
      * reflexivity.
      * intros p. split; apply Permutation_in, Permutation_map;
          [|apply Permutation_sym]; apply sort_desc_perm.
    + rewrite Hg', Hg, <- app_assoc. simpl. unfold new_group. simpl.
      unfold sort_bucket. now rewrite sort_desc_length.
Qed.

Lemma row_after_path (bs : list (string * list ImageData)) :
  forall s r, row_path (row_after bs s r) = row_path r.
Proof.
  induction bs as [|b rest IH]; intros s r; simpl; [reflexivity|].
  destruct (big b); rewrite IH; [|reflexivity].
  now destruct (has_path _ r).
Qed.

Lemma row_after_untouched (bs : list (string * list ImageData)) :
  forall s r,
  (forall b, In b bs -> big b = true -> ~ In (row_path r) (bucket_paths b)) ->
  row_after bs s r = r.
Proof.
  induction bs as [|b rest IH]; intros s r H; simpl; [reflexivity|].
  destruct (big b) eqn:Eb.
  - destruct (has_path (bucket_paths b) r) eqn:Ep.
    + apply has_path_In in Ep. elim (H b); simpl; auto.
    + apply IH. intros b' Hb'. apply H. now right.
  - apply IH. intros b' Hb'. apply H. now right.
Qed.

Lemma row_after_group (bs : list (string * list ImageData)) :
  forall s r,
  group_id (row_after bs s r) = group_id r \/
  exists x, group_id (row_after bs s r) = Some x /\ (s < x)%Z.
Proof.
  induction bs as [|b rest IH]; intros s r; simpl; [now left|].
  destruct (big b); [|apply IH].
  destruct (IH (s + 1)%Z
              (if has_path (bucket_paths b) r then set_group (s + 1) false r
               else r)) as [E|(x & E & Hx)].
  - rewrite E. destruct (has_path _ r); simpl; [|now left].
    right. exists (s + 1)%Z. split; [reflexivity | lia].
  - right. exists x. split; [exact E | lia].
Qed.

Lemma row_after_original (bs : list (string * list ImageData)) :
  forall s r, is_original r = false -> is_original (row_after bs s r) = false.
Proof.
  induction bs as [|b rest IH]; intros s r H; simpl; [exact H|].
  destruct (big b); apply IH; [|exact H]. now destruct (has_path _ r).
Qed.

Lemma groups_after_bound (bs : list (string * list ImageData)) :
  forall s g,
  In g (groups_after bs s) ->
  (s < g_id g)%Z /\
  exists b, In b bs /\ big b = true /\ g_hash g = fst b /\
            image_count g = Z.of_nat (List.length (snd b)).
Proof.
  induction bs as [|b rest IH]; intros s g H; simpl in *; [contradiction|].
  destruct (big b) eqn:Eb.
  - destruct H as [<-|H].
    + simpl. split; [lia|]. exists b. auto.
    + apply IH in H as (Hs & b' & Hb' & H). split; [lia|]. exists b'. auto.
  - apply IH in H as (Hs & b' & Hb' & H). split; [lia|]. exists b'. auto.
Qed.

Lemma groups_after_ids (bs : list (string * list ImageData)) :
  forall s, NoDup (map g_id (groups_after bs s)).
Proof.
  induction bs as [|b rest IH]; intros s; simpl; [constructor|].
  destruct (big b); [|apply IH]. simpl. constructor; [|apply IH].
  intros Hin. apply in_map_iff in Hin as (g & E & Hg).
  apply groups_after_bound in Hg as [Hs _]. lia.
Qed.

Section Grouped.
Variable bs : list (string * list ImageData).
Hypothesis keys : NoDup (map fst bs).
Hypothesis disjoint :
  forall b1 b2 p, In b1 bs -> In b2 bs ->
                  In p (bucket_paths b1) -> In p (bucket_paths b2) -> b1 = b2.

(** A bucket of one record: no group row, and its row is left alone. *)
Lemma grouping_single (s : Z) (b : string * list ImageData) :
  In b bs -> big b = false ->
  (forall g, In g (groups_after bs s) -> g_hash g <> fst b) /\
  (forall r, In (row_path r) (bucket_paths b) -> row_after bs s r = r).
Proof.
  intros Hb Hsmall. split.
  - intros g Hg E. apply groups_after_bound in Hg as (_ & b' & Hb' & Hbig & Eh & _).
    assert (b' = b) by (apply (keys_unique bs); congruence). congruence.
  - intros r Hr. apply row_after_untouched. intros b' Hb' Hbig Hr'.
    assert (b' = b) by (eapply disjoint; eauto). congruence.
Qed.
End Grouped.

(** A bucket of two or more records: one group row, which counts the
    bucket, and exactly the rows of the bucket carry its id. *)
Lemma grouping_member (bs : list (string * list ImageData)) :
  NoDup (map fst bs) ->
  (forall b1 b2 p, In b1 bs -> In b2 bs ->
                   In p (bucket_paths b1) -> In p (bucket_paths b2) -> b1 = b2) ->
  forall s b, In b bs -> big b = true ->
  exists gid,
    (s < gid)%Z /\
    In (new_group (gid - 1) b) (groups_after bs s) /\
    (forall g, In g (groups_after bs s) -> g_hash g = fst b ->
               g = new_group (gid - 1) b) /\
    (forall r, (forall x, group_id r = Some x -> (x <= s)%Z) ->
               (group_id (row_after bs s r) = Some gid <->
                In (row_path r) (bucket_paths b))).
Proof.
  induction bs as [|b0 rest IH]; intros keys disjoint s b Hb Hbig;
    [contradiction|].
  simpl in keys. inversion keys as [|? ? Hfresh Hrest]; subst.
  assert (disjoint' : forall b1 b2 p, In b1 rest -> In b2 rest ->
            In p (bucket_paths b1) -> In p (bucket_paths b2) -> b1 = b2).
  { intros b1 b2 p H1 H2. apply disjoint; now right. }
  assert (Hnot : forall b', In b' rest -> fst b' <> fst b0).
  { intros b' Hb' E. apply Hfresh. rewrite <- E. now apply in_map. }
  destruct Hb as [->|Hb].
  - (* the bucket is the first one *)
    exists (s + 1)%Z. simpl. rewrite Hbig.
    replace (s + 1 - 1)%Z with s by lia.
    split; [lia|]. split; [now left|]. split.
    + intros g [<-|Hg] E; [reflexivity|].
      apply groups_after_bound in Hg as (_ & b' & Hb' & _ & Eh & _).
      elim (Hnot b' Hb'). congruence.
    + intros r Hr. split.
      * intros H. destruct (has_path (bucket_paths b) r) eqn:Ep;
          [now apply has_path_In|].
        destruct (row_after_group rest (s + 1)%Z r) as [E|(x & E & Hx)];
          rewrite E in H.
        -- apply Hr in H. lia.
        -- injection H as ->. lia.
      * intros Hin. apply has_path_In in Hin. rewrite Hin.
        rewrite row_after_untouched; [reflexivity|].
        intros b' Hb' _ Hin'. simpl in Hin'.
        apply has_path_In in Hin.
        assert (b' = b) by (eapply disjoint; simpl; eauto).
        subst b'. now elim (Hnot b Hb').
  - (* the bucket comes later *)
    simpl. destruct (big b0) eqn:Eb0.
    + destruct (IH Hrest disjoint' (s + 1)%Z b Hb Hbig)
        as (gid & Hgid & Hin & Huniq & Hrows).
      exists gid. split; [lia|]. split; [now right|]. split.
      * intros g [<-|Hg] E; [|now apply Huniq].
        simpl in E. elim (Hnot b Hb). congruence.
      * intros r Hr.
        rewrite Hrows.
        -- now destruct (has_path (bucket_paths b0) r).
        -- intros x. destruct (has_path (bucket_paths b0) r); simpl.
           ++ intros [= <-]. lia.
           ++ intros H. apply Hr in H. lia.
    + destruct (IH Hrest disjoint' s b Hb Hbig)
        as (gid & Hgid & Hin & Huniq & Hrows).
      exists gid. auto.
Qed.

(* ================================================================= *)
(** ** Exact-match grouping *)

Lemma records_bucket_files (env : ScanEnv) (files : list string) (h : string) :
  map path (filter (fun d => String.eqb (hash d) h) (records env files)) =
  bucket_files env files h.
Proof.
  unfold records, bucket_files. induction files as [|f rest IH]; simpl; [reflexivity|].
  rewrite filter_app, map_app, IH.
  destruct (recorded env f) as [d|] eqn:E; simpl; [|reflexivity].
  destruct (String.eqb (hash d) h); simpl; [|reflexivity].
  now rewrite (recorded_path _ _ _ E).
Qed.

(** A scan that reached its end grouped the buckets of all its files,
    starting from the rows that the loop wrote into the new tables. *)
Lemma scan_completed (env : ScanEnv) (files : list string) (db0 db : DB)
    (evs : list Event) :
  scan_with env files db0 = (db, evs, Completed) ->
  exists n,
    group_buckets env (append_all (records env files) [])
                  (save_all (records env files) setup_database) 0
    = (db, inr n).
Proof.
  unfold scan_with. destruct (setup_error env); [discriminate|].
  destruct files as [|f files]; [discriminate|].
  set (fs := f :: files).
  destruct (process_files_prefix env (List.length fs) fs 0 start_loop)
    as (k & _ & _ & [(_ & ->)|(_ & _ & ->)]).
  - destruct (process_all_state env (List.length fs) fs start_loop) as [Hdb Hm].
    destruct (process_all env (List.length fs) fs start_loop) as [st ev].
    simpl in Hdb, Hm. rewrite Hdb, Hm. simpl.
    destruct (group_buckets env _ _ 0) as [db' [e|n]]; [discriminate|].
    exists n. destruct (n =? 0)%nat; congruence.
  - destruct (process_all env (List.length fs) (firstn k fs) start_loop).
    discriminate.
Qed.

(** **** C1.  In a scan that ran to its end, over files with distinct
    paths: every fingerprint that two or more files produced has
    exactly one group row, whose [image_count] is the size of the
    bucket; each file of the bucket has its row, and a row carries the
    id of the group if and only if its path is in the bucket.  A
    fingerprint that one file produced has no group row, and the row of
    that file has no group id.  Group ids are not reused. *)
Theorem exact_match_grouping (env : ScanEnv) (files : list string) (db0 db : DB)
    (evs : list Event) :
  NoDup files ->
  scan_with env files db0 = (db, evs, Completed) ->
  NoDup (map g_id (duplicate_groups db)) /\
  forall h,
    let members := bucket_files env files h in
    (forall f, In f members -> exists r, In r (images db) /\ row_path r = f) /\
    (2 <= List.length members ->
     exists g,
       In g (duplicate_groups db) /\ g_hash g = h /\
       image_count g = Z.of_nat (List.length members) /\
       (forall g', In g' (duplicate_groups db) -> g_hash g' = h -> g' = g) /\
       (forall r, In r (images db) ->
                  (group_id r = Some (g_id g) <-> In (row_path r) members))) /\
    (List.length members = 1 ->
     (forall g, In g (duplicate_groups db) -> g_hash g <> h) /\
     (forall r, In r (images db) -> In (row_path r) members ->
                group_id r = None)).
Proof.
  intros Hnd Hscan.
  apply scan_completed in Hscan as (n & Hg).
  apply group_buckets_closed in Hg as (Hrows & Hgroups).
  set (recs := records env files) in *.
  set (bs := append_all recs []) in *.
  set (db1 := save_all recs setup_database) in *.
  assert (Hs : groups_seq db1 = 0%Z) by apply (save_all_groups recs setup_database).
  assert (Hg1 : duplicate_groups db1 = [])
    by apply (save_all_groups recs setup_database).
  rewrite Hs in *. rewrite Hg1 in Hgroups. simpl in Hgroups.
  assert (keys : NoDup (map fst bs)) by (apply append_all_NoDup; constructor).
  assert (disjoint : forall b1 b2 p, In b1 bs -> In b2 bs ->
            In p (bucket_paths b1) -> In p (bucket_paths b2) -> b1 = b2).
  { intros b1 b2 p. apply scan_buckets_disjoint, records_NoDup, Hnd. }
  assert (fresh : forall r, In r (images db1) -> group_id r = None).
  { intros r Hr. apply save_all_rows in Hr as [[]|[(H & _) _]]. exact H. }
  split; [rewrite Hgroups; apply groups_after_ids|].
  intros h members.
  set (l := filter (fun d => String.eqb (hash d) h) recs).
  assert (Hl : map path l = members) by apply records_bucket_files.
  assert (Hlen : List.length l = List.length members)
    by (rewrite <- Hl; now rewrite length_map).
  assert (Hbucket : l <> [] -> In (h, l) bs).
  { intros Hne. replace l with (bucket_of h bs).
    - apply bucket_of_In. unfold bs. rewrite append_all_bucket. exact Hne.
    - unfold bs. now rewrite append_all_bucket. }
  split; [|split].
  - intros f Hf. rewrite <- Hl in Hf.
    assert (Hin : In f (map row_path (images db1))).
    { apply save_all_has_rows. right.
      apply in_map_iff in Hf as (d & <- & Hd). apply filter_In in Hd as [Hd _].
      now apply in_map. }
    apply in_map_iff in Hin as (r1 & <- & Hr1).
    exists (row_after bs 0 r1). split; [|apply row_after_path].
    rewrite Hrows. now apply in_map.
  - intros H2.
    assert (Hin : In (h, l) bs)
      by (apply Hbucket; intros E; rewrite E in Hlen; simpl in Hlen; lia).
    assert (Hbig : big (h, l) = true)
      by (unfold big; simpl; apply Nat.ltb_lt; lia).
    destruct (grouping_member bs keys disjoint 0%Z (h, l) Hin Hbig)
      as (gid & _ & Hg & Huniq & Hmem).
    exists (new_group (gid - 1) (h, l)). rewrite Hgroups.
    split; [exact Hg|]. split; [reflexivity|].
    split; [simpl; now rewrite Hlen|]. split; [exact Huniq|].
    intros r Hr. rewrite Hrows in Hr.
    apply in_map_iff in Hr as (r1 & <- & Hr1).
    simpl. replace (gid - 1 + 1)%Z with gid by lia.
    rewrite row_after_path, Hmem.
    + unfold bucket_paths. simpl. now rewrite Hl.
    + intros x Hx. rewrite (fresh r1 Hr1) in Hx. discriminate.
  - intros H1.
    assert (Hin : In (h, l) bs)
      by (apply Hbucket; intros E; rewrite E in Hlen; simpl in Hlen; lia).
    assert (Hsmall : big (h, l) = false)
      by (unfold big; simpl; apply Nat.ltb_ge; lia).
    destruct (grouping_single bs keys disjoint 0%Z (h, l) Hin Hsmall)
      as (Hnone & Hsame).
    rewrite Hgroups. split; [exact Hnone|].
    intros r Hr Hp. rewrite Hrows in Hr.
    apply in_map_iff in Hr as (r1 & <- & Hr1).
    rewrite row_after_path in Hp. rewrite Hsame.
    + now apply fresh.
    + unfold bucket_paths. simpl. now rewrite Hl.
Qed.

(* ================================================================= *)
(** ** No row is ever flagged as original *)






(* ================================================================= *)
(** ** The signals of a scan *)

(** The three ways a scan that found files can end. *)
Lemma scan_with_cases (env : ScanEnv) (files : list string) (db0 : DB) :
  setup_error env = None -> files <> [] ->
  let total := List.length files in
  let r := process_files env total files 0 start_loop in
  let st := fst (fst r) in
  let per_file := snd (fst r) in
  (snd r = true /\
   scan_with env files db0 = (l_db st, preamble total ++ per_file, Cancelled)) \/
  (snd r = false /\ exists db e,
     group_buckets env (l_hash_to_images st) (l_db st) 0 = (db, inl e) /\
     scan_with env files db0 =
       (db, preamble total ++ per_file ++ [progress_text "Duplicaten zoeken..."],
        Raised e)) \/
  (snd r = false /\ exists db n,
     group_buckets env (l_hash_to_images st) (l_db st) 0 = (db, inr n) /\
     scan_with env files db0 =
       (db,
        preamble total ++ per_file
        ++ [progress_text "Duplicaten zoeken..."; progress_value 100;
            finished_scan true (summary n (l_hash_to_images st))],
        Completed)).
Proof.
  intros Hs Hne total r st per_file. subst r st per_file total.
  unfold scan_with. rewrite Hs.
  destruct files as [|f files]; [congruence|].
  set (fs := f :: files).
  destruct (process_files env (List.length fs) fs 0 start_loop)
    as [[st evs] stopped].
  destruct stopped; simpl.
  - left. auto.
  - right. destruct (group_buckets env (l_hash_to_images st) (l_db st) 0)
      as [db [e|n]] eqn:Eg.
    + left. split; [reflexivity|]. exists db, e. auto.
    + right. split; [reflexivity|]. exists db, n. split; [reflexivity|].
      unfold summary. destruct (n =? 0)%nat; simpl;
        rewrite <- ?app_assoc; simpl; reflexivity.
Qed.

Lemma process_files_events (env : ScanEnv) (total : nat) (files : list string)
    (i : nat) (st : Loop) :
  exists k,
    k <= List.length files /\
    (snd (process_files env total files i st) = false -> k = List.length files) /\
    fst (process_files env total files i st)
    = process_all env total (firstn k files) st.
Proof.
  destruct (process_files_prefix env total files i st)
    as (k & Hk & _ & [(-> & ->)|(Hlt & _ & ->)]); simpl.
  - exists (List.length files). rewrite firstn_all. auto.
  - exists k. split; [lia|]. split; [discriminate | reflexivity].
Qed.

Lemma process_all_no_finished (env : ScanEnv) (total : nat)
    (files : list string) (st : Loop) (ok : bool) (msg : string) :
  ~ In (finished_scan ok msg) (snd (process_all env total files st)).
Proof.
  intros Hin.
  pose proof (process_all_events env total files st) as (_ & _ & _ & Hall).
  rewrite Forall_forall in Hall. apply Hall in Hin.
  destruct Hin as [(k & _ & Hk)|(line & Hl)]; discriminate.
Qed.

Lemma process_files_no_finished (env : ScanEnv) (total : nat)
    (files : list string) (i : nat) (st : Loop) (ok : bool) (msg : string) :
  ~ In (finished_scan ok msg) (snd (fst (process_files env total files i st))).
Proof.
  destruct (process_files_events env total files i st) as (k & _ & _ & ->).
  apply process_all_no_finished.
Qed.

Lemma no_finished_in_body (env : ScanEnv) (total : nat) (files : list string)
    (tail : list Event) (ok : bool) (msg : string) :
  ~ In (finished_scan ok msg) tail ->
  ~ In (finished_scan ok msg)
       (preamble total
        ++ snd (fst (process_files env total files 0 start_loop)) ++ tail).
Proof.
  intros Ht Hin. apply in_app_or in Hin as [Hin|Hin].
  - destruct Hin as [H|[H|[H|[]]]]; discriminate.
  - apply in_app_or in Hin as [Hin|Hin]; [|now apply Ht].
    now apply process_files_no_finished in Hin.
Qed.

(** **** X1.  [run] tells the window how the scan ended exactly once,
    with its last signal, and the flag of that signal is true exactly
    for a scan that ran to its end; only a scan stopped by the user
    ends without any [finished_scan] signal. *)
Theorem run_reports_once (env : ScanEnv) (files : list string) (db0 : DB) :
  let evs := snd (run_with env files db0) in
  let ex := snd (scan_with env files db0) in
  (ex = Cancelled -> forall ok msg, ~ In (finished_scan ok msg) evs) /\
  (ex <> Cancelled ->
   exists before ok msg,
     evs = before ++ [finished_scan ok msg] /\
     (forall ok' msg', ~ In (finished_scan ok' msg') before) /\
     (ok = true <-> ex = Completed)).
Proof.
  intros evs ex. subst evs ex. unfold run_with.
  destruct (setup_error env) as [e|] eqn:Hs.
  { unfold scan_with. rewrite Hs. simpl. split; [discriminate|]. intros _.
    exists [progress_text "Database voorbereiden..."], false; eexists.
    split; [reflexivity|]. split.
    - intros ok' msg' [H|[]]. discriminate.
    - split; discriminate. }
  destruct files as [|f files].
  { unfold scan_with. rewrite Hs. simpl. split; [discriminate|]. intros _.
    exists [progress_text "Database voorbereiden...";
            progress_text "Bestanden zoeken..."], false; eexists.
    split; [reflexivity|]. split.
    - intros ok' msg' [H|[H|[]]]; discriminate.
    - split; discriminate. }
  set (fs := f :: files).
  assert (Hne : fs <> []) by discriminate.
  destruct (scan_with_cases env fs db0 Hs Hne)
    as [(_ & ->)|[(_ & db & e & _ & ->)|(_ & db & n & _ & ->)]];
    cbv beta iota; cbn [fst snd].
  - split; [|congruence]. intros _ ok msg.
    rewrite <- (app_nil_r (snd (fst _))). apply no_finished_in_body. intros [].
  - split; [discriminate|]. intros _.
    exists (preamble (List.length fs)
            ++ snd (fst (process_files env (List.length fs) fs 0 start_loop))
            ++ [progress_text "Duplicaten zoeken..."]), false; eexists.
    split; [now rewrite <- !app_assoc|]. split.
    + intros ok' msg'. apply no_finished_in_body.
      intros [H|[]]. discriminate.
    + split; discriminate.
  - split; [discriminate|]. intros _.
    exists (preamble (List.length fs)
            ++ snd (fst (process_files env (List.length fs) fs 0 start_loop))
            ++ [progress_text "Duplicaten zoeken..."; progress_value 100]),
           true, (summary n (l_hash_to_images
                    (fst (fst (process_files env (List.length fs) fs 0
                                 start_loop))))).
    split; [now rewrite <- !app_assoc|]. split.
    + intros ok' msg'. apply no_finished_in_body.
      intros [H|[H|[]]]; discriminate.
    + split; reflexivity.
Qed.

(* ================================================================= *)
(** ** The progress bar *)

Lemma progress_mono (k k' total : nat) :
  k <= k' -> 0 < total -> (progress k total <= progress k' total)%Z.
Proof. intros Hk Ht. unfold progress. apply Z.div_le_mono; lia. Qed.


Lemma progress_seq_sorted (total : nat) :
  0 < total ->
  forall m a, StronglySorted Z.le (map (fun k => progress k total) (seq a m)).
Proof.
  intros Ht. induction m as [|m IH]; intros a; simpl; constructor; [apply IH|].
  rewrite Forall_forall. intros v Hv.
  apply in_map_iff in Hv as (k & <- & Hk). apply in_seq in Hk.
  apply progress_mono; lia.
Qed.

Lemma StronglySorted_snoc (l : list Z) (top : Z) :
  StronglySorted Z.le l -> Forall (fun v => (v <= top)%Z) l ->
  StronglySorted Z.le (l ++ [top]).
Proof.
  induction 1 as [|a l Hs IH Ha]; intros Hall; simpl.
  - repeat constructor.
  - inversion Hall as [|? ? Hat Hl]; subst.
    constructor; [now apply IH|].
    apply Forall_app. split; [exact Ha | now constructor].
Qed.

(** The percentages of the loop are those of the counts 1 to
    [processed], the count the loop ended with. *)
Lemma loop_percentages (env : ScanEnv) (files : list string) :
  let total := List.length files in
  let r := process_files env total files 0 start_loop in
  l_processed (fst (fst r)) <= total /\
  progress_values (snd (fst r)) =
    map (fun k => progress k total) (seq 1 (l_processed (fst (fst r)))).
Proof.
  intros total r. subst r.
  destruct (process_files_events env total files 0 start_loop)
    as (k & Hk & _ & ->).
  pose proof (process_all_events env total (firstn k files) start_loop)
    as (_ & Hproc & Hvals & _).
  rewrite Nat.sub_0_r in Hvals. rewrite length_firstn in Hproc.
  simpl in Hproc. split; [lia | exact Hvals].
Qed.

(** **** X2.  The percentages a scan sends to the progress bar never
    decrease and stay between 0 and 100, and a scan that runs to its
    end sends 100 as the last one. *)
Theorem progress_never_decreases (env : ScanEnv) (files : list string) (db0 : DB) :
  let values := progress_values (snd (fst (scan_with env files db0))) in
  StronglySorted Z.le values /\
  Forall (fun v => (0 <= v <= 100)%Z) values /\
  (snd (scan_with env files db0) = Completed ->
   exists earlier, values = earlier ++ [100%Z]).
Proof.
  intros values. subst values.
  destruct (setup_error env) as [e|] eqn:Hs.
  { unfold scan_with. rewrite Hs. simpl.
    split; [constructor|]. split; [constructor | discriminate]. }
  destruct files as [|f files].
  { unfold scan_with. rewrite Hs. simpl.
    split; [constructor|]. split; [constructor | discriminate]. }
  set (fs := f :: files).
  assert (Hne : fs <> []) by discriminate.
  assert (Ht : 0 < List.length fs) by (simpl; lia).
  destruct (loop_percentages env fs) as (Hm & Hvals).
  set (per_file := snd (fst (process_files env (List.length fs) fs 0 start_loop)))
    in *.
  set (m := l_processed
              (fst (fst (process_files env (List.length fs) fs 0 start_loop))))
    in *.
  assert (Hsorted : StronglySorted Z.le (progress_values per_file))
    by (rewrite Hvals; now apply progress_seq_sorted).
  assert (Hrange : Forall (fun v => (0 <= v <= 80)%Z) (progress_values per_file)).
  { rewrite Hvals, Forall_forall. intros v Hv.
    apply in_map_iff in Hv as (k & <- & Hk). apply in_seq in Hk.
    apply progress_range; lia. }
  assert (Hpre : forall tail,
            progress_values (preamble (List.length fs) ++ per_file ++ tail)
            = progress_values per_file ++ progress_values tail).
  { intros tail. unfold progress_values. now rewrite !flat_map_app. }
  destruct (scan_with_cases env fs db0 Hs Hne)
    as [(_ & ->)|[(_ & db & e & _ & ->)|(_ & db & n & _ & ->)]];
    cbn [fst snd]; fold per_file.
  - rewrite <- (app_nil_r per_file), Hpre. simpl. rewrite app_nil_r.
    split; [exact Hsorted|]. split; [|discriminate].
    eapply Forall_impl; [|exact Hrange]. simpl. lia.
  - rewrite Hpre. simpl. rewrite app_nil_r.
    split; [exact Hsorted|]. split; [|discriminate].
    eapply Forall_impl; [|exact Hrange]. simpl. lia.
  - rewrite Hpre. simpl. split; [|split].
    + apply StronglySorted_snoc; [exact Hsorted|].
      eapply Forall_impl; [|exact Hrange]. simpl. lia.
    + apply Forall_app. split.
      * eapply Forall_impl; [|exact Hrange]. simpl. lia.
      * constructor; [lia | constructor].
    + intros _. now exists (progress_values per_file).
Qed.



(* ================================================================= *)
(** ** What holds of the catalog however the scan ends *)

Lemma save_all_recorded (env : ScanEnv) (ds : list ImageData) :
  (forall d, In d ds -> recorded env (path d) = Some d) ->
  forall db, rows_recorded env db -> rows_recorded env (save_all ds db).
Proof.
  unfold save_all. induction ds as [|d ds IH]; intros Hds db H; simpl; [exact H|].
  apply IH; [intros d' Hd'; apply Hds; now right|].
  intros r Hr. simpl in Hr. apply in_app_or in Hr as [Hr|[<-|[]]].
  - apply filter_In in Hr as [Hr _]. now apply H.
  - simpl. exists d. split; [apply Hds; now left | reflexivity].
Qed.

Lemma save_all_fresh (ds : list ImageData) :
  forall db, (forall r, In r (images db) -> group_id r = None) ->
  forall r, In r (images (save_all ds db)) -> group_id r = None.
Proof.
  intros db H r Hr. apply save_all_rows in Hr as [Hr|[(Hf & _) _]]; auto.
Qed.

Lemma scan_buckets_recorded (env : ScanEnv) (files : list string) :
  buckets_recorded env (append_all (records env files) []).
Proof.
  intros b Hb d Hd. rewrite (scan_buckets _ b Hb) in Hd.
  apply filter_In in Hd as [Hd Hk]. apply String.eqb_eq in Hk.
  split; [exact Hk | now apply records_paths in Hd].
Qed.

(** What a run of updates does to a row, whether or not it raises. *)
Lemma update_members_any (env : ScanEnv) (imgs : list ImageData) (gid : Z) :
  forall db,
  let db' := fst (update_members env imgs gid db) in
  duplicate_groups db' = duplicate_groups db /\
  groups_seq db' = groups_seq db /\
  map row_core (images db') = map row_core (images db) /\
  (forall r', In r' (images db') ->
     exists r, In r (images db) /\ row_core r' = row_core r /\
       (group_id r' = group_id r \/
        (group_id r' = Some gid /\ In (row_path r) (map path imgs)))).
Proof.
  induction imgs as [|d imgs IH]; intros db; simpl.
  - repeat split; auto. intros r Hr. exists r. auto.
  - destruct (update_error env (path d)).
    + simpl. repeat split; auto. intros r Hr. exists r. auto.
    + specialize (IH (update_image_group (path d) gid false db)).
      simpl in IH. destruct IH as (Hg & Hs & Hc & Hrows).
      split; [exact Hg|]. split; [exact Hs|]. split.
      * rewrite Hc, map_map. apply map_ext. intros r.
        now destruct (String.eqb (row_path r) (path d)).
      * intros r' Hr'. apply Hrows in Hr' as (r1 & Hr1 & Hcore & Hgrp).
        apply in_map_iff in Hr1 as (r & <- & Hr).
        exists r. split; [exact Hr|].
        destruct (String.eqb_spec (row_path r) (path d)) as [E|N].
        -- split; [rewrite Hcore; reflexivity|]. right. simpl in Hgrp.
           destruct Hgrp as [Hgrp|[Hgrp _]]; (split; [exact Hgrp | now left]).
        -- split; [exact Hcore|].
           destruct Hgrp as [Hgrp|[Hgrp Hin]]; [now left | right; auto].
Qed.

Lemma group_buckets_core (env : ScanEnv) (bs : list (string * list ImageData)) :
  forall db n,
  map row_core (images (fst (group_buckets env bs db n)))
  = map row_core (images db).
Proof.
  induction bs as [|[h imgs] rest IH]; intros db n; simpl; [reflexivity|].
  destruct (1 <? List.length imgs)%nat; [|apply IH].
  destruct (create_error env h); [reflexivity|]. simpl.
  pose proof (update_members_any env (sort_bucket imgs) (groups_seq db + 1)%Z
                (fst (create_duplicate_group h (sort_bucket imgs) db)))
    as (_ & _ & Hc & _). simpl in Hc.
  destruct (update_members env (sort_bucket imgs) (groups_seq db + 1) _)
    as [db2 [e|]]; simpl in *; [exact Hc | now rewrite IH].
Qed.

Lemma group_buckets_linked (env : ScanEnv) (bs : list (string * list ImageData)) :
  forall db n,
  buckets_recorded env bs -> rows_recorded env db -> linked db ->
  linked (fst (group_buckets env bs db n)).
Proof.
  induction bs as [|[h imgs] rest IH]; intros db n Hb Hr Hl; simpl; [exact Hl|].
  assert (Hb' : buckets_recorded env rest)
    by (intros b Hin; apply Hb; now right).
  destruct (1 <? List.length imgs)%nat; [|now apply IH].
  destruct (create_error env h); [exact Hl|]. simpl.
  match goal with
  | |- context [update_members env _ _ ?d] => set (db1 := d)
  end.
  pose proof (update_members_any env (sort_bucket imgs) (groups_seq db + 1)%Z db1)
    as (Hg & _ & _ & Hrows).
  assert (Hl2 : linked (fst (update_members env (sort_bucket imgs)
                               (groups_seq db + 1) db1))).
  { intros r' Hr' x Hx. rewrite Hg.
    apply Hrows in Hr' as (r & Hin & Hcore & Hgrp).
    assert (Hh : row_hash r' = row_hash r /\ row_path r' = row_path r)
      by (unfold row_core in Hcore; injection Hcore; auto).
    destruct Hh as (Hh & Hp). rewrite Hh.
    destruct Hgrp as [Hgrp|[Hgrp Hmem]].
    - rewrite Hgrp in Hx. destruct (Hl r Hin x Hx) as (g & Hgin & Hgid & Hgh).
      exists g. split; [|auto]. simpl. apply in_or_app. now left.
    - rewrite Hgrp in Hx. injection Hx as <-.
      eexists. split; [simpl; apply in_or_app; right; now left|].
      split; [reflexivity|]. simpl.
      apply in_map_iff in Hmem as (d & Hd & Hdin).
      apply sort_desc_In in Hdin.
      destruct (Hb (h, imgs) (or_introl eq_refl) d Hdin) as (Hdh & Hrec).
      destruct (Hr r Hin) as (d' & Hrec' & Hrh).
      simpl in Hdh. rewrite <- Hd, Hrec in Hrec'. injection Hrec' as <-.
      congruence. }
  assert (Hr2 : rows_recorded env (fst (update_members env (sort_bucket imgs)
                                          (groups_seq db + 1) db1))).
  { intros r' Hr'. apply Hrows in Hr' as (r & Hin & Hcore & _).
    assert (Hh : row_hash r' = row_hash r /\ row_path r' = row_path r)
      by (unfold row_core in Hcore; injection Hcore; auto).
    destruct Hh as (-> & ->). now apply Hr. }
  destruct (update_members env (sort_bucket imgs) (groups_seq db + 1) db1)
    as [db2 [e|]]; simpl in *; [exact Hl2 | now apply IH].
Qed.

Lemma group_buckets_groups (env : ScanEnv) (bs : list (string * list ImageData)) :
  forall db n,
  groups_numbered db ->
  groups_numbered (fst (group_buckets env bs db n)) /\
  (groups_seq db <= groups_seq (fst (group_buckets env bs db n)))%Z /\
  forall g, In g (duplicate_groups (fst (group_buckets env bs db n))) ->
    In g (duplicate_groups db) \/
    exists b, In b bs /\ big b = true /\ g_hash g = fst b /\
              image_count g = Z.of_nat (List.length (snd b)).
Proof.
  induction bs as [|[h imgs] rest IH]; intros db n Hn; simpl.
  - split; [exact Hn|]. split; [lia | auto].
  - destruct (1 <? List.length imgs)%nat eqn:Ebig.
    2:{ destruct (IH db n Hn) as (H1 & H2 & H3). split; [exact H1|].
        split; [exact H2|]. intros g Hg. apply H3 in Hg as [Hg|(b & Hb & H)];
          [now left | right; exists b; split; [now right | exact H]]. }
    destruct (create_error env h).
    { simpl. split; [exact Hn|]. split; [lia | auto]. }
    simpl.
    match goal with
    | |- context [update_members env _ _ ?d] => set (db1 := d)
    end.
    assert (Hn1 : groups_numbered db1).
    { destruct Hn as (Hnd & Hle). split; simpl.
      - rewrite map_app. simpl. apply NoDup_app.
        + exact Hnd.
        + constructor; [intros [] | constructor].
        + intros x Hx [<-|[]]. apply in_map_iff in Hx as (g & E & Hg).
          apply Hle in Hg. lia.
      - intros g Hg. apply in_app_or in Hg as [Hg|[<-|[]]].
        + apply Hle in Hg. lia.
        + simpl. lia. }
    pose proof (update_members_any env (sort_bucket imgs) (groups_seq db + 1)%Z
                  db1) as (Hg & Hs & _ & _).
    assert (Hn2 : groups_numbered (fst (update_members env (sort_bucket imgs)
                                          (groups_seq db + 1) db1)))
      by (unfold groups_numbered; now rewrite Hg, Hs).
    assert (Horigin : forall g,
              In g (duplicate_groups db1) ->
              In g (duplicate_groups db) \/
              exists b, In b ((h, imgs) :: rest) /\ big b = true /\
                        g_hash g = fst b /\
                        image_count g = Z.of_nat (List.length (snd b))).
    { intros g Hin. simpl in Hin. apply in_app_or in Hin as [Hin|[<-|[]]];
        [now left|]. right. exists (h, imgs). split; [now left|].
      split; [exact Ebig|]. simpl. split; [reflexivity|].
      unfold sort_bucket. now rewrite sort_desc_length. }
    destruct (update_members env (sort_bucket imgs) (groups_seq db + 1) db1)
      as [db2 [e|]]; simpl in *.
    + split; [exact Hn2|]. split; [lia|]. intros g Hin. rewrite Hg in Hin.
      now apply Horigin.
    + destruct (IH db2 (S n) Hn2) as (H1 & H2 & H3).
      split; [exact H1|]. split; [lia|]. intros g Hin.
      apply H3 in Hin as [Hin|(b & Hb & H)].
      * rewrite Hg in Hin. now apply Horigin.
      * right. exists b. split; [now right | exact H].
Qed.

(** The state in which the loop ends: the records of the files it
    handled, saved into the new tables and put into their buckets. *)
Lemma loop_state (env : ScanEnv) (total : nat) (files : list string) :
  exists k,
    k <= List.length files /\
    (snd (process_files env total files 0 start_loop) = false ->
     k = List.length files) /\
    l_db (fst (fst (process_files env total files 0 start_loop)))
    = save_all (records env (firstn k files)) setup_database /\
    l_hash_to_images (fst (fst (process_files env total files 0 start_loop)))
    = append_all (records env (firstn k files)) [].
Proof.
  destruct (process_files_events env total files 0 start_loop)
    as (k & Hk & Hfull & E).
  exists k. split; [exact Hk|]. split; [exact Hfull|]. rewrite E.
  apply process_all_state.
Qed.

Lemma loop_rows_recorded (env : ScanEnv) (fs : list string) :
  rows_recorded env (save_all (records env fs) setup_database).
Proof.
  apply save_all_recorded.
  - intros d Hd. now apply records_paths in Hd.
  - intros r [].
Qed.

Lemma loop_linked (env : ScanEnv) (fs : list string) :
  linked (save_all (records env fs) setup_database).
Proof.
  intros r Hr x Hx.
  assert (Hnone : group_id r = None).
  { apply (save_all_fresh (records env fs) setup_database); [|exact Hr].
    intros r' []. }
  congruence.
Qed.

(** **** X4.  However a scan that got past the schema reset ends (to
    its end, stopped, or by a store failure in the middle of the
    grouping), every row that carries a group id points to a group row
    that exists, and that group row has the fingerprint of the row. *)
Theorem group_ids_resolve (env : ScanEnv) (files : list string) (db0 : DB) :
  setup_error env = None ->
  let db := fst (fst (scan_with env files db0)) in
  forall r, In r (images db) ->
  forall x, group_id r = Some x ->
  exists g, In g (duplicate_groups db) /\ g_id g = x /\ g_hash g = row_hash r.
Proof.
  intros Hs db. subst db.
  destruct files as [|f files].
  { unfold scan_with. rewrite Hs. simpl. intros r []. }
  set (fs := f :: files).
  assert (Hne : fs <> []) by discriminate.
  destruct (loop_state env (List.length fs) fs) as (k & _ & Hfull & Hdb & Hm).
  destruct (scan_with_cases env fs db0 Hs Hne)
    as [(_ & ->)|[(Hst & db & e & Hg & ->)|(Hst & db & n & Hg & ->)]];
    cbn [fst snd].
  - rewrite Hdb. apply loop_linked.
  - replace db with (fst (group_buckets env
        (l_hash_to_images (fst (fst (process_files env (List.length fs) fs 0
                                       start_loop))))
        (l_db (fst (fst (process_files env (List.length fs) fs 0 start_loop))))
        0)) by now rewrite Hg.
    rewrite Hdb, Hm. apply group_buckets_linked;
      [apply scan_buckets_recorded | apply loop_rows_recorded | apply loop_linked].
  - replace db with (fst (group_buckets env
        (l_hash_to_images (fst (fst (process_files env (List.length fs) fs 0
                                       start_loop))))
        (l_db (fst (fst (process_files env (List.length fs) fs 0 start_loop))))
        0)) by now rewrite Hg.
    rewrite Hdb, Hm. apply group_buckets_linked;
      [apply scan_buckets_recorded | apply loop_rows_recorded | apply loop_linked].
Qed.

Lemma loop_groups_numbered (fs : list ImageData) :
  groups_numbered (save_all fs setup_database).
Proof.
  unfold groups_numbered.
  destruct (save_all_groups fs setup_database) as [-> ->]. simpl.
  split; [constructor | intros g []].
Qed.

(** **** X5.  However a scan that got past the schema reset ends, a
    group row exists only for a fingerprint that two or more files of
    the scan produced: its [image_count] is the number of those files
    and is at least 2; and no two group rows share an id. *)
Theorem groups_only_for_duplicates (env : ScanEnv) (files : list string)
    (db0 : DB) :
  setup_error env = None ->
  let db := fst (fst (scan_with env files db0)) in
  NoDup (map g_id (duplicate_groups db)) /\
  forall g, In g (duplicate_groups db) ->
    (2 <= image_count g)%Z /\
    image_count g
    = Z.of_nat (List.length (bucket_files env files (g_hash g))).
Proof.
  intros Hs db. subst db.
  destruct files as [|f files].
  { unfold scan_with. rewrite Hs. simpl. split; [constructor | intros g []]. }
  set (fs := f :: files).
  assert (Hne : fs <> []) by discriminate.
  destruct (loop_state env (List.length fs) fs) as (k & _ & Hfull & Hdb & Hm).
  assert (Hgroup : forall db r,
            group_buckets env
              (l_hash_to_images
                 (fst (fst (process_files env (List.length fs) fs 0 start_loop))))
              (l_db (fst (fst (process_files env (List.length fs) fs 0
                                 start_loop)))) 0 = (db, r) ->
            snd (process_files env (List.length fs) fs 0 start_loop) = false ->
            NoDup (map g_id (duplicate_groups db)) /\
            forall g, In g (duplicate_groups db) ->
              (2 <= image_count g)%Z /\
              image_count g
              = Z.of_nat (List.length (bucket_files env fs (g_hash g)))).
  { intros db r Hg Hst. rewrite (Hfull Hst), firstn_all in Hdb, Hm.
    rewrite Hdb, Hm in Hg.
    destruct (group_buckets_groups env (append_all (records env fs) [])
                (save_all (records env fs) setup_database) 0
                (loop_groups_numbered _)) as ((Hnd & _) & _ & Horigin).
    rewrite Hg in Hnd, Horigin. simpl in Hnd, Horigin.
    split; [exact Hnd|]. intros g Hin.
    apply Horigin in Hin as [Hin|(b & Hb & Hbig & Hh & Hc)].
    - rewrite (proj1 (save_all_groups _ _)) in Hin. destruct Hin.
    - rewrite Hc, Hh, (scan_buckets _ b Hb) in *.
      rewrite <- records_bucket_files, length_map.
      unfold big in Hbig. rewrite (scan_buckets _ b Hb) in Hbig.
      apply Nat.ltb_lt in Hbig. split; [lia | reflexivity]. }
  destruct (scan_with_cases env fs db0 Hs Hne)
    as [(_ & ->)|[(Hst & db & e & Hg & ->)|(Hst & db & n & Hg & ->)]];
    cbn [fst snd].
  - rewrite Hdb, (proj1 (save_all_groups _ _)). simpl.
    split; [constructor | intros g []].
  - now apply (Hgroup db (inl e)).
  - now apply (Hgroup db (inr n)).
Qed.

(* ================================================================= *)
(** ** Which store failures end a scan *)







(** **** X6.  A store failure in the grouping phase rolls nothing back:
    the rows that the loop wrote are all still there, changed at most
    in [group_id] and [is_original], and [run] ends with the failure
    signal that carries the text of the exception. *)
Theorem grouping_failure_keeps_rows (env : ScanEnv) (files : list string)
    (db0 : DB) (e : string) :
  setup_error env = None ->
  snd (scan_with env files db0) = Raised e ->
  map row_core (images (fst (fst (scan_with env files db0))))
  = map row_core (images (save_all (records env files) setup_database)) /\
  exists before,
    snd (run_with env files db0)
    = before ++ [finished_scan false ("Fout tijdens scannen: " ++ e)%string].
Proof.
  intros Hs Hex. unfold run_with.
  destruct files as [|f files].
  { unfold scan_with in Hex. rewrite Hs in Hex. discriminate. }
  set (fs := f :: files) in *.
  assert (Hne : fs <> []) by discriminate.
  destruct (loop_state env (List.length fs) fs) as (k & _ & Hfull & Hdb & Hm).
  destruct (scan_with_cases env fs db0 Hs Hne)
    as [(_ & E)|[(Hst & db & e' & Hg & E)|(_ & db & n & _ & E)]];
    rewrite E in *; cbn [fst snd] in *; try discriminate.
  injection Hex as ->. split.
  - replace db with (fst (group_buckets env
        (l_hash_to_images (fst (fst (process_files env (List.length fs) fs 0
                                       start_loop))))
        (l_db (fst (fst (process_files env (List.length fs) fs 0 start_loop))))
        0)) by now rewrite Hg.
    rewrite group_buckets_core, Hdb, (Hfull Hst), firstn_all. reflexivity.
  - eexists. reflexivity.
Qed.

(* ================================================================= *)
(** ** The catalog of a scan that ran to its end *)

Lemma save_all_appends (ds : list ImageData) :
  forall db,
  NoDup (map path ds) ->
  (forall d, In d ds -> ~ In (path d) (map row_path (images db))) ->
  images (save_all ds db) = images db ++ rows_of (images_seq db) ds /\
  images_seq (save_all ds db) = (images_seq db + Z.of_nat (List.length ds))%Z.
Proof.
  unfold save_all. induction ds as [|d ds IH]; intros db Hnd Hnew; simpl.
  - rewrite app_nil_r. split; [reflexivity | lia].
  - inversion Hnd as [|? ? Hd Hds]; subst.
    assert (Hkeep : filter (fun r => negb (String.eqb (row_path r) (path d)))
                           (images db) = images db).
    { apply forallb_filter_id, forallb_forall. intros r Hr.
      apply negb_true_iff, String.eqb_neq. intros E.
      apply (Hnew d (or_introl eq_refl)). rewrite <- E. now apply in_map. }
    destruct (IH (save_image_to_db d db) Hds) as (Hi & Hq).
    + intros d' Hd' Hin. simpl in Hin. rewrite Hkeep, map_app in Hin.
      apply in_app_or in Hin as [Hin|[Hin|[]]].
      * apply (Hnew d' (or_intror Hd')). exact Hin.
      * apply Hd. simpl in Hin. rewrite Hin. now apply in_map.
    + rewrite Hi, Hq. simpl. rewrite Hkeep, <- app_assoc. simpl.
      split; [reflexivity | lia].
Qed.

Lemma rows_of_paths (s : Z) (ds : list ImageData) :
  map row_path (rows_of s ds) = map path ds.
Proof.
  revert s. induction ds as [|d ds IH]; intros s; simpl; [reflexivity|].
  now rewrite IH.
Qed.

Lemma rows_of_In (ds : list ImageData) :
  forall s r, In r (rows_of s ds) ->
  group_id r = None /\ is_deleted r = false /\ is_original r = false /\
  exists d, In d ds /\ row_path r = path d /\ row_hash r = hash d.
Proof.
  induction ds as [|d ds IH]; intros s r Hr; simpl in Hr; [contradiction|].
  destruct Hr as [<-|Hr].
  - simpl. repeat split; auto. exists d. simpl. auto.
  - apply IH in Hr as (H1 & H2 & H3 & d' & Hd' & H4).
    repeat split; auto. exists d'. simpl. auto.
Qed.

Lemma row_after_deleted (bs : list (string * list ImageData)) :
  forall s r, is_deleted (row_after bs s r) = is_deleted r.
Proof.
  induction bs as [|b rest IH]; intros s r; simpl; [reflexivity|].
  destruct (big b); rewrite IH; [|reflexivity]. now destruct (has_path _ r).
Qed.

Lemma row_after_hash (bs : list (string * list ImageData)) :
  forall s r, row_hash (row_after bs s r) = row_hash r.
Proof.
  induction bs as [|b rest IH]; intros s r; simpl; [reflexivity|].
  destruct (big b); rewrite IH; [|reflexivity]. now destruct (has_path _ r).
Qed.

Lemma group_buckets_count (env : ScanEnv) (bs : list (string * list ImageData)) :
  forall db n db' n',
  group_buckets env bs db n = (db', inr n') ->
  n' = n + List.length (filter big bs) /\
  List.length (groups_after bs (groups_seq db)) = List.length (filter big bs).
Proof.
  induction bs as [|[h imgs] rest IH]; intros db n db' n' H.
  - simpl in *. injection H as _ <-. split; [lia | reflexivity].
  - cbn [group_buckets] in H. cbn [filter groups_after].
    change (big (h, imgs)) with (1 <? List.length imgs)%nat.
    destruct (1 <? List.length imgs)%nat.
    + destruct (create_error env h); [discriminate|].
      cbn [create_duplicate_group] in H.
      destruct (update_members env (sort_bucket imgs) (groups_seq db + 1) _)
        as [db2 [e|]] eqn:Eu; [discriminate|].
      apply update_members_closed in Eu as (_ & _ & Hs). simpl in Hs.
      apply IH in H as (H1 & H2). rewrite Hs in H2. simpl.
      split; [lia | now rewrite H2].
    + now apply IH in H.
Qed.

(** The facts about a scan that ran to its end over distinct files. *)
Section Completed.
Variable env : ScanEnv.
Variable files : list string.
Variables db0 db : DB.
Variable evs : list Event.
Hypothesis distinct : NoDup files.
Hypothesis completed : scan_with env files db0 = (db, evs, Completed).

Let recs := records env files.
Let bs := append_all recs [].

Lemma completed_keys : NoDup (map fst bs).
Proof. apply append_all_NoDup. constructor. Qed.

Lemma completed_disjoint :
  forall b1 b2 p, In b1 bs -> In b2 bs ->
                  In p (bucket_paths b1) -> In p (bucket_paths b2) -> b1 = b2.
Proof. intros b1 b2 p. now apply scan_buckets_disjoint, records_NoDup. Qed.

Lemma completed_rows : images db = map (row_after bs 0) (rows_of 0 recs).
Proof.
  unfold bs, recs.
  destruct (scan_completed _ _ _ _ _ completed) as (n & Hg).
  apply group_buckets_closed in Hg as (Hrows & _).
  rewrite (proj2 (save_all_groups (records env files) setup_database)) in Hrows.
  rewrite Hrows.
  destruct (save_all_appends (records env files) setup_database) as (-> & _);
    [now apply records_NoDup | intros d _ [] | reflexivity].
Qed.

Lemma completed_group_rows : duplicate_groups db = groups_after bs 0.
Proof.
  unfold bs, recs.
  destruct (scan_completed _ _ _ _ _ completed) as (n & Hg).
  apply group_buckets_closed in Hg as (_ & Hgroups).
  destruct (save_all_groups (records env files) setup_database) as [Hg1 Hs].
  now rewrite Hg1, Hs in Hgroups.
Qed.

Lemma completed_paths : map row_path (images db) = map path recs.
Proof.
  rewrite completed_rows, map_map.
  rewrite (map_ext _ row_path) by (intros r; apply row_after_path).
  apply rows_of_paths.
Qed.

Lemma completed_paths_NoDup : NoDup (map row_path (images db)).
Proof. rewrite completed_paths. now apply records_NoDup. Qed.

Lemma completed_live (r : ImageRow) : In r (images db) -> is_deleted r = false.
Proof.
  rewrite completed_rows. intros Hr. apply in_map_iff in Hr as (r1 & <- & Hr1).
  rewrite row_after_deleted. now apply rows_of_In in Hr1.
Qed.

Lemma completed_bucket (b : string * list ImageData) :
  In b bs -> map path (snd b) = bucket_files env files (fst b).
Proof.
  intros Hb. rewrite (scan_buckets recs b Hb). apply records_bucket_files.
Qed.

(** Each group row is the row of a bucket of two or more files, and
    exactly the rows of those files carry its id. *)
Lemma completed_group (g : GroupRow) :
  In g (duplicate_groups db) ->
  2 <= List.length (bucket_files env files (g_hash g)) /\
  image_count g = Z.of_nat (List.length (bucket_files env files (g_hash g))) /\
  (forall g', In g' (duplicate_groups db) -> g_hash g' = g_hash g -> g' = g) /\
  (forall r, In r (images db) ->
             (group_id r = Some (g_id g) <->
              In (row_path r) (bucket_files env files (g_hash g)))).
Proof.
  rewrite completed_group_rows. intros Hg.
  destruct (groups_after_bound bs 0 g Hg) as (_ & b & Hb & Hbig & Hh & Hc).
  destruct (grouping_member bs completed_keys completed_disjoint 0%Z b Hb Hbig)
    as (gid & _ & Hin & Huniq & Hrows).
  assert (Eg : g = new_group (gid - 1) b) by (apply Huniq; auto).
  rewrite Hh, <- (completed_bucket b Hb), length_map.
  split; [unfold big in Hbig; apply Nat.ltb_lt in Hbig; lia|].
  split; [exact Hc|]. split.
  - intros g' Hg' Hh'. rewrite Eg. apply Huniq; [exact Hg' | congruence].
  - intros r Hr. rewrite completed_rows in Hr.
    apply in_map_iff in Hr as (r1 & <- & Hr1).
    rewrite row_after_path, Eg. simpl. replace (gid - 1 + 1)%Z with gid by lia.
    apply Hrows. intros x Hx. apply rows_of_In in Hr1 as (Hn & _). congruence.
Qed.

(** Each fingerprint of two or more files has its group row. *)
Lemma completed_has_group (h : string) :
  2 <= List.length (bucket_files env files h) ->
  exists g, In g (duplicate_groups db) /\ g_hash g = h.
Proof.
  intros H2. rewrite completed_group_rows.
  set (l := filter (fun d => String.eqb (hash d) h) recs).
  assert (Hl : List.length l = List.length (bucket_files env files h))
    by (rewrite <- records_bucket_files; now rewrite length_map).
  assert (Hin : In (h, l) bs).
  { replace l with (bucket_of h bs)
      by (unfold bs; now rewrite append_all_bucket).
    apply bucket_of_In. unfold bs. rewrite append_all_bucket. simpl.
    fold l. intros E. rewrite E in Hl. simpl in Hl. lia. }
  assert (Hbig : big (h, l) = true)
    by (unfold big; simpl; apply Nat.ltb_lt; lia).
  destruct (grouping_member bs completed_keys completed_disjoint 0%Z (h, l)
              Hin Hbig) as (gid & _ & Hg & _).
  eexists. split; [exact Hg | reflexivity].
Qed.

Lemma completed_has_row (f : string) (d : ImageData) :
  recorded env f = Some d -> In f files -> In f (map row_path (images db)).
Proof.
  intros Hrec Hf. rewrite completed_paths. unfold recs, records.
  rewrite <- (recorded_path _ _ _ Hrec). apply in_map, in_flat_map.
  exists f. split; [exact Hf|]. rewrite Hrec. now left.
Qed.
End Completed.

(* ================================================================= *)
(** ** The table of images after a scan, however it ended *)




(* ================================================================= *)
(** ** Lists: filters, permutations and sums *)

Lemma filter_Permutation {A : Type} (keep : A -> bool) (xs ys : list A) :
  Permutation xs ys -> Permutation (filter keep xs) (filter keep ys).
Proof.
  induction 1 as [|x xs ys _ IH|x y xs|xs ys zs _ IH1 _ IH2]; simpl.
  - constructor.
  - destruct (keep x); [now constructor | exact IH].
  - destruct (keep x), (keep y); try reflexivity. apply perm_swap.
  - now transitivity (filter keep ys).
Qed.

Lemma NoDup_map_filter {A B : Type} (key : A -> B) (keep : A -> bool)
    (xs : list A) :
  NoDup (map key xs) -> NoDup (map key (filter keep xs)).
Proof.
  induction xs as [|x xs IH]; simpl; intros H; [constructor|].
  inversion H as [|? ? Hx Hxs]; subst.
  destruct (keep x); simpl; [|now apply IH].
  constructor; [|now apply IH].
  intros Hin. apply Hx. apply in_map_iff in Hin as (y & E & Hy).
  apply filter_In in Hy as [Hy _]. rewrite <- E. now apply in_map.
Qed.

Lemma filter_concat_length {A B : Type} (snd' : B -> list A) (P : A -> bool)
    (big' : B -> bool) (bs : list B) :
  (forall b, In b bs -> forall d, In d (snd' b) -> P d = big' b) ->
  List.length (filter P (List.concat (map snd' bs)))
  = list_sum (map (fun b => List.length (snd' b)) (filter big' bs)).
Proof.
  induction bs as [|b bs IH]; intros H; simpl; [reflexivity|].
  rewrite filter_app, length_app, IH by (intros b' Hb'; apply H; now right).
  assert (Hb : filter P (snd' b) = if big' b then snd' b else []).
  { destruct (big' b) eqn:E.
    - apply forallb_filter_id, forallb_forall. intros d Hd.
      rewrite (H b (or_introl eq_refl) d Hd). exact E.
    - assert (Hnone : forall l, (forall d, In d l -> P d = false) ->
                                filter P l = []).
      { induction l as [|d l IHl]; intros Hl; simpl; [reflexivity|].
        rewrite (Hl d (or_introl eq_refl)). apply IHl.
        intros d' Hd'. apply Hl. now right. }
      apply Hnone. intros d Hd. rewrite (H b (or_introl eq_refl) d Hd). exact E. }
  rewrite Hb. destruct (big' b); simpl; lia.
Qed.

(* ================================================================= *)
(** ** The buckets hold each record once *)

Lemma append_image_concat (h : string) (d : ImageData)
    (m : list (string * list ImageData)) :
  Permutation (List.concat (map snd (append_image h d m)))
              (List.concat (map snd m) ++ [d]).
Proof.
  induction m as [|[k l] m IH]; simpl; [reflexivity|].
  destruct (String.eqb k h); simpl.
  - rewrite <- !app_assoc. apply Permutation_app_head, Permutation_app_comm.
  - rewrite <- app_assoc. now apply Permutation_app_head.
Qed.

Lemma append_all_concat (ds : list ImageData) :
  forall m, Permutation (List.concat (map snd (append_all ds m)))
                        (List.concat (map snd m) ++ ds).
Proof.
  unfold append_all. induction ds as [|d ds IH]; intros m; simpl.
  - now rewrite app_nil_r.
  - rewrite IH, append_image_concat, <- app_assoc. reflexivity.
Qed.

Lemma grouped_row_after (bs : list (string * list ImageData)) :
  forall s r,
  grouped (row_after bs s r) = orb (grouped r) (in_big bs (row_path r)).
Proof.
  induction bs as [|b rest IH]; intros s r; simpl.
  - now rewrite orb_false_r.
  - unfold has_path. destruct (big b); simpl; [|apply IH].
    rewrite IH. destruct (existsb (String.eqb (row_path r)) (bucket_paths b));
      simpl; [|reflexivity].
    unfold grouped. simpl. now rewrite orb_true_r.
Qed.

Lemma grouped_rows_length (bs : list (string * list ImageData)) (s0 : Z)
    (ds : list ImageData) :
  forall s,
  List.length (filter grouped (map (row_after bs s0) (rows_of s ds)))
  = List.length (filter (fun d => in_big bs (path d)) ds).
Proof.
  induction ds as [|d ds IH]; intros s; simpl; [reflexivity|].
  rewrite grouped_row_after. simpl.
  destruct (in_big bs (path d)); simpl; now rewrite IH.
Qed.

Lemma duplicates_sum (bs : list (string * list ImageData)) :
  list_sum (map (fun b => List.length (snd b)) (filter big bs))
  = total_duplicates bs + List.length (filter big bs).
Proof.
  unfold total_duplicates. fold big.
  induction bs as [|b bs IH]; simpl; [reflexivity|].
  destruct (big b) eqn:E; simpl; [|exact IH].
  unfold big in E. apply Nat.ltb_lt in E. lia.
Qed.

(* ================================================================= *)
(** ** Groups, summary and listing of a scan that ran to its end *)

Section CompletedFacts.
Variable env : ScanEnv.
Variable files : list string.
Variables db0 db : DB.
Variable evs : list Event.
Hypothesis distinct : NoDup files.
Hypothesis completed : scan_with env files db0 = (db, evs, Completed).

Lemma completed_group_iff (h : string) (c : Z) :
  (exists g, In g (duplicate_groups db) /\ g_hash g = h /\ image_count g = c)
  <->
  2 <= List.length (bucket_files env files h) /\
  c = Z.of_nat (List.length (bucket_files env files h)).
Proof.
  split.
  - intros (g & Hg & <- & <-).
    destruct (completed_group env files db0 db evs distinct completed g Hg)
      as (H2 & Hc & _). auto.
  - intros (H2 & ->).
    destruct (completed_has_group env files db0 db evs distinct completed h H2)
      as (g & Hg & Hh).
    exists g. split; [exact Hg|]. split; [exact Hh|].
    destruct (completed_group env files db0 db evs distinct completed g Hg)
      as (_ & Hc & _). now rewrite Hc, Hh.
Qed.

Lemma completed_filed_iff (p h : string) :
  filed db p h <->
  In p (bucket_files env files h) /\
  2 <= List.length (bucket_files env files h).
Proof.
  split.
  - intros (r & g & Hr & <- & Hg & Hid & <-).
    destruct (completed_group env files db0 db evs distinct completed g Hg)
      as (H2 & _ & _ & Hrows).
    split; [now apply Hrows | exact H2].
  - intros (Hp & H2).
    destruct (completed_has_group env files db0 db evs distinct completed h H2)
      as (g & Hg & Hh).
    destruct (completed_group env files db0 db evs distinct completed g Hg)
      as (_ & _ & _ & Hrows).
    assert (Hf := Hp). unfold bucket_files in Hf.
    apply filter_In in Hf as [Hf Hrec].
    destruct (recorded env p) as [d|] eqn:Ed; [|discriminate].
    pose proof (completed_has_row env files db0 db evs distinct completed
                  p d Ed Hf) as Hrow.
    apply in_map_iff in Hrow as (r & Hpath & Hr).
    exists r, g. split; [exact Hr|]. split; [exact Hpath|].
    split; [exact Hg|]. split; [|exact Hh].
    apply Hrows; [exact Hr|]. now rewrite Hpath, Hh.
Qed.

(** The rows of a group, counted: as many as its bucket has files. *)
Lemma completed_live_members (g : GroupRow) :
  In g (duplicate_groups db) ->
  Permutation (map row_path (live_members (g_id g) db))
              (bucket_files env files (g_hash g)).
Proof.
  intros Hg.
  destruct (completed_group env files db0 db evs distinct completed g Hg)
    as (_ & _ & _ & Hrows).
  apply NoDup_Permutation.
  - apply NoDup_map_filter.
    apply (completed_paths_NoDup env files db0 db evs distinct completed).
  - apply NoDup_filter, distinct.
  - intros p. unfold live_members. rewrite in_map_iff. split.
    + intros (r & <- & Hr). apply filter_In in Hr as [Hr Hin].
      apply andb_true_iff in Hin as [Hin _]. unfold in_group in Hin.
      destruct (group_id r) as [x|] eqn:Ex; [|discriminate].
      apply Z.eqb_eq in Hin. subst x. now apply Hrows.
    + intros Hp. assert (Hf := Hp). unfold bucket_files in Hf.
      apply filter_In in Hf as [Hf Hrec].
      destruct (recorded env p) as [d|] eqn:Ed; [|discriminate].
      pose proof (completed_has_row env files db0 db evs distinct completed
                    p d Ed Hf) as Hrow.
      apply in_map_iff in Hrow as (r & Hpath & Hr).
      exists r. split; [exact Hpath|]. apply filter_In. split; [exact Hr|].
      rewrite (completed_live env files db0 db evs distinct completed r Hr).
      unfold in_group.
      rewrite (proj2 (Hrows r Hr)) by now rewrite Hpath.
      now rewrite Z.eqb_refl.
Qed.

Lemma completed_member_count (g : GroupRow) :
  In g (duplicate_groups db) ->
  2 <= List.length (live_members (g_id g) db).
Proof.
  intros Hg.
  pose proof (Permutation_length (completed_live_members g Hg)) as Hlen.
  rewrite length_map in Hlen. rewrite Hlen.
  now destruct (completed_group env files db0 db evs distinct completed g Hg).
Qed.

Lemma completed_groups_query :
  groups_query db =
  sort_desc Nat.ltb snd
    (map (fun g => (g, List.length (live_members (g_id g) db)))
         (duplicate_groups db)).
Proof.
  unfold groups_query. f_equal.
  apply forallb_filter_id, forallb_forall. intros gc Hgc.
  apply in_map_iff in Hgc as (g & <- & Hg). simpl.
  apply Nat.ltb_lt. pose proof (completed_member_count g Hg). lia.
Qed.

Lemma completed_listing :
  list_duplicate_groups db =
  map (fun gc => images_query (g_id (fst gc)) db) (groups_query db).
Proof.
  unfold list_duplicate_groups, duplicates_of.
  apply forallb_filter_id, forallb_forall. intros imgs Hi.
  apply in_map_iff in Hi as (gc & <- & Hgc).
  apply groups_query_In in Hgc as (_ & Hc & H2).
  rewrite images_query_length, <- Hc. apply Nat.ltb_lt. lia.
Qed.

(** The number that the grouping phase counts, and the sum that the
    summary reports, read off the catalog. *)
Lemma completed_counts :
  List.length (duplicate_groups db)
  = List.length (filter big (append_all (records env files) [])) /\
  List.length (filter grouped (images db))
  = total_duplicates (append_all (records env files) [])
    + List.length (duplicate_groups db).
Proof.
  set (recs := records env files). set (bs := append_all recs []).
  assert (Hgroups : List.length (duplicate_groups db)
                    = List.length (filter big bs)).
  { rewrite (completed_group_rows env files db0 db evs completed).
    destruct (scan_completed _ _ _ _ _ completed) as (n & Hg).
    apply group_buckets_count in Hg as (_ & Hg).
    rewrite (proj2 (save_all_groups (records env files) setup_database)) in Hg.
    exact Hg. }
  split; [exact Hgroups|].
  rewrite (completed_rows env files db0 db evs distinct completed).
  rewrite grouped_rows_length. fold recs bs.
  rewrite Hgroups, <- duplicates_sum.
  rewrite (Permutation_length
             (filter_Permutation (fun d => in_big bs (path d)) recs
                (List.concat (map snd bs))
                (Permutation_sym (append_all_concat recs [])))).
  apply filter_concat_length.
  intros b Hb d Hd. unfold in_big.
  destruct (big b) eqn:Ebig.
  - apply existsb_exists. exists b. split; [exact Hb|]. rewrite Ebig. simpl.
    apply existsb_exists. exists (path d). split; [|apply String.eqb_refl].
    unfold bucket_paths. now apply in_map.
  - destruct (existsb _ bs) eqn:Ex; [|reflexivity].
    apply existsb_exists in Ex as (b' & Hb' & H).
    apply andb_true_iff in H as (Hbig' & Hin).
    apply existsb_exists in Hin as (p & Hp & Ep). apply String.eqb_eq in Ep.
    subst p.
    assert (b' = b).
    { apply (completed_disjoint env files distinct b' b (path d)); auto.
      unfold bucket_paths. now apply in_map. }
    congruence.
Qed.
End CompletedFacts.

(** **** X7.  The groups of a scan do not depend on the order in which
    the files are visited, nor on the catalog before the scan: two
    scans of the same files that run to their end create group rows
    with the same fingerprints and counts, file the same paths under
    the same fingerprints, and write rows for the same paths.  Only the
    ids may differ. *)
Theorem groups_independent_of_order (env : ScanEnv) (files1 files2 : list string)
    (before1 before2 db1 db2 : DB) (evs1 evs2 : list Event) :
  NoDup files1 -> Permutation files1 files2 ->
  scan_with env files1 before1 = (db1, evs1, Completed) ->
  scan_with env files2 before2 = (db2, evs2, Completed) ->
  (forall h c,
     (exists g, In g (duplicate_groups db1) /\ g_hash g = h /\ image_count g = c)
     <->
     (exists g, In g (duplicate_groups db2) /\ g_hash g = h /\ image_count g = c))
  /\
  (forall p h, filed db1 p h <-> filed db2 p h) /\
  Permutation (map row_path (images db1)) (map row_path (images db2)).
Proof.
  intros Hnd HP H1 H2.
  assert (Hnd2 : NoDup files2) by (eapply Permutation_NoDup; eauto).
  assert (Hb : forall h, Permutation (bucket_files env files1 h)
                                     (bucket_files env files2 h))
    by (intros h; now apply filter_Permutation).
  split; [|split].
  - intros h c.
    rewrite (completed_group_iff env files1 before1 db1 evs1 Hnd H1),
            (completed_group_iff env files2 before2 db2 evs2 Hnd2 H2).
    now rewrite (Permutation_length (Hb h)).
  - intros p h.
    rewrite (completed_filed_iff env files1 before1 db1 evs1 Hnd H1),
            (completed_filed_iff env files2 before2 db2 evs2 Hnd2 H2).
    rewrite (Permutation_length (Hb h)).
    split; intros [Hin Hl]; (split; [|exact Hl]).
    + eapply Permutation_in; [apply Hb | exact Hin].
    + eapply Permutation_in; [apply Permutation_sym, Hb | exact Hin].
  - rewrite (completed_paths env files1 before1 db1 evs1 Hnd H1),
            (completed_paths env files2 before2 db2 evs2 Hnd2 H2).
    apply Permutation_map. unfold records.
    apply Permutation_flat_map. exact HP.
Qed.

(** **** X8.  The summary that ends a scan tells what the catalog
    holds: the number of group rows, and the number of rows that carry
    a group id less one per group; it says that no duplicates were found
    exactly when there is no group row. *)
Theorem summary_matches_catalog (env : ScanEnv) (files : list string)
    (db0 db : DB) (evs : list Event) :
  NoDup files ->
  scan_with env files db0 = (db, evs, Completed) ->
  exists before,
    evs = before ++ [finished_scan true (catalog_summary db)].
Proof.
  intros Hnd Hc.
  destruct (completed_counts env files db0 db evs Hnd Hc) as (Hgroups & Hrows).
  assert (Hs : setup_error env = None).
  { unfold scan_with in Hc. destruct (setup_error env); [discriminate|reflexivity]. }
  assert (Hne : files <> []).
  { intros ->. unfold scan_with in Hc. rewrite Hs in Hc. discriminate. }
  destruct (loop_state env (List.length files) files)
    as (k & _ & Hfull & _ & Hm).
  destruct (scan_with_cases env files db0 Hs Hne)
    as [(_ & E)|[(_ & db' & e & _ & E)|(Hst & db' & n & Hg & E)]];
    rewrite E in Hc; try discriminate.
  injection Hc as <- <-.
  rewrite Hm, (Hfull Hst), firstn_all in *.
  apply group_buckets_count in Hg as (Hn & _). rewrite Nat.add_0_l in Hn.
  assert (Hsum : summary n (append_all (records env files) [])
                 = catalog_summary db').
  { unfold summary, catalog_summary. rewrite Hgroups, <- Hn.
    destruct (n =? 0)%nat; [reflexivity|].
    rewrite Hrows, Hgroups, <- Hn. now rewrite Nat.add_sub. }
  rewrite Hsum.
  exists (preamble (List.length files)
          ++ snd (fst (process_files env (List.length files) files 0 start_loop))
          ++ [progress_text "Duplicaten zoeken..."; progress_value 100]).
  rewrite <- !app_assoc. reflexivity.
Qed.

(** **** X9.  After a scan that ran to its end the listing shows every
    group the scan created, none dropped: as many groups as there are
    group rows, and for each group row the list of its rows, whose
    paths are the files that produced the fingerprint. *)
Theorem listing_after_scan (env : ScanEnv) (files : list string)
    (db0 db : DB) (evs : list Event) :
  NoDup files ->
  scan_with env files db0 = (db, evs, Completed) ->
  List.length (list_duplicate_groups db) = List.length (duplicate_groups db) /\
  forall g, In g (duplicate_groups db) ->
    In (images_query (g_id g) db) (list_duplicate_groups db) /\
    Permutation (map row_path (images_query (g_id g) db))
                (bucket_files env files (g_hash g)).
Proof.
  intros Hnd Hc.
  rewrite (completed_listing db).
  rewrite (completed_groups_query env files db0 db evs Hnd Hc).
  split.
  - now rewrite length_map, sort_desc_length, length_map.
  - intros g Hg. split.
    + apply in_map_iff.
      exists (g, List.length (live_members (g_id g) db)).
      split; [reflexivity|]. apply sort_desc_In.
      apply in_map_iff. exists g. auto.
    + unfold images_query. rewrite sort_desc_perm.
      now apply (completed_live_members env files db0 db evs Hnd Hc).
Qed.

(* ================================================================= *)
(** ** More on discovery and metadata *)

Lemma extensions_lower_case (ext : string) :
  In ext IMAGE_EXTENSIONS -> lower ext = ext /\ lower (upper ext) = ext.
Proof.
  intros H. unfold IMAGE_EXTENSIONS in H. simpl in H.
  repeat (destruct H as [<-|H]; [split; reflexivity|]). destruct H.
Qed.

Lemma ignorecase_ascii_head (c : ascii) (r : string) :
  nat_of_ascii c < 128 ->
  ignorecase (String c r) = String (lower_ascii c) (ignorecase r).
Proof.
  intros Hc.
  assert (Hne : forall n, 128 <= n -> n < 256 -> Ascii.eqb c (byte n) = false).
  { intros n Hn Hn'. apply Ascii.eqb_neq. intros ->. unfold byte in Hc.
    rewrite nat_ascii_embedding in Hc; lia. }
  destruct r as [|c2 [|c3 r3]]; cbn [ignorecase]; [reflexivity| |].
  - rewrite (Hne 196), (Hne 197) by lia. reflexivity.
  - rewrite (Hne 196), (Hne 197), (Hne 226) by lia. reflexivity.
Qed.

(** On a name written in ASCII, ignoring case is comparing in lower
    case. *)
Lemma ignorecase_plain (name : string) :
  plain_ascii name = true -> ignorecase name = lower name.
Proof.
  induction name as [|c r IH]; intros H; [reflexivity|].
  cbn [plain_ascii] in H. apply andb_true_iff in H as [Hc Hr].
  apply Nat.ltb_lt in Hc.
  rewrite (ignorecase_ascii_head c r Hc), (IH Hr). reflexivity.
Qed.

(** **** X10.  [find_image_files] returns each path once and only
    regular files.  On a case-sensitive path flavour it returns exactly
    the regular files whose name ends with an extension of the list
    written in lower case or in upper case.  On a case-insensitive
    flavour it returns exactly those whose name ends with an extension
    of the list when case is ignored as [re.IGNORECASE] does: for a
    name written in ASCII that is the name in lower case, and the
    letter [i] of an extension is also matched by U+0130 and by
    U+0131. *)
Theorem discovery_characterised (t : Tree) :
  NoDup (find_image_files t) /\
  (forall p,
     In p (find_image_files t) <->
     exists e ext,
       In e (entries t) /\ e_path e = p /\ e_is_file e = true /\
       In ext IMAGE_EXTENSIONS /\
       if case_sensitive t then
         ends_with ext (basename p) = true \/
         ends_with (upper ext) (basename p) = true
       else ends_with ext (ignorecase (basename p)) = true) /\
  (forall name ext,
     plain_ascii name = true ->
     glob_match false ext name = ends_with (lower ext) (lower name)) /\
  (glob_match false ".gif" dotless_name = true /\
   glob_match false ".gif" dotted_name = true /\
   glob_match true ".gif" dotless_name = false).
Proof.
  split; [apply find_image_files_NoDup|]. split; [|split].
  - intros p. rewrite find_image_files_In. unfold glob_match.
    split; intros (e & ext & He & Hp & Hf & Hext & Hm); exists e, ext;
      (split; [exact He|]); (split; [exact Hp|]); (split; [exact Hf|]);
      (split; [exact Hext|]);
      destruct (extensions_lower_case ext Hext) as (Hl & Hlu);
      destruct (case_sensitive t); try exact Hm.
    + rewrite Hl, Hlu in Hm. now destruct Hm.
    + rewrite Hl. now left.
  - intros name ext Hn. unfold glob_match. now rewrite ignorecase_plain.
  - repeat split.
Qed.

(** **** X11.  [get_metadata] returns the placeholder exactly when
    [os.stat], the conversion of the modification time or the decoding
    of the image fails; a result with a modification time is never the
    placeholder, and it then carries the size of stat and the
    dimensions of the image, with the resolution text made of the two
    numbers. *)
Theorem fallback_exactly_on_failure (strptime : string -> option string)
    (o : FileObs) :
  (get_metadata strptime o = fallback_metadata <->
   obs_stat o = None \/ obs_image o = None \/
   exists st, obs_stat o = Some st /\ mtime_iso st = None) /\
  (date_modified (get_metadata strptime o) <> None ->
   exists st im,
     obs_stat o = Some st /\ obs_image o = Some im /\
     file_size (get_metadata strptime o) = st_size st /\
     (width (get_metadata strptime o), height (get_metadata strptime o))
     = img_size im /\
     resolution (get_metadata strptime o)
     = (str_of_Z (fst (img_size im)) ++ "x"
        ++ str_of_Z (snd (img_size im)))%string).
Proof.
  unfold get_metadata.
  destruct (obs_stat o) as [st|] eqn:Es.
  2:{ split; [|intros H; now elim H]. split; auto. }
  destruct (mtime_iso st) as [modified|] eqn:Em.
  2:{ split; [|intros H; now elim H]. split; [|reflexivity].
      intros _. right. right. exists st. auto. }
  destruct (obs_image o) as [im|] eqn:Ei.
  2:{ split; [|intros H; now elim H]. split; auto. }
  destruct (img_size im) as [w h] eqn:Ez. split.
  - split.
    + intros H. apply (f_equal date_modified) in H. discriminate.
    + intros [H|[H|(st' & H1 & H2)]]; try discriminate.
      injection H1 as <-. congruence.
  - intros _. exists st, im. simpl. rewrite Ez. auto.
Qed.

(* ================================================================= *)
(** ** Sorting and filtering commute *)

Section SortFilter.
Context {A K : Type}.
Variable klt : K -> K -> bool.
Variable key : A -> K.
Variable keep : A -> bool.

Hypothesis klt_asym : forall a b, klt a b = true -> klt b a = false.
Hypothesis nlt_trans :
  forall a b c, klt a b = false -> klt b c = false -> klt a c = false.

Lemma insert_desc_head (x : A) (l : list A) :
  (forall z, In z l -> klt (key x) (key z) = false) ->
  insert_desc klt key x l = x :: l.
Proof.
  destruct l as [|y l]; simpl; [reflexivity|].
  intros H. now rewrite (H y (or_introl eq_refl)).
Qed.

Lemma filter_insert_desc (x : A) (s : list A) :
  StronglySorted (desc klt key) s ->
  filter keep (insert_desc klt key x s) =
  if keep x then insert_desc klt key x (filter keep s) else filter keep s.
Proof.
  induction 1 as [|y s Hs IH Hy]; simpl.
  - now destruct (keep x).
  - destruct (klt (key x) (key y)) eqn:E; simpl.
    + rewrite IH. destruct (keep x), (keep y); simpl; try reflexivity.
      now rewrite E.
    + destruct (keep x); [|reflexivity]. symmetry.
      change (insert_desc klt key x (filter keep (y :: s))
              = x :: filter keep (y :: s)).
      apply insert_desc_head. intros z Hz.
      apply filter_In in Hz as [[<-|Hz] _]; [exact E|].
      rewrite Forall_forall in Hy. eapply nlt_trans; [exact E | now apply Hy].
Qed.

Lemma filter_sort_desc (l : list A) :
  filter keep (sort_desc klt key l) = sort_desc klt key (filter keep l).
Proof.
  induction l as [|x l IH]; simpl; [reflexivity|].
  rewrite filter_insert_desc by now apply sort_desc_sorted.
  rewrite IH. now destruct (keep x).
Qed.
End SortFilter.

(* ================================================================= *)
(** ** The listing after a delete *)

Lemma live_members_deleted (gid : Z) (p : string) (db : DB) :
  live_members gid (mark_deleted p db) =
  filter (fun r => negb (String.eqb (row_path r) p)) (live_members gid db).
Proof.
  unfold live_members, mark_deleted. simpl.
  induction (images db) as [|r l IH]; simpl; [reflexivity|].
  destruct (String.eqb (row_path r) p) eqn:E; simpl.
  - unfold in_group at 1. simpl. fold (in_group gid r).
    rewrite andb_false_r.
    destruct (andb (in_group gid r) (negb (is_deleted r))); simpl;
      [rewrite E; simpl|]; exact IH.
  - destruct (andb (in_group gid r) (negb (is_deleted r))); simpl;
      [rewrite E; simpl|]; now rewrite IH.
Qed.

Lemma images_query_deleted (gid : Z) (p : string) (db : DB) :
  images_query gid (mark_deleted p db) =
  filter (fun r => negb (String.eqb (row_path r) p)) (images_query gid db).
Proof.
  unfold images_query. rewrite live_members_deleted. symmetry.
  apply filter_sort_desc; [apply member_ltb_asym | apply member_nlt_trans].
Qed.

Lemma list_duplicate_groups_iff (db : DB) (imgs : list ImageRow) :
  In imgs (list_duplicate_groups db) <->
  exists g, In g (duplicate_groups db) /\ imgs = images_query (g_id g) db /\
            2 <= List.length imgs.
Proof.
  split; [apply list_duplicate_groups_In|].
  intros (g & Hg & -> & H2).
  unfold list_duplicate_groups, duplicates_of.
  apply filter_In. split; [|apply Nat.ltb_lt; lia].
  apply in_map_iff. exists (g, List.length (live_members (g_id g) db)).
  split; [reflexivity|]. unfold groups_query.
  apply sort_desc_In, filter_In. split.
  - apply in_map_iff. exists g. auto.
  - simpl. rewrite images_query_length in H2. apply Nat.ltb_lt. lia.
Qed.

(** **** X12.  A delete that succeeded takes the row of the deleted
    path out of the list of its group and leaves the other rows of
    every group in the order they had; a group stays in the listing
    exactly while two or more of its rows remain; and the group rows
    themselves, [image_count] included, are not touched. *)
Theorem delete_removes_one_card (env : DeleteEnv) (p : string) (m : Manager)
    (title text : string) :
  snd (delete_image env p m) = Some (Information title text) ->
  let db := m_db m in
  let db' := m_db (fst (delete_image env p m)) in
  let others := filter (fun r => negb (String.eqb (row_path r) p)) in
  duplicate_groups db' = duplicate_groups db /\
  (forall gid, images_query gid db' = others (images_query gid db)) /\
  (forall imgs,
     In imgs (list_duplicate_groups db') <->
     exists g, In g (duplicate_groups db) /\
               imgs = others (images_query (g_id g) db) /\
               2 <= List.length imgs).
Proof.
  intros Hok db db' others. subst db db' others.
  rewrite (delete_image_succeeded _ _ _ _ _ Hok).
  split; [reflexivity|]. split; [intros gid; apply images_query_deleted|].
  intros imgs. rewrite list_duplicate_groups_iff. simpl.
  split; intros (g & Hg & Hi & H2); exists g; (split; [exact Hg|]);
    (split; [|exact H2]).
  - now rewrite <- images_query_deleted.
  - now rewrite images_query_deleted.
Qed.

Lemma mark_deleted_twice (p : string) (db : DB) :
  mark_deleted p (mark_deleted p db) = mark_deleted p db.
Proof.
  unfold mark_deleted. simpl. f_equal. rewrite map_map. apply map_ext.
  intros r. destruct (String.eqb (row_path r) p) eqn:E; simpl; now rewrite E.
Qed.

Lemma delete_image_gone (env : DeleteEnv) (p : string) (m : Manager)
    (title text : string) :
  snd (delete_image env p m) = Some (Information title text) ->
  path_exists p (m_disk (fst (delete_image env p m))) = false.
Proof.
  unfold delete_image. destruct (reply_yes env); [|discriminate].
  destruct (path_exists p (m_disk m)) eqn:Ex.
  - destruct (remove_error env); [discriminate|].
    destruct (mark_error env); [discriminate|]. simpl. intros _.
    rewrite (proj1 (proj2 (load_existing_results_keeps _ _))). simpl.
    rewrite path_exists_remove. now rewrite String.eqb_refl.
  - destruct (mark_error env); [discriminate|]. simpl. intros _.
    rewrite (proj1 (proj2 (load_existing_results_keeps _ _))). exact Ex.
Qed.

(** **** X13.  Deleting a path again after a delete that succeeded
    succeeds again and changes neither the catalog nor the disk: the
    file is gone, so [os.remove] is not called, whatever it would
    raise, and the rows are flagged already. *)
Theorem delete_again_changes_nothing (env1 env2 : DeleteEnv) (p : string)
    (m : Manager) (title text : string) :
  snd (delete_image env1 p m) = Some (Information title text) ->
  reply_yes env2 = true -> mark_error env2 = None ->
  let m1 := fst (delete_image env1 p m) in
  snd (delete_image env2 p m1) = delete_done p /\
  m_db (fst (delete_image env2 p m1)) = m_db m1 /\
  m_disk (fst (delete_image env2 p m1)) = m_disk m1.
Proof.
  intros Hok Hy Hmark m1.
  pose proof (delete_image_gone _ _ _ _ _ Hok) as Hgone.
  pose proof (delete_image_succeeded _ _ _ _ _ Hok) as Hdb.
  fold m1 in Hgone, Hdb.
  unfold delete_image at 1 2 3. rewrite Hy, Hgone, Hmark. simpl.
  destruct (load_existing_results_keeps (load_fault env2)
              (with_disk_db m1 (m_disk m1) (mark_deleted p (m_db m1))))
    as (-> & -> & _).
  simpl. rewrite Hdb, mark_deleted_twice. auto.
Qed.

(* ================================================================= *)
(** ** Loading, navigation and the grid *)

(** **** X14.  [load_existing_results] never writes: catalog, disk and
    scan thread are as before, whatever goes wrong.  Without a fault it
    shows the whole listing from its first group.  When the database
    file is missing or the first query raises, the groups on display
    stay as they were; when the query of a later group raises, what is
    displayed is a front part of the listing. *)
Theorem load_shows_listing_or_part (f : LoadFault) (m : Manager) :
  let m' := load_existing_results f m in
  m_db m' = m_db m /\ m_disk m' = m_disk m /\ scan_thread m' = scan_thread m /\
  match f with
  | LoadOk =>
      duplicates m' = list_duplicate_groups (m_db m) /\ current_group m' = 0
  | NoDatabaseFile | GroupsQueryRaises _ =>
      duplicates m' = duplicates m /\ current_group m' = current_group m
  | ImagesQueryRaises _ _ =>
      exists rest, list_duplicate_groups (m_db m) = duplicates m' ++ rest
  end.
Proof.
  intros m'. subst m'.
  destruct (load_existing_results_keeps f m) as (H1 & H2 & H3).
  split; [exact H1|]. split; [exact H2|]. split; [exact H3|].
  destruct f as [| |e|k e]; simpl; auto.
  destruct (k <? List.length (groups_query (m_db m)))%nat; simpl.
  - exists (duplicates_of (skipn k (groups_query (m_db m))) (m_db m)).
    unfold list_duplicate_groups, duplicates_of.
    rewrite <- filter_app, <- map_app. now rewrite firstn_skipn.
  - exists []. now rewrite app_nil_r.
Qed.

Lemma with_current_same (m : Manager) : with_current m (current_group m) = m.
Proof. now destruct m. Qed.

Lemma with_current_twice (m : Manager) (a b : nat) :
  with_current (with_current m a) b = with_current m b.
Proof. reflexivity. Qed.

Lemma prev_group_step (m : Manager) :
  (0 <? current_group m)%nat = true ->
  prev_group m = with_current m (current_group m - 1).
Proof. intros H. unfold prev_group. now rewrite H. Qed.

Lemma next_group_step (m : Manager) :
  (current_group m <? List.length (duplicates m) - 1)%nat = true ->
  next_group m = with_current m (current_group m + 1).
Proof. intros H. unfold next_group. now rewrite H. Qed.

(** **** X15.  While the index of the current group is within the
    listing, it stays within it under both buttons; a button that
    [update_navigation] leaves disabled has a handler that does
    nothing, and after a step with an enabled button the other button
    leads back to the same state. *)
Theorem navigation_in_range (m : Manager) :
  current_group m < List.length (duplicates m) ->
  let nav := update_navigation m in
  current_group (prev_group m) < List.length (duplicates (prev_group m)) /\
  current_group (next_group m) < List.length (duplicates (next_group m)) /\
  (prev_enabled nav = false -> prev_group m = m) /\
  (next_enabled nav = false -> next_group m = m) /\
  (prev_enabled nav = true ->
   current_group (prev_group m) = current_group m - 1 /\
   next_group (prev_group m) = m) /\
  (next_enabled nav = true ->
   current_group (next_group m) = current_group m + 1 /\
   prev_group (next_group m) = m).
Proof.
  intros Hin nav.
  assert (Hnav : prev_enabled nav = (0 <? current_group m)%nat /\
                 next_enabled nav
                 = (current_group m <? List.length (duplicates m) - 1)%nat).
  { subst nav. unfold update_navigation.
    destruct (duplicates m); [simpl in Hin; lia | auto]. }
  destruct Hnav as [-> ->]. clear nav.
  assert (Hprev : (0 <? current_group m)%nat = false -> prev_group m = m)
    by (intros H; unfold prev_group; now rewrite H).
  assert (Hnext : (current_group m <? List.length (duplicates m) - 1)%nat = false
                  -> next_group m = m)
    by (intros H; unfold next_group; now rewrite H).
  assert (Hback : (0 <? current_group m)%nat = true ->
                  current_group (prev_group m) = current_group m - 1 /\
                  next_group (prev_group m) = m).
  { intros H. rewrite (prev_group_step m H). split; [reflexivity|].
    apply Nat.ltb_lt in H.
    rewrite next_group_step by (simpl; apply Nat.ltb_lt; lia).
    rewrite with_current_twice. simpl.
    replace (current_group m - 1 + 1) with (current_group m) by lia.
    apply with_current_same. }
  assert (Hforth : (current_group m <? List.length (duplicates m) - 1)%nat = true
                   -> current_group (next_group m) = current_group m + 1 /\
                      prev_group (next_group m) = m).
  { intros H. rewrite (next_group_step m H). split; [reflexivity|].
    rewrite prev_group_step by (simpl; apply Nat.ltb_lt; lia).
    rewrite with_current_twice. simpl.
    replace (current_group m + 1 - 1) with (current_group m) by lia.
    apply with_current_same. }
  split; [|split; [|auto]].
  - destruct (0 <? current_group m)%nat eqn:Ep.
    + rewrite (prev_group_step m Ep). simpl. lia.
    + now rewrite (Hprev eq_refl).
  - destruct (current_group m <? List.length (duplicates m) - 1)%nat eqn:En.
    + rewrite (next_group_step m En). simpl. apply Nat.ltb_lt in En. lia.
    + now rewrite (Hnext eq_refl).
Qed.

Lemma nth_error_combine_seq {A : Type} (l : list A) :
  forall a i,
  nth_error (combine (seq a (List.length l)) l) i
  = option_map (fun x => (a + i, x)) (nth_error l i).
Proof.
  induction l as [|x l IH]; intros a i; simpl.
  - now destruct i.
  - destruct i as [|i]; simpl.
    + now rewrite Nat.add_0_r.
    + rewrite IH. replace (S a + i) with (a + S i) by lia. reflexivity.
Qed.

Lemma place_cards_images (imgs : list ImageRow) :
  map snd (place_cards imgs) = imgs.
Proof.
  unfold place_cards. rewrite map_map. simpl.
  assert (H : forall a, map (fun x : nat * ImageRow => snd x)
                            (combine (seq a (List.length imgs)) imgs) = imgs).
  { induction imgs as [|x l IH]; intros a; simpl; [reflexivity|].
    now rewrite IH. }
  apply H.
Qed.

(** **** X16.  [show_current_group] shows nothing when there is no
    group at the current index, and otherwise the cards of that group,
    in their order, the card of rank [i] on row [i / 4] and column
    [i mod 4]: fewer than four columns, rows filled from the left, and
    no two cards on one cell. *)
Theorem cards_on_grid (m : Manager) :
  let cells := show_current_group m in
  (List.length (duplicates m) <= current_group m -> cells = []) /\
  (current_group m < List.length (duplicates m) ->
   map snd cells = nth (current_group m) (duplicates m) [] /\
   forall i row col img,
     nth_error cells i = Some (row, col, img) ->
     col < 4 /\ i = 4 * row + col /\
     nth_error (nth (current_group m) (duplicates m) []) i = Some img).
Proof.
  intros cells. subst cells. unfold show_current_group.
  destruct (duplicates m) as [|g gs] eqn:Ed.
  { split; [reflexivity | simpl; lia]. }
  rewrite <- Ed. split.
  - intros H. apply Nat.leb_le in H. now rewrite H.
  - intros H. assert (E : (List.length (duplicates m) <=? current_group m)%nat
                          = false) by (apply Nat.leb_gt; exact H).
    rewrite E. split; [apply place_cards_images|].
    intros i row col img Hn. unfold place_cards in Hn.
    rewrite nth_error_map, nth_error_combine_seq in Hn.
    destruct (nth_error (nth (current_group m) (duplicates m) []) i) as [x|];
      [|discriminate].
    assert (Hcell : (i / 4, i mod 4, x) = (row, col, img))
      by (cbn [option_map fst snd Nat.add] in Hn; congruence).
    apply pair_equal_spec in Hcell as [Hcell <-].
    apply pair_equal_spec in Hcell as [<- <-].
    split; [apply Nat.mod_upper_bound; lia|]. split; [|reflexivity].
    apply Nat.div_mod_eq.
Qed.

(* ================================================================= *)
(** ** A scan seen from the window *)

Lemma deliver_all_app (f : LoadFault) (xs ys : list Event) :
  forall m tab,
  deliver_all f (xs ++ ys) m tab =
  let '(m1, tab1, boxes1) := deliver_all f xs m tab in
  let '(m2, tab2, boxes2) := deliver_all f ys m1 tab1 in
  (m2, tab2, boxes1 ++ boxes2).
Proof.
  induction xs as [|e xs IH]; intros m tab; simpl.
  - now destruct (deliver_all f ys m tab) as [[m2 tab2] boxes2].
  - destruct (deliver f e m tab) as [[m1 tab1] boxes1].
    rewrite IH.
    destruct (deliver_all f xs m1 tab1) as [[m2 tab2] boxes2].
    destruct (deliver_all f ys m2 tab2) as [[m3 tab3] boxes3].
    now rewrite app_assoc.
Qed.

Lemma set_value_buttons (tab : ScanTab) (v : Z) : same_buttons tab (set_value tab v).
Proof.
  unfold set_value, same_buttons.
  destruct (andb (0 <=? v)%Z (v <=? 100)%Z); simpl; auto.
Qed.

(** Signals other than [finished_scan] change the label and the value
    of the bar and nothing else. *)
Lemma deliver_all_quiet (f : LoadFault) (evs : list Event) :
  quiet evs ->
  forall m tab,
  exists tab',
    deliver_all f evs m tab = (m, tab', []) /\ same_buttons tab tab'.
Proof.
  induction evs as [|e evs IH]; intros Hq m tab; simpl.
  - exists tab. unfold same_buttons. auto.
  - assert (Hq' : quiet evs) by (intros ok msg Hin; apply (Hq ok msg); now right).
    destruct e as [s|v|ok msg|line]; simpl.
    + destruct (IH Hq' m (with_label tab s)) as (tab' & -> & Hb).
      exists tab'. split; [reflexivity | exact Hb].
    + destruct (IH Hq' m (set_value tab v)) as (tab' & -> & Hb).
      exists tab'. split; [reflexivity|].
      destruct (set_value_buttons tab v) as (A & B & C).
      destruct Hb as (A' & B' & C'). unfold same_buttons. repeat split; congruence.
    + elim (Hq ok msg). now left.
    + destruct (IH Hq' m tab) as (tab' & -> & Hb).
      exists tab'. split; [reflexivity | exact Hb].
Qed.

Lemma loop_quiet (env : ScanEnv) (total : nat) (files : list string) :
  quiet (preamble total
         ++ snd (fst (process_files env total files 0 start_loop))).
Proof.
  intros ok msg.
  rewrite <- (app_nil_r (snd (fst _))). apply no_finished_in_body. intros [].
Qed.

(** How the events of a run end, for the three ways a run reports. *)
Lemma run_with_completed (env : ScanEnv) (files : list string) (db0 db : DB)
    (evs : list Event) :
  scan_with env files db0 = (db, evs, Completed) ->
  exists before msg,
    quiet before /\
    run_with env files db0 =
      (db, before ++ [progress_text "Duplicaten zoeken..."; progress_value 100;
                      finished_scan true msg]).
Proof.
  intros Hc. unfold run_with. rewrite Hc.
  assert (Hs : setup_error env = None).
  { unfold scan_with in Hc. destruct (setup_error env); [discriminate|reflexivity]. }
  assert (Hne : files <> []).
  { intros ->. unfold scan_with in Hc. rewrite Hs in Hc. discriminate. }
  destruct (scan_with_cases env files db0 Hs Hne)
    as [(_ & E)|[(_ & db' & e & _ & E)|(_ & db' & n & _ & E)]];
    rewrite E in Hc; try discriminate.
  injection Hc as <- <-.
  eexists (_ ++ _), _. split; [apply loop_quiet|].
  now rewrite <- app_assoc.
Qed.

Lemma run_with_failed (env : ScanEnv) (files : list string) (db0 : DB) :
  snd (scan_with env files db0) <> Completed ->
  snd (scan_with env files db0) <> Cancelled ->
  exists before msg,
    quiet before /\
    run_with env files db0 =
      (fst (fst (scan_with env files db0)),
       before ++ [finished_scan false msg]) /\
    (snd (scan_with env files db0) = NoImages ->
     msg = "Geen afbeeldingen gevonden!") /\
    (forall e, snd (scan_with env files db0) = Raised e ->
               msg = ("Fout tijdens scannen: " ++ e)%string).
Proof.
  intros Hnc Hns. unfold run_with.
  destruct (setup_error env) as [e|] eqn:Hs.
  { unfold scan_with in *. rewrite Hs in *. simpl.
    exists [progress_text "Database voorbereiden..."]. eexists.
    split; [intros ok msg [H|[]]; discriminate|].
    split; [reflexivity|]. split; [discriminate|]. now intros e' [= <-]. }
  destruct files as [|f files].
  { unfold scan_with in *. rewrite Hs in *. simpl.
    exists [progress_text "Database voorbereiden...";
            progress_text "Bestanden zoeken..."]. eexists.
    split; [intros ok msg [H|[H|[]]]; discriminate|].
    split; [reflexivity|]. split; [reflexivity | discriminate]. }
  set (fs := f :: files) in *.
  assert (Hne : fs <> []) by discriminate.
  destruct (scan_with_cases env fs db0 Hs Hne)
    as [(_ & E)|[(_ & db' & e & _ & E)|(_ & db' & n & _ & E)]];
    rewrite E in *; cbn [fst snd] in *; try congruence.
  exists (preamble (List.length fs)
          ++ snd (fst (process_files env (List.length fs) fs 0 start_loop))
          ++ [progress_text "Duplicaten zoeken..."]). eexists.
  split.
  - intros ok msg. apply no_finished_in_body. intros [H|[]]. discriminate.
  - split; [now rewrite <- !app_assoc|]. split; [discriminate|].
    now intros e' [= <-].
Qed.

Lemma run_with_cancelled (env : ScanEnv) (files : list string) (db0 : DB) :
  snd (scan_with env files db0) = Cancelled ->
  quiet (snd (run_with env files db0)) /\
  fst (run_with env files db0) = fst (fst (scan_with env files db0)) /\
  duplicate_groups (fst (run_with env files db0)) = [].
Proof.
  intros Hc. unfold run_with.
  destruct (setup_error env) as [e|] eqn:Hs.
  { unfold scan_with in Hc. rewrite Hs in Hc. discriminate. }
  destruct files as [|f files].
  { unfold scan_with in Hc. rewrite Hs in Hc. discriminate. }
  set (fs := f :: files) in *.
  assert (Hne : fs <> []) by discriminate.
  destruct (loop_state env (List.length fs) fs) as (k & _ & _ & Hdb & _).
  destruct (scan_with_cases env fs db0 Hs Hne)
    as [(_ & E)|[(_ & db' & e & _ & E)|(_ & db' & n & _ & E)]];
    rewrite E in *; cbn [fst snd] in *; try discriminate.
  split; [apply loop_quiet|]. split; [reflexivity|].
  rewrite Hdb. apply save_all_groups.
Qed.

Lemma start_scan_valid (folder : string) (m : Manager) (tab : ScanTab) :
  folder <> EmptyString -> path_exists folder (m_disk m) = true ->
  start_scan folder m tab =
    (with_thread m (Some false),
     {| scan_btn_visible := false; stop_btn_visible := true;
        progress_bar_visible := true; progress_bar_value := 0;
        progress_label := "Scannen gestart..." |},
     None).
Proof.
  intros Hne Hex. unfold start_scan.
  apply String.eqb_neq in Hne. now rewrite Hne, Hex.
Qed.

(** **** X17.  A scan is not started, and the catalog not touched, when
    the folder field is empty or names a folder that does not exist:
    the window and the tab stay as they are and one warning is shown. *)
Theorem invalid_folder_starts_nothing (env : ScanEnv) (f : LoadFault)
    (folder : string) (m : Manager) (tab : ScanTab) :
  folder = EmptyString \/ path_exists folder (m_disk m) = false ->
  exists text,
    scan_session env f folder m tab = (m, tab, Some (WarningBox "Fout" text), []) /\
    (folder = EmptyString -> text = "Selecteer eerst een map!") /\
    (folder <> EmptyString -> text = "Map bestaat niet!").
Proof.
  intros H. unfold scan_session, start_scan.
  destruct (String.eqb_spec folder EmptyString) as [E|N].
  - eexists. split; [reflexivity|]. split; [reflexivity | congruence].
  - destruct H as [H|H]; [congruence|]. rewrite H. simpl.
    eexists. split; [reflexivity|]. split; [congruence | reflexivity].
Qed.

(** **** X18.  When the scan started from the window runs to its end,
    the window ends up idle, with no thread, the bar at 100 and the
    label "Scan voltooid!", shows one information box with the summary
    of the scan, and reloads the results from the new catalog: with the
    load succeeding, the groups on display are the listing of that
    catalog, from its first group. *)
Theorem completed_session (env : ScanEnv) (f : LoadFault) (folder : string)
    (m : Manager) (tab : ScanTab) (db : DB) (evs : list Event) :
  folder <> EmptyString -> path_exists folder (m_disk m) = true ->
  scan_with env (find_image_files (source_tree env)) (m_db m)
  = (db, evs, Completed) ->
  exists msg before,
    evs = before ++ [finished_scan true msg] /\
    scan_session env f folder m tab =
      (load_existing_results f (with_thread (with_db m db) None),
       {| scan_btn_visible := true; stop_btn_visible := false;
          progress_bar_visible := false; progress_bar_value := 100;
          progress_label := "Scan voltooid!" |},
       None, [Information "Scan Voltooid" msg]) /\
    (f = LoadOk ->
     duplicates (fst (fst (fst (scan_session env f folder m tab))))
     = list_duplicate_groups db /\
     current_group (fst (fst (fst (scan_session env f folder m tab)))) = 0).
Proof.
  intros Hne Hex Hc.
  destruct (run_with_completed _ _ _ _ _ Hc) as (before & msg & Hq & Hrun).
  assert (Hevs : evs = (before ++ [progress_text "Duplicaten zoeken...";
                                   progress_value 100])
                       ++ [finished_scan true msg]).
  { unfold run_with in Hrun. rewrite Hc in Hrun. injection Hrun as ->.
    now rewrite <- app_assoc. }
  assert (Hs : scan_session env f folder m tab =
      (load_existing_results f (with_thread (with_db m db) None),
       {| scan_btn_visible := true; stop_btn_visible := false;
          progress_bar_visible := false; progress_bar_value := 100;
          progress_label := "Scan voltooid!" |},
       None, [Information "Scan Voltooid" msg])).
  { unfold scan_session. rewrite (start_scan_valid _ _ _ Hne Hex).
    unfold run. simpl m_db. rewrite Hrun, deliver_all_app.
    match goal with |- context [deliver_all f before ?m0 ?t0] =>
      destruct (deliver_all_quiet f before Hq m0 t0) as (tab1 & -> & Hb)
    end.
    simpl. reflexivity. }
  exists msg, (before ++ [progress_text "Duplicaten zoeken...";
                          progress_value 100]).
  split; [exact Hevs|]. split; [exact Hs|].
  intros ->. rewrite Hs. simpl. auto.
Qed.

(** **** X19.  When the scan started from the window fails (no image
    found, or an exception), the window ends up idle with the label
    "Scan gefaald" and one error box with the cause, and the results
    are not reloaded: the groups on display are those from before the
    scan, although the catalog has been rebuilt; after a scan that
    found no image the catalog is empty. *)
Theorem failed_session (env : ScanEnv) (f : LoadFault) (folder : string)
    (m : Manager) (tab : ScanTab) :
  folder <> EmptyString -> path_exists folder (m_disk m) = true ->
  let result := scan_with env (find_image_files (source_tree env)) (m_db m) in
  snd result <> Completed -> snd result <> Cancelled ->
  exists msg value label,
    scan_session env f folder m tab =
      (with_thread (with_db m (fst (fst result))) None,
       {| scan_btn_visible := true; stop_btn_visible := false;
          progress_bar_visible := false; progress_bar_value := value;
          progress_label := label |},
       None, [Critical "Scan Fout" msg]) /\
    label = "Scan gefaald" /\
    (snd result = NoImages ->
     msg = "Geen afbeeldingen gevonden!" /\ fst (fst result) = setup_database) /\
    (forall e, snd result = Raised e ->
               msg = ("Fout tijdens scannen: " ++ e)%string).
Proof.
  intros Hne Hex result Hnc Hns. subst result.
  destruct (run_with_failed _ _ _ Hnc Hns)
    as (before & msg & Hq & Hrun & Hno & Hraised).
  unfold scan_session. rewrite (start_scan_valid _ _ _ Hne Hex).
  unfold run. simpl m_db. rewrite Hrun, deliver_all_app.
  match goal with |- context [deliver_all f before ?m0 ?t0] =>
    destruct (deliver_all_quiet f before Hq m0 t0) as (tab1 & -> & Hb)
  end.
  simpl. exists msg. eexists. eexists. split; [reflexivity|].
  split; [reflexivity|]. split; [|exact Hraised].
  intros Hn. split; [now apply Hno|].
  unfold scan_with in *. destruct (setup_error env); [discriminate|].
  destruct (find_image_files (source_tree env)); [reflexivity|].
  destruct (process_files env _ _ 0 start_loop) as [[st ev] stopped].
  destruct stopped; [discriminate|].
  destruct (group_buckets env _ _ 0) as [db' [e|n]]; [discriminate|].
  destruct (n =? 0)%nat; discriminate.
Qed.

Lemma quiet_firstn (k : nat) (evs : list Event) : quiet evs -> quiet (firstn k evs).
Proof.
  intros Hq ok msg Hin. apply (Hq ok msg).
  rewrite <- (firstn_skipn k evs). apply in_or_app. now left.
Qed.

Lemma quiet_skipn (k : nat) (evs : list Event) : quiet evs -> quiet (skipn k evs).
Proof.
  intros Hq ok msg Hin. apply (Hq ok msg).
  rewrite <- (firstn_skipn k evs). apply in_or_app. now right.
Qed.

(** **** X20.  When the user stops the scan and the thread leaves its
    loop on the flag, then, whatever number of signals the window had
    handled at the click, no box is shown and the results are not
    reloaded: the window ends up idle with no thread and with the
    groups on display from before the scan, while the catalog holds
    the rows written so far and no group row.  The label reads
    "Scan gestopt" when no signal was still queued at the click. *)
Theorem stopped_session (env : ScanEnv) (f : LoadFault) (folder : string)
    (m : Manager) (tab : ScanTab) (k : nat) :
  folder <> EmptyString -> path_exists folder (m_disk m) = true ->
  let result := scan_with env (find_image_files (source_tree env)) (m_db m) in
  snd result = Cancelled ->
  exists tab',
    stop_during env f folder m tab k =
      (with_thread (with_db m (fst (fst result))) None, tab', None, []) /\
    idle tab' /\
    duplicates (with_thread (with_db m (fst (fst result))) None) = duplicates m /\
    duplicate_groups (fst (fst result)) = [] /\
    (List.length (snd (fst result)) <= k -> progress_label tab' = "Scan gestopt").
Proof.
  intros Hne Hex result Hc. subst result.
  destruct (run_with_cancelled _ _ _ Hc) as (Hq & Hdb & Hg).
  assert (Hevs : snd (run_with env (find_image_files (source_tree env)) (m_db m))
                 = snd (fst (scan_with env (find_image_files (source_tree env))
                                       (m_db m)))).
  { unfold run_with.
    destruct (scan_with env (find_image_files (source_tree env)) (m_db m))
      as [[db evs] ex]. simpl in Hc. subst ex. reflexivity. }
  unfold stop_during. rewrite (start_scan_valid _ _ _ Hne Hex).
  unfold run. simpl m_db.
  destruct (run_with env (find_image_files (source_tree env)) (m_db m))
    as [db evs] eqn:Er. simpl in Hq, Hdb, Hg, Hevs. subst db.
  rewrite <- Hevs.
  match goal with |- context [deliver_all f (firstn k evs) ?m0 ?t0] =>
    destruct (deliver_all_quiet f (firstn k evs) (quiet_firstn k evs Hq) m0 t0)
      as (tab1 & -> & Hb)
  end.
  destruct Hb as (A & B & C). simpl in A, B, C.
  unfold stop_scan, reset_scan_ui. cbn [scan_thread with_thread with_db with_disk_db].
  match goal with |- context [deliver_all f (skipn k evs) ?m0 ?t0] =>
    destruct (deliver_all_quiet f (skipn k evs) (quiet_skipn k evs Hq) m0 t0)
      as (tab2 & E2 & Hb2)
  end.
  exists tab2. split.
  { cbn [scan_thread with_thread with_db with_disk_db m_db m_disk duplicates
         current_group results_label] in *. rewrite E2. reflexivity. }
  destruct Hb2 as (A2 & B2 & C2). simpl in A2, B2, C2.
  split; [unfold idle; auto|]. split; [reflexivity|]. split; [exact Hg|].
  intros Hk. rewrite skipn_all2 in E2 by exact Hk. simpl in E2.
  injection E2 as <-. reflexivity.
Qed.

(* ================================================================= *)
(** ** The concrete runs *)

(** **** C7.  On a case-sensitive path flavour a picture named
    [holiday.Jpg] is not found, although its extension is [.jpg] when
    case is ignored: the two patterns of an extension are the one in
    lower case and the one in upper case, and neither matches.  A
    case-insensitive flavour finds the file, and once only. *)
Theorem mixed_case_extension_missed :
  In ".jpg" IMAGE_EXTENSIONS /\
  ends_with ".jpg" (lower (basename "/photos/holiday.Jpg")) = true /\
  find_image_files mixed_case_tree = [] /\
  find_image_files {| case_sensitive := false;
                      entries := entries mixed_case_tree |}
  = ["/photos/holiday.Jpg"].
Proof. repeat split; [now left]. Qed.

Lemma example_scan_completed :
  scan_with example_env example_files setup_database
  = (example_db, example_events, Completed).
Proof. vm_compute. reflexivity. Defined.

Lemma exact_match_grouping_witness :
  exists g,
    In g (duplicate_groups example_db) /\ g_hash g = "c3c3f0f0" /\
    image_count g = 2%Z /\
    forall r, In r (images example_db) ->
              (group_id r = Some (g_id g) <->
               In (row_path r) ["/photos/a.jpg"; "/photos/copy/b.png"]).
Proof.
  destruct (exact_match_grouping example_env example_files setup_database
              example_db example_events
              (find_image_files_NoDup example_tree) example_scan_completed)
    as [_ H].
  destruct (H "c3c3f0f0") as (_ & H2 & _).
  destruct H2 as (g & Hin & Hh & Hc & _ & Hrows).
  - vm_compute. lia.
  - exists g. repeat split; try assumption; apply Hrows; assumption.
Defined.

(** The bucket arrives as [small.jpg], [b.png], [a.jpg] and is worked
    on as [a.jpg], [b.png], [small.jpg]: when the update of [b.png]
    raises, [a.jpg] is the one row that is in the group. *)
Lemma grouping_sort_order_witness :
  map path (sort_bucket example_bucket)
  = ["/photos/a.jpg"; "/photos/copy/b.png"; "/photos/small.jpg"] /\
  StronglySorted before_desc (sort_bucket example_bucket) /\
  snd (group_buckets grouping_fails_env [("c3c3f0f0", example_bucket)]
         example_bucket_db 0) = inl "disk I/O error" /\
  map (fun r => (row_path r, group_id r))
      (images (fst (group_buckets grouping_fails_env
                      [("c3c3f0f0", example_bucket)] example_bucket_db 0)))
  = [("/photos/small.jpg", None); ("/photos/copy/b.png", None);
     ("/photos/a.jpg", Some 1%Z)].
Proof.
  destruct (grouping_sort_order grouping_fails_env "c3c3f0f0" example_bucket []
              example_bucket_db 0) as (H1 & _ & _ & _ & _ & H6).
  - simpl. lia.
  - split; [reflexivity|]. split; [exact H1|].
    rewrite (H6 1 (image_data_of example_env "/photos/copy/b.png" "c3c3f0f0")
               "disk I/O error").
    + split; reflexivity.
    + reflexivity.
    + reflexivity.
    + reflexivity.
    + intros d' [<-|[]]. reflexivity.
Defined.

(** C3, as stated, fails here: stop is seen after two of four files,
    and the run ends without any [finished_scan] signal. *)
Lemma cancelled_scan_emits_no_signal :
  should_stop stopped_env 0 = false /\ should_stop stopped_env 1 = false /\
  should_stop stopped_env 2 = true /\
  snd (run stopped_env setup_database)
  = [progress_text "Database voorbereiden...";
     progress_text "Bestanden zoeken...";
     progress_text "Verwerken van 4 afbeeldingen...";
     progress_value 20; progress_value 40].
Proof. repeat split. Qed.

Lemma cancellation_witness :
  exists evs,
    run_with stopped_env example_files setup_database
    = (l_db (fst (process_all stopped_env 4 (firstn 2 example_files) start_loop)),
       evs) /\
    (forall ok msg, ~ In (finished_scan ok msg) evs).
Proof.
  destruct (cancellation stopped_env example_files setup_database 2)
    as (evs & _ & Hrun & Hno & _).
  - reflexivity.
  - vm_compute. lia.
  - intros i Hi. destruct i as [|[|i]]; [reflexivity | reflexivity | lia].
  - reflexivity.
  - exists evs. split; [exact Hrun | exact Hno].
Defined.



(** C5, as stated, fails here: stat gives a size and a modification
    time, decoding fails, and neither of the two is returned. *)
Lemma decode_failure_drops_stat :
  obs_stat undecodable
  = Some {| st_size := 2048; mtime_iso := Some "2022-01-15T09:00:00" |} /\
  obs_image undecodable = None /\
  file_size (get_metadata example_strptime undecodable) = 0%Z /\
  date_modified (get_metadata example_strptime undecodable) = None.
Proof. repeat split. Qed.

Lemma get_metadata_decode_failure_witness :
  get_metadata example_strptime undecodable = fallback_metadata.
Proof.
  apply (get_metadata_decode_failure example_strptime undecodable).
  reflexivity.
Defined.

Lemma soft_delete_visibility_witness :
  list_duplicate_groups
    (m_db (fst (delete_image confirmed "/photos/a.jpg" example_manager))) = [] /\
  forall r, In r (images example_db) -> row_path r = "/photos/a.jpg" ->
    In (set_deleted r)
       (images (m_db (fst (delete_image confirmed "/photos/a.jpg"
                             example_manager)))).
Proof.
  split; [reflexivity|].
  destruct (soft_delete_visibility confirmed "/photos/a.jpg" example_manager
              "Verwijderd" "Bestand verwijderd: a.jpg") as (_ & H & _).
  - intros r Hr. vm_compute in Hr.
    destruct Hr as [<-|[<-|[<-|[]]]]; reflexivity.
  - reflexivity.
  - exact H.
Defined.



(** C9, as stated, fails here: the file is already gone, [os.remove]
    would raise but is not called, and the caller sees the information
    box, not an error. *)
Lemma file_already_gone_is_no_error :
  path_exists "/photos/a.jpg" (m_disk manager_file_gone) = false /\
  snd (delete_image (confirmed_remove_raises "No such file or directory")
         "/photos/a.jpg" manager_file_gone)
  = Some (Information "Verwijderd" "Bestand verwijderd: a.jpg").
Proof. repeat split. Qed.

Lemma delete_failure_surfaced_witness :
  snd (delete_image (confirmed_remove_raises "Permission denied")
         "/photos/a.jpg" example_manager)
  = delete_failed "Permission denied" /\
  fst (delete_image (confirmed_remove_raises "Permission denied")
         "/photos/a.jpg" example_manager)
  = example_manager.
Proof.
  destruct (delete_failure_surfaced (confirmed_remove_raises "Permission denied")
              "/photos/a.jpg" example_manager) as (_ & H & _).
  - reflexivity.
  - apply H; reflexivity.
Defined.

Lemma delete_unknown_path_witness :
  snd (delete_image confirmed "/photos/notes.txt" example_manager)
  = delete_done "/photos/notes.txt" /\
  m_db (fst (delete_image confirmed "/photos/notes.txt" example_manager))
  = example_db.
Proof.
  destruct (delete_unknown_path confirmed "/photos/notes.txt" example_manager)
    as (H1 & H2 & _).
  - reflexivity.
  - intros r Hr. vm_compute in Hr.
    destruct Hr as [<-|[<-|[<-|[]]]]; discriminate.
  - reflexivity.
  - reflexivity.
  - split; [exact H1 | exact H2].
Defined.

(* ================================================================= *)
(** ** More concrete runs *)


Lemma group_ids_resolve_witness :
  snd (scan_with grouping_fails_env example_files setup_database)
  = Raised "disk I/O error" /\
  forall r, In r (images half_grouped_db) ->
  forall x, group_id r = Some x ->
  exists g, In g (duplicate_groups half_grouped_db) /\ g_id g = x /\
            g_hash g = row_hash r.
Proof.
  split; [reflexivity|].
  apply (group_ids_resolve grouping_fails_env example_files setup_database).
  reflexivity.
Defined.

Lemma groups_only_for_duplicates_witness :
  NoDup (map g_id (duplicate_groups example_db)) /\
  forall g, In g (duplicate_groups example_db) ->
    (2 <= image_count g)%Z /\
    image_count g
    = Z.of_nat (List.length (bucket_files example_env example_files (g_hash g))).
Proof.
  apply (groups_only_for_duplicates example_env example_files setup_database).
  reflexivity.
Defined.

Lemma grouping_failure_keeps_rows_witness :
  map row_core (images half_grouped_db)
  = map row_core
      (images (save_all (records grouping_fails_env example_files)
                 setup_database)) /\
  exists before,
    snd (run_with grouping_fails_env example_files setup_database)
    = before ++ [finished_scan false "Fout tijdens scannen: disk I/O error"].
Proof.
  apply (grouping_failure_keeps_rows grouping_fails_env example_files
           setup_database "disk I/O error"); reflexivity.
Defined.

Lemma reversed_scan_completed :
  scan_with example_env (rev example_files) setup_database
  = (reversed_db,
     snd (fst (scan_with example_env (rev example_files) setup_database)),
     Completed).
Proof. vm_compute. reflexivity. Defined.

Lemma groups_independent_of_order_witness :
  map row_path (images example_db) <> map row_path (images reversed_db) /\
  (forall p h, filed example_db p h <-> filed reversed_db p h) /\
  Permutation (map row_path (images example_db))
              (map row_path (images reversed_db)).
Proof.
  split; [vm_compute; discriminate|].
  apply (groups_independent_of_order example_env example_files
           (rev example_files) setup_database setup_database
           example_db reversed_db example_events _
           (find_image_files_NoDup example_tree)
           (Permutation_rev example_files)
           example_scan_completed reversed_scan_completed).
Defined.

Lemma summary_matches_catalog_witness :
  exists before,
    example_events
    = before ++ [finished_scan true (catalog_summary example_db)].
Proof.
  apply (summary_matches_catalog example_env example_files setup_database
           example_db example_events
           (find_image_files_NoDup example_tree) example_scan_completed).
Defined.

Lemma listing_after_scan_witness :
  List.length (list_duplicate_groups example_db)
  = List.length (duplicate_groups example_db) /\
  forall g, In g (duplicate_groups example_db) ->
    In (images_query (g_id g) example_db) (list_duplicate_groups example_db) /\
    Permutation (map row_path (images_query (g_id g) example_db))
                (bucket_files example_env example_files (g_hash g)).
Proof.
  apply (listing_after_scan example_env example_files setup_database
           example_db example_events
           (find_image_files_NoDup example_tree) example_scan_completed).
Defined.

Lemma delete_removes_one_card_witness :
  duplicate_groups
    (m_db (fst (delete_image confirmed "/photos/a.jpg" example_manager)))
  = duplicate_groups example_db /\
  forall gid,
    images_query gid
      (m_db (fst (delete_image confirmed "/photos/a.jpg" example_manager)))
    = filter (fun r => negb (String.eqb (row_path r) "/photos/a.jpg"))
             (images_query gid example_db).
Proof.
  destruct (delete_removes_one_card confirmed "/photos/a.jpg" example_manager
              "Verwijderd" "Bestand verwijderd: a.jpg") as (H1 & H2 & _).
  - reflexivity.
  - split; [exact H1 | exact H2].
Defined.

Lemma delete_again_changes_nothing_witness :
  snd (delete_image (confirmed_remove_raises "Permission denied")
         "/photos/a.jpg"
         (fst (delete_image confirmed "/photos/a.jpg" example_manager)))
  = delete_done "/photos/a.jpg" /\
  m_db (fst (delete_image (confirmed_remove_raises "Permission denied")
               "/photos/a.jpg"
               (fst (delete_image confirmed "/photos/a.jpg" example_manager))))
  = m_db (fst (delete_image confirmed "/photos/a.jpg" example_manager)).
Proof.
  destruct (delete_again_changes_nothing confirmed
              (confirmed_remove_raises "Permission denied")
              "/photos/a.jpg" example_manager
              "Verwijderd" "Bestand verwijderd: a.jpg") as (H1 & H2 & _).
  - reflexivity.
  - reflexivity.
  - reflexivity.
  - split; [exact H1 | exact H2].
Defined.

Lemma navigation_in_range_witness :
  List.length (duplicates example_manager) = 1 /\
  prev_group example_manager = example_manager /\
  next_group example_manager = example_manager.
Proof.
  split; [reflexivity|].
  destruct (navigation_in_range example_manager) as (_ & _ & Hp & Hn & _).
  - vm_compute. lia.
  - split; [apply Hp | apply Hn]; reflexivity.
Defined.

Lemma invalid_folder_starts_nothing_witness :
  path_exists "/pictures" (m_disk fresh_manager) = false /\
  scan_session example_env LoadOk "/pictures" fresh_manager create_scan_tab
  = (fresh_manager, create_scan_tab,
     Some (WarningBox "Fout" "Map bestaat niet!"), []).
Proof.
  split; [reflexivity|].
  destruct (invalid_folder_starts_nothing example_env LoadOk "/pictures"
              fresh_manager create_scan_tab) as (text & H & _ & Ht).
  - right. reflexivity.
  - rewrite H, Ht; [reflexivity | discriminate].
Defined.

Lemma completed_session_witness :
  exists msg,
    scan_session example_env LoadOk "/photos" fresh_manager create_scan_tab
    = (load_existing_results LoadOk
         (with_thread (with_db fresh_manager example_db) None),
       {| scan_btn_visible := true; stop_btn_visible := false;
          progress_bar_visible := false; progress_bar_value := 100;
          progress_label := "Scan voltooid!" |},
       None, [Information "Scan Voltooid" msg]) /\
    duplicates
      (fst (fst (fst (scan_session example_env LoadOk "/photos" fresh_manager
                        create_scan_tab))))
    = list_duplicate_groups example_db.
Proof.
  destruct (completed_session example_env LoadOk "/photos" fresh_manager
              create_scan_tab example_db example_events)
    as (msg & before & _ & Hs & Hd).
  - discriminate.
  - reflexivity.
  - exact example_scan_completed.
  - exists msg. split; [exact Hs | apply Hd; reflexivity].
Defined.

Lemma failed_session_witness :
  exists value,
    scan_session no_images_env LoadOk "/photos" scanned_manager create_scan_tab
    = (with_thread (with_db scanned_manager setup_database) None,
       {| scan_btn_visible := true; stop_btn_visible := false;
          progress_bar_visible := false; progress_bar_value := value;
          progress_label := "Scan gefaald" |},
       None, [Critical "Scan Fout" "Geen afbeeldingen gevonden!"]).
Proof.
  destruct (failed_session no_images_env LoadOk "/photos" scanned_manager
              create_scan_tab)
    as (msg & value & label & Hs & Hl & Hn & _).
  - discriminate.
  - reflexivity.
  - vm_compute. discriminate.
  - vm_compute. discriminate.
  - exists value. destruct Hn as [Hm Hdb]; [reflexivity|].
    subst label msg. rewrite Hdb in Hs. exact Hs.
Defined.

Lemma stopped_session_witness :
  exists tab',
    stop_during stopped_env LoadOk "/photos" fresh_manager create_scan_tab 3
    = (with_thread
         (with_db fresh_manager
            (fst (fst (scan_with stopped_env example_files setup_database))))
         None,
       tab', None, []) /\
    idle tab'.
Proof.
  destruct (stopped_session stopped_env LoadOk "/photos" fresh_manager
              create_scan_tab 3) as (tab' & Hs & Hi & _).
  - discriminate.
  - reflexivity.
  - reflexivity.
  - exists tab'. split; [exact Hs | exact Hi].
Defined.

